(** * Herodotus quote extraction: a shallow embedding and its properties

    The development embeds the extraction pipeline of [src/parser.py]
    (class [HerodotusParser], [DialogueContext], [QuoteDeduplicator]) with
    its cleaning of the volumes and its quality metrics, and the extraction
    script [scripts/extract_all_quotes.py] with its speaker refinement.

    Conventions of the embedding.
    - Text is a Rocq [string]; the character predicates follow Python on the
      ASCII range (bytes above 127 are uncased, non-space, non-digit).
    - Regular expressions are terms of [Re.regex], matched by a backtracking
      matcher with Python's priorities (ordered alternation, greedy and lazy
      repetition, leftmost match, non-overlapping scan).
    - Python sets and the deduplicator's dict are [gset] and [gmap]; the
      iteration order of a set is [elements].  A dict whose iteration order
      the code observes is an association list in insertion order.
    - Confidences are the rationals denoted by the float literals of the
      source; the source compares, takes maxima of and multiplies them.
    - Exceptions are the [Err] results of [result]. *)

From Stdlib Require Import String Ascii List ZArith QArith Qminmax Lia Lqa Bool Sorted
  DecimalString DecimalNat DecimalFacts.
From stdpp Require Import base gmap sets list strings.

(** ** Python string primitives *)

Module PyStr.

Definition code (c : ascii) : N := N_of_ascii c.

Definition between (lo hi c : ascii) : bool :=
  ((code lo <=? code c) && (code c <=? code hi))%N.

(** [[A-Z]], [[a-z]], [\d] *)
Definition is_upper_c : ascii -> bool := between "A" "Z".
Definition is_lower_c : ascii -> bool := between "a" "z".
Definition is_digit_c : ascii -> bool := between "0" "9".

(** [str.isspace] and [\s]: TAB..CR, FS..US and the space. *)
Definition is_space_c (c : ascii) : bool :=
  ((9 <=? code c) && (code c <=? 13) || (28 <=? code c) && (code c <=? 32))%N.

Definition lower_c (c : ascii) : ascii :=
  if is_upper_c c then ascii_of_N (code c + 32) else c.

Definition upper_c (c : ascii) : ascii :=
  if is_lower_c c then ascii_of_N (code c - 32) else c.

Fixpoint smap (f : ascii -> ascii) (s : string) : string :=
  match s with
  | EmptyString => EmptyString
  | String c s' => String (f c) (smap f s')
  end.

(** [s.lower()], [s.upper()] *)
Definition lower : string -> string := smap lower_c.
Definition upper : string -> string := smap upper_c.

Fixpoint sexists (p : ascii -> bool) (s : string) : bool :=
  match s with
  | EmptyString => false
  | String c s' => p c || sexists p s'
  end.

(** [s.isupper()]: some cased character, and no lowercase one. *)
Definition isupper (s : string) : bool :=
  sexists is_upper_c s && negb (sexists is_lower_c s).

(** [s[0].islower()] on a non-empty string *)
Definition first_islower (s : string) : bool :=
  match s with
  | EmptyString => false
  | String c _ => is_lower_c c
  end.

Definition first_isupper (s : string) : bool :=
  match s with
  | EmptyString => false
  | String c _ => is_upper_c c
  end.

(** [s.count(c)] for a one-character needle *)
Fixpoint count_c (c : ascii) (s : string) : nat :=
  match s with
  | EmptyString => 0
  | String d s' => (if Ascii.eqb c d then 1 else 0) + count_c c s'
  end.

(** [s[n:]] and [s[:n]] for [0 <= n] *)
Fixpoint str_drop (n : nat) (s : string) : string :=
  match n, s with
  | O, _ => s
  | S _, EmptyString => EmptyString
  | S n', String _ s' => str_drop n' s'
  end.

Fixpoint str_take (n : nat) (s : string) : string :=
  match n, s with
  | O, _ => EmptyString
  | S _, EmptyString => EmptyString
  | S n', String c s' => String c (str_take n' s')
  end.

(** [s[a:b]] for [0 <= a] and [0 <= b] *)
Definition slice (a b : nat) (s : string) : string := str_take (b - a) (str_drop a s).

(** [s[-n:]] *)
Definition last_n (n : nat) (s : string) : string :=
  str_drop (String.length s - n) s.

(** [sub in s] *)
Fixpoint contains (sub s : string) : bool :=
  String.prefix sub s ||
  match s with
  | EmptyString => false
  | String _ s' => contains sub s'
  end.

(** [any(w in s for w in ws)] *)
Definition contains_any (ws : list string) (s : string) : bool :=
  existsb (fun w => contains w s) ws.

(** [s.rfind(sub)], [None] for -1 *)
Fixpoint rfind (sub s : string) : option nat :=
  match s with
  | EmptyString => if String.prefix sub s then Some 0 else None
  | String _ s' =>
      match rfind sub s' with
      | Some i => Some (S i)
      | None => if String.prefix sub s then Some 0 else None
      end
  end.

(** [s.split()]: the maximal runs of non-space characters.  [cur] is the
    word being read, reversed into place by appending. *)
Fixpoint split_go (cur : string) (s : string) : list string :=
  match s with
  | EmptyString => if String.eqb cur "" then [] else [cur]
  | String c s' =>
      if is_space_c c
      then (if String.eqb cur "" then split_go "" s' else cur :: split_go "" s')
      else split_go (cur +:+ String c "") s'
  end.

Definition split (s : string) : list string := split_go "" s.

(** [s.split(".")] for a one-character separator: never an empty list. *)
Fixpoint split_on_go (sep : ascii) (cur : string) (s : string) : list string :=
  match s with
  | EmptyString => [cur]
  | String c s' =>
      if Ascii.eqb c sep then cur :: split_on_go sep "" s'
      else split_on_go sep (cur +:+ String c "") s'
  end.

Definition split_on (sep : ascii) (s : string) : list string :=
  split_on_go sep "" s.

(** [sep.join(ws)] *)
Fixpoint join (sep : string) (ws : list string) : string :=
  match ws with
  | [] => ""
  | [w] => w
  | w :: ws' => w +:+ sep +:+ join sep ws'
  end.

Fixpoint lstrip_by (p : ascii -> bool) (s : string) : string :=
  match s with
  | EmptyString => EmptyString
  | String c s' => if p c then lstrip_by p s' else s
  end.

Fixpoint rstrip_by (p : ascii -> bool) (s : string) : string :=
  match s with
  | EmptyString => EmptyString
  | String c s' =>
      match rstrip_by p s' with
      | EmptyString => if p c then EmptyString else String c EmptyString
      | t => String c t
      end
  end.

Definition strip_by (p : ascii -> bool) (s : string) : string :=
  rstrip_by p (lstrip_by p s).

(** [s.strip()] *)
Definition strip : string -> string := strip_by is_space_c.

(** [s.strip(chars)] *)
Definition strip_chars (chars : string) : string -> string :=
  strip_by (fun c => sexists (Ascii.eqb c) chars).

(** [a < b] on strings: code point order, a proper prefix first. *)
Fixpoint ltb (a b : string) : bool :=
  match a, b with
  | _, EmptyString => false
  | EmptyString, String _ _ => true
  | String c a', String d b' =>
      if (code c <? code d)%N then true
      else if (code d <? code c)%N then false
      else ltb a' b'
  end.

(** [min(a, b)] and [max(a, b)]: the first argument wins a tie. *)
Definition smin (a b : string) : string := if ltb b a then b else a.
Definition smax (a b : string) : string := if ltb a b then b else a.

(** [s.startswith(p)] *)
Definition startswith (p s : string) : bool := String.prefix p s.

End PyStr.

(** ** Regular expressions with Python's backtracking priorities *)

Module Re.
Import PyStr.

Inductive regex : Type :=
| Eps
| Chr (p : ascii -> bool)
| Seq (r1 r2 : regex)
| Alt (r1 r2 : regex)
| Star (greedy : bool) (r : regex)
| Grp (n : nat) (r : regex)
| Bol.

(** Captured spans, the most recent binding of a group first. *)
Definition caps : Type := list (nat * (nat * nat)).

Section Matcher.
Context {R : Type}.

(** A continuation, and a matcher in continuation-passing style *)
Definition cont : Type := nat -> string -> caps -> option R.
Definition matcher : Type := nat -> string -> caps -> cont -> option R.

(** The loop of a repetition of [body]: greedy, one more iteration is
    tried before the continuation; lazy, after it.  An iteration must
    consume input, so [String.length s] iterations are enough. *)
Fixpoint star_loop (body : matcher) (g : bool) (k : cont) (fuel : nat)
    (pos : nat) (s : string) (cs : caps) : option R :=
  match fuel with
  | O => k pos s cs
  | S fuel' =>
      let again :=
        fun pos' s' cs' =>
          if (pos <? pos')%nat then star_loop body g k fuel' pos' s' cs' else None in
      if g then
        match body pos s cs again with
        | Some x => Some x
        | None => k pos s cs
        end
      else
        match k pos s cs with
        | Some x => Some x
        | None => body pos s cs again
        end
  end.

(** [rmatch r pos s cs k]: match [r] on [s], which starts at offset [pos]
    of the subject, and hand the rest to the continuation [k].  The first
    success in priority order is the answer. *)
Fixpoint rmatch (r : regex) (pos : nat) (s : string) (cs : caps) (k : cont)
    : option R :=
  match r with
  | Eps => k pos s cs
  | Chr p =>
      match s with
      | String c s' => if p c then k (S pos) s' cs else None
      | EmptyString => None
      end
  | Seq a b => rmatch a pos s cs (fun pos' s' cs' => rmatch b pos' s' cs' k)
  | Alt a b =>
      match rmatch a pos s cs k with
      | Some x => Some x
      | None => rmatch b pos s cs k
      end
  | Star g a => star_loop (rmatch a) g k (String.length s) pos s cs
  | Grp n a =>
      rmatch a pos s cs (fun pos' s' cs' => k pos' s' ((n, (pos, pos')) :: cs'))
  | Bol => if (pos =? 0)%nat then k pos s cs else None
  end.

End Matcher.

(** Derived forms *)
Definition Plus (g : bool) (r : regex) : regex := Seq r (Star g r).
Definition Opt (r : regex) : regex := Alt r Eps.
Definition Any : regex := Chr (fun _ => true).
Definition Ch (c : ascii) : regex := Chr (Ascii.eqb c).
Definition NotCh (c : ascii) : regex := Chr (fun d => negb (Ascii.eqb c d)).
Definition OneOf (cs : string) : regex := Chr (fun d => sexists (Ascii.eqb d) cs).

Fixpoint Lit (s : string) : regex :=
  match s with
  | EmptyString => Eps
  | String c EmptyString => Ch c
  | String c s' => Seq (Ch c) (Lit s')
  end.

(** [(?:w1|w2|...)] *)
Fixpoint Alts (ws : list string) : regex :=
  match ws with
  | [] => Chr (fun _ => false)
  | [w] => Lit w
  | w :: ws' => Alt (Lit w) (Alts ws')
  end.

Fixpoint Seqs (rs : list regex) : regex :=
  match rs with
  | [] => Eps
  | [r] => r
  | r :: rs' => Seq r (Seqs rs')
  end.

(** Under [re.IGNORECASE]: a literal, a class, a negated character. *)
Definition ChI (c : ascii) : regex :=
  Chr (fun d => Ascii.eqb (lower_c c) (lower_c d)).
Definition OneOfI (cs : string) : regex :=
  Chr (fun d => sexists (fun c => Ascii.eqb (lower_c c) (lower_c d)) cs).
Definition NotChI (c : ascii) : regex :=
  Chr (fun d => negb (Ascii.eqb (lower_c c) (lower_c d))).

Fixpoint LitI (s : string) : regex :=
  match s with
  | EmptyString => Eps
  | String c EmptyString => ChI c
  | String c s' => Seq (ChI c) (LitI s')
  end.

Definition Space : regex := Chr is_space_c.
Definition Digit : regex := Chr is_digit_c.
Definition Upper : regex := Chr is_upper_c.
Definition Lower : regex := Chr is_lower_c.

(** A match object: [m.start()], [m.end()] and the spans of its groups. *)
Record mobj : Type := MObj { m_start : nat; m_end : nat; m_caps : caps }.

Fixpoint span_of (n : nat) (cs : caps) : option (nat * nat) :=
  match cs with
  | [] => None
  | (i, sp) :: cs' => if (i =? n)%nat then Some sp else span_of n cs'
  end.

(** [m.group(n)] against the subject [text]; the patterns of this
    development have no optional group, a group that took no part
    reads as the empty string here. *)
Definition group (text : string) (m : mobj) (n : nat) : string :=
  match span_of n (m_caps m) with
  | Some (a, b) => slice a b text
  | None => ""
  end.

(** One attempt at offset [pos]; the rest of the subject comes back with
    the end offset. *)
Definition match_at (r : regex) (pos : nat) (s : string)
    : option (nat * string * caps) :=
  rmatch r pos s [] (fun e s' cs => Some (e, s', cs)).

(** [re.match(r, text)] *)
Definition re_match (r : regex) (text : string) : option mobj :=
  match match_at r 0 text with
  | Some (e, _, cs) => Some (MObj 0 e cs)
  | None => None
  end.

(** [re.finditer(r, text)]: leftmost matches, scanning on from the end of
    each.  After an empty match the scan moves one character on. *)
Fixpoint scan (fuel : nat) (r : regex) (pos : nat) (s : string) : list mobj :=
  match fuel with
  | O => []
  | S fuel' =>
      match match_at r pos s with
      | Some (e, s', cs) =>
          MObj pos e cs ::
          (if (pos <? e)%nat then scan fuel' r e s'
           else match s with
                | String _ t => scan fuel' r (S pos) t
                | EmptyString => []
                end)
      | None =>
          match s with
          | String _ t => scan fuel' r (S pos) t
          | EmptyString => []
          end
      end
  end.

Definition finditer (r : regex) (text : string) : list mobj :=
  scan (S (String.length text)) r 0 text.

(** The pieces of [text] between consecutive matches, from offset [prev]. *)
Fixpoint pieces (text : string) (prev : nat) (ms : list mobj) : list string :=
  match ms with
  | [] => [str_drop prev text]
  | m :: ms' => slice prev (m_start m) text :: pieces text (m_end m) ms'
  end.

(** [re.split(r, text)] for a pattern without groups *)
Definition re_split (r : regex) (text : string) : list string :=
  pieces text 0 (finditer r text).

(** [re.sub(r, repl, text)] for a replacement without back-references *)
Definition re_sub (r : regex) (repl text : string) : string :=
  join repl (pieces text 0 (finditer r text)).

End Re.

(** ** [scripts/extract_all_quotes.py]: speaker from the context *)

Module Script.
Import PyStr Re.

Definition IGNORE_NAMES : gset string :=
  list_to_set
    [ "The"; "Then"; "When"; "Thus"; "For"; "But"; "And"; "So"; "If";
      "Sardis"; "Athens"; "Sparta"; "Hellas"; "Egypt"; "Persia"; "Babylon";
      "Lacedemonians"; "Corinthians"; "Athenians"; "Persians"; "Medes";
      "Paionians"; "Ionians";
      "Myrkinos"; "Hellespont"; "Ionia"; "Asia"; "Europe"; "Libya"; "Delphi" ].

Definition BLACKLIST : gset string :=
  list_to_set
    [ "Accordingly"; "Being"; "De"; "He"; "She"; "They"; "It"; "Now";
      "Then"; "Thus"; "Therefore"; "Since"; "Surely"; "What"; "With";
      "To"; "Didst"; "Having"; "Unknown"; "Deity"; "State"; "Oracle";
      "Epic"; "Poet"; "Barbarians"; "Hellenes";
      "Here"; "There"; "But"; "For"; "If"; "When";
      "Upon"; "In"; "How"; "Come" ].

(** [name not in IGNORE_NAMES and name not in BLACKLIST] *)
Definition accepted (name : string) : bool :=
  negb (bool_decide (name ∈ IGNORE_NAMES)) && negb (bool_decide (name ∈ BLACKLIST)).

Definition speech_verbs : list string :=
  ["answered"; "said"; "spoke"; "replied"; "asked"].

(** [[A-Z][a-z]+] *)
Definition name_re : regex := Seq Upper (Plus true Lower).

(** [^([A-Z][a-z]+), ] *)
Definition addressee_re : regex := Seqs [Bol; Grp 1 name_re; Lit ", "].

(** [([A-Z][a-z]+)\s+(?:answered|said|spoke|replied|asked)] *)
Definition speaker_verb_re : regex :=
  Seqs [Grp 1 name_re; Plus true Space; Alts speech_verbs].

(** [([A-Z][a-z]+)(?:\s+\d+)?\s+(?:answered|said|spoke|replied|asked)] *)
Definition speaker_note_verb_re : regex :=
  Seqs [Grp 1 name_re; Opt (Seq (Plus true Space) (Plus true Digit));
        Plus true Space; Alts speech_verbs].

(** [(answered|said|spoke|replied|asked)] *)
Definition verb_re : regex := Grp 1 (Alts speech_verbs).

(** [([A-Z][a-z]+)] *)
Definition capitalized_re : regex := Grp 1 name_re.

(** The loop [for match in reversed(matches)] that returns the first name
    outside both stoplists; [ms] is already reversed. *)
Fixpoint first_accepted (subject : string) (ms : list mobj) : option string :=
  match ms with
  | [] => None
  | m :: ms' =>
      let name := group subject m 1 in
      if accepted name then Some name else first_accepted subject ms'
  end.

Definition resolve_speaker (text context_before current_speaker : string) : string :=
  match re_match addressee_re text with
  | Some _ =>
      match first_accepted context_before
              (rev (finditer speaker_verb_re context_before)) with
      | Some name => name
      | None => current_speaker
      end
  | None => current_speaker
  end.

(** Strategy 3 of [extract_quotes_from_file]: the capitalized words before
    the last verb, nearest first, skipping stoplisted names and the agent of
    a passive ("by Name"). [cands] is already reversed. *)
Fixpoint nearest_subject (lookback_text : string) (cands : list mobj) : option string :=
  match cands with
  | [] => None
  | cand :: cands' =>
      let name := group lookback_text cand 1 in
      if negb (accepted name) then nearest_subject lookback_text cands'
      else
        let start_pos := m_start cand in
        let preceding_text := lower (slice (start_pos - 5) start_pos lookback_text) in
        if contains "by " preceding_text then nearest_subject lookback_text cands'
        else Some name
  end.

(** The speaker that [extract_quotes_from_file] finds for one quotation
    before the addressee check: strategies 1 and 2, then strategy 3, with
    ["Unknown"] by default. *)
Definition identify_speaker (context_before : string) : string :=
  let immediate_context := last_n 300 context_before in
  match first_accepted immediate_context
          (rev (finditer speaker_note_verb_re immediate_context)) with
  | Some name => name
  | None =>
      match rev (finditer verb_re immediate_context) with
      | [] => "Unknown"
      | last_verb :: _ =>
          let verb_start := m_start last_verb in
          let lookback_text := slice (verb_start - 200) verb_start immediate_context in
          match nearest_subject lookback_text (rev (finditer capitalized_re lookback_text)) with
          | Some name => name
          | None => "Unknown"
          end
      end
  end.

(** The speaker recorded for a quotation: the identified speaker, refined by
    the addressee check. *)
Definition attributed_speaker (cleaned_text context_before : string) : string :=
  resolve_speaker cleaned_text context_before (identify_speaker context_before).

End Script.

(** ** [src/parser.py] *)

Module Parser.
Import PyStr Re.

(** *** Results, confidences, records *)

Inductive exn : Type :=
| ValueError (msg : string)
| KeyError (key : string)
| AttributeError (attr : string).

Inductive result (A : Type) : Type :=
| Ok (a : A)
| Err (e : exn).
Arguments Ok {A} a.
Arguments Err {A} e.

Definition bind {A B : Type} (r : result A) (f : A -> result B) : result B :=
  match r with
  | Ok a => f a
  | Err e => Err e
  end.

Notation "'try' x <- r 'in' k" := (bind r (fun x => k))
  (at level 10, x name, r at level 100, k at level 200).

(** [a < b] and [max(a, b)] on confidences *)
Definition qltb (a b : Q) : bool := (Qnum a * QDen b <? Qnum b * QDen a)%Z.
Definition qmax (a b : Q) : Q := if qltb a b then b else a.

Record Book : Type := mkBook {
  number : string;
  content : string;
  title : string
}.

Record Quote : Type := mkQuote {
  speaker : string;
  text : string;
  book : string;
  context_before : string;
  context_after : string;
  pattern_matched : string;
  confidence : Q
}.

(** One record of [characters.json]; the key ["variations"] may be absent. *)
Record CharData : Type := mkChar {
  name : string;
  variations : option (list string)
}.

(** Truth value of an [Optional[str]]: [None] and [""] are false. *)
Definition truthy (o : option string) : bool :=
  match o with
  | Some s => negb (String.eqb s "")
  | None => false
  end.

(** *** The character registry *)

(** [process_character_data]: the set [self.characters] holds the names and
    every variation; [self.character_variations] maps a name to its list. *)
Fixpoint process_character_data (character_data : list CharData)
    (characters : gset string) (character_variations : gmap string (list string))
    : gset string * gmap string (list string) :=
  match character_data with
  | [] => (characters, character_variations)
  | char_data :: rest =>
      let vs := default [] (variations char_data) in
      process_character_data rest
        (characters ∪ {[ name char_data ]} ∪ list_to_set vs)
        (<[ name char_data := vs ]> character_variations)
  end.

Record Registry : Type := mkRegistry {
  character_data : list CharData;
  characters : gset string;
  character_variations : gmap string (list string)
}.

(** The registry part of [HerodotusParser.__init__] *)
Definition load_registry (cd : list CharData) : Registry :=
  let '(cs, cv) := process_character_data cd ∅ ∅ in
  mkRegistry cd cs cv.

(** [self.speech_indicators] of [HerodotusParser] *)
Definition speech_indicators : list string :=
  [ "said"; "spoke"; "replied"; "answered"; "declared";
    "made answer"; "addressed"; "responded"; "called out";
    "cried"; "exclaimed"; "proclaimed"; "told"; "asked";
    "commanded"; "ordered"; "shouted"; "stated" ].

(** *** The pattern catalog *)

(** [(?:said|spoke|...)] *)
Definition speech_pattern : regex := Alts speech_indicators.

(** [[A-Z][a-z]+(?:\s+[A-Z][a-z]+)*] *)
Definition NAME : regex :=
  Seqs [Upper; Plus true Lower;
        Star true (Seqs [Plus true Space; Upper; Plus true Lower])].

(** The double quote character, code 34 *)
Definition dq : ascii := "034"%char.

(** A quoted span, the pattern [dq([^dq]+)dq] with its group numbered [n] *)
Definition QUOTED (n : nat) : regex :=
  Seqs [Ch dq; Grp n (Plus true (NotCh dq)); Ch dq].

(** The lazy gap [[^dq]*?] *)
Definition GAP : regex := Star false (NotCh dq).

(** [[:\.,]?] *)
Definition PUNCT : regex := Opt (OneOf ":.,").

Definition WS0 : regex := Star true Space.
Definition WS1 : regex := Plus true Space.

Definition base_patterns : list (regex * string) :=
  [ (Seqs [QUOTED 1; WS0; Opt (Ch ","); WS0; speech_pattern; WS1;
           Alts ["he"; "she"]; Star false Any; QUOTED 2],
     "split_quote");
    (Seqs [Grp 1 NAME; PUNCT; WS0; QUOTED 2],
     "basic_quote");
    (Seqs [QUOTED 1; WS0; speech_pattern; WS1; Grp 2 NAME],
     "quote_first");
    (Seqs [Alts ["Then"; "Thus"]; WS1; Grp 1 NAME; WS0; PUNCT; WS0; QUOTED 2],
     "then_thus") ].

(** [get_delayed_attribution_patterns]: pattern, name, base confidence. *)
Definition get_delayed_attribution_patterns : list (regex * string * Q) :=
  [ (Seqs [Grp 1 NAME; GAP; Alts ["turning"; "looking"; "seeing"]; GAP;
           speech_pattern; GAP; QUOTED 2],
     "delayed_attribution_action", 0.85);
    (Seqs [Grp 1 NAME; GAP; Alts ["silent"; "angry"; "pleased"]; GAP;
           speech_pattern; GAP; QUOTED 2],
     "delayed_attribution_state", 0.82);
    (Seqs [Grp 1 NAME; GAP; Alts ["when"; "after"; "while"]; GAP;
           speech_pattern; GAP; QUOTED 2],
     "delayed_attribution_temporal", 0.80);
    (Seqs [Grp 1 NAME; GAP; Alts ["message"; "word"]; GAP; QUOTED 2],
     "delayed_indirect_speech", 0.78);
    (Seqs [Alt (Lit "they") (Seqs [Lit "the"; WS1; Upper; Plus true Lower]);
           GAP; Lit "to"; WS1; Grp 1 NAME; GAP; QUOTED 2],
     "group_dialogue", 0.75);
    (Seqs [Grp 1 NAME; GAP; speech_pattern; GAP; QUOTED 2],
     "delayed_attribution_basic", 0.75);
    (Seqs [Grp 1 NAME; GAP; Alts ["conversation"; "discussion"]; GAP; QUOTED 2],
     "conversation_marker", 0.8);
    (Seqs [Grp 1 NAME; GAP; Alts ["answer"; "response"]; GAP; QUOTED 2],
     "response_pattern", 0.85) ]%Q.

(** [self.quote_patterns] *)
Definition quote_patterns : list (regex * string) :=
  base_patterns ++ map (fun t => (t.1.1, t.1.2)) get_delayed_attribution_patterns.

(** The base confidences of the delayed tiers, in catalog order *)
Definition delayed_weights : list Q := map snd get_delayed_attribution_patterns.

(** [{name: conf for _, name, conf in ...}.get(pattern_name, 0.75)]: the
    last entry of a name is the one the dict keeps. *)
Fixpoint delayed_get (pattern_name : string) (l : list (regex * string * Q))
    (dflt : Q) : Q :=
  match l with
  | [] => dflt
  | (_, n, c) :: l' =>
      delayed_get pattern_name l' (if String.eqb n pattern_name then c else dflt)
  end.

(** *** [DialogueContext] *)

Module DialogueContext.

Definition window_size : nat := 500.

Definition speech_indicators : list string :=
  [ "said"; "spoke"; "replied"; "answered"; "declared";
    "made answer"; "addressed"; "responded"; "called out";
    "cried"; "exclaimed"; "proclaimed"; "told"; "asked";
    "commanded"; "ordered"; "shouted"; "stated";
    "message"; "word"; "answered"; "continued"; "began";
    "whispered"; "remarked"; "announced" ].

(** [(p1, c1) < (p2, c2)] on tuples of a position and a name *)
Definition cand_ltb (a b : nat * string) : bool :=
  (a.1 <? b.1)%nat || ((a.1 =? b.1)%nat && PyStr.ltb a.2 b.2).

(** [sorted(candidates, reverse=True)[0]], the greatest candidate *)
Fixpoint greatest (best : nat * string) (l : list (nat * string)) : nat * string :=
  match l with
  | [] => best
  | c :: l' => greatest (if cand_ltb best c then c else best) l'
  end.

(** [find_speaker_in_context]: the loop runs over the names by decreasing
    length; the candidates it collects are the same in any order, and only
    their greatest element is returned. *)
Definition find_speaker_in_context (txt : string) (characters : gset string)
    (position : nat) : option string :=
  let start := position - window_size in
  let context := slice start position txt in
  let candidates :=
    omap (fun char =>
            if contains char context then
              match rfind char context with
              | Some char_pos =>
                  let after_char := lower (str_drop char_pos context) in
                  if contains_any speech_indicators after_char
                  then Some (char_pos, char) else None
              | None => None
              end
            else None)
         (elements characters) in
  match candidates with
  | [] => None
  | c :: l => Some (greatest c l).2
  end.

(** [get_context] *)
Definition get_context (txt : string) (start stop : nat) : string * string :=
  let context_start := start - window_size in
  let context_end := Nat.min (String.length txt) (stop + window_size) in
  (strip (slice context_start start txt), strip (slice stop context_end txt)).

End DialogueContext.

(** *** Cleaning and validation *)

(** [clean_quote] *)
Definition clean_quote (quote : string) : string :=
  let quote := re_sub (Seqs [Ch "["; Plus true Digit; Ch "]"]) "" quote in
  let quote := re_sub (Seqs [Ch "("; Star true (NotCh ")"); Ch ")"]) "" quote in
  let quote := re_sub (Plus true Space) " " quote in
  strip_chars (String dq "' []") quote.

(** [len(quote.split())] *)
Definition word_count (s : string) : nat := length (split s).

(** [^\d+\.|\[|\(] under [re.match] *)
Definition editorial_re : regex :=
  Alt (Seqs [Bol; Plus true Digit; Ch "."]) (Alt (Ch "[") (Ch "(")).

Definition editorial_markers : list string :=
  ["NOTE:"; "BOOK"; "CHAPTER"; "MS"; "MSS"].

Definition positive_indicators : list string :=
  ["thus"; "spoke"; "said"; "replied"; "answered";
   "declared"; "commanded"; "asked"].

(** [is_valid_quote].  The quotient [len(complete_sentences) / len(sentences)]
    exceeds 0.5 exactly when twice the numerator exceeds the denominator. *)
Definition is_valid_quote (quote : string) : bool :=
  if (word_count quote <? 4)%nat then false
  else if isupper quote || negb (count_c "[" quote =? count_c "]" quote)%nat then false
  else if bool_decide (is_Some (re_match editorial_re quote)) then false
  else if contains_any editorial_markers (upper quote) then false
  else if contains_any positive_indicators (lower quote) then true
  else
    let sentences := re_split (Plus true (OneOf ".!?")) quote in
    let complete_sentences :=
      List.filter (fun s => (3 <=? word_count s)%nat) sentences in
    if (length sentences <? 2 * length complete_sentences)%nat then true
    else (4 <=? word_count quote)%nat.

(** *** Speaker resolution *)

Section Resolver.

(** [fuzz.ratio] of the library thefuzz, a score on the scale 0..100; the
    first argument is the raw token, which may be [None]. *)
Variable fuzz_ratio : option string -> string -> Z.

Variable reg : Registry.

(** The loop over [self.characters] that keeps the best score above 85. *)
Fixpoint best_fuzzy (speaker : option string) (names : list string)
    (best_match : option string) (best_score : Z) : option string :=
  match names with
  | [] => best_match
  | char_name :: names' =>
      let score := fuzz_ratio speaker char_name in
      if ((85 <? score) && (best_score <? score))%Z
      then best_fuzzy speaker names' (Some char_name) score
      else best_fuzzy speaker names' best_match best_score
  end.

(** [speaker in l] for a token that may be [None] *)
Definition token_in (speaker : option string) (l : list string) : bool :=
  match speaker with
  | Some s => bool_decide (s ∈ l)
  | None => false
  end.

(** [speaker in self.characters] *)
Definition in_characters (speaker : option string) : bool :=
  match speaker with
  | Some s => bool_decide (s ∈ characters reg)
  | None => false
  end.

(** The loop over [self.character_data]; [char_data["variations"]] raises
    [KeyError] on a record without the key.  [Ok None] is the loop running
    to its end. *)
Fixpoint by_variation (speaker : option string) (context : string)
    (cd : list CharData) : result (option string) :=
  match cd with
  | [] => Ok None
  | char_data :: cd' =>
      match variations char_data with
      | None => Err (KeyError "variations")
      | Some vs =>
          if token_in speaker vs && contains_any speech_indicators (lower context)
          then Ok (Some (name char_data))
          else by_variation speaker context cd'
      end
  end.

(** The loop over [enumerate(words)]; [i] is the index of the head of
    [rest] in [words]. *)
Fixpoint by_context (words : list string) (i : nat) (rest : list string)
    : option string :=
  match rest with
  | [] => None
  | word :: rest' =>
      if bool_decide (word ∈ characters reg) then
        let lo := i - 10 in
        let hi := Nat.min (length words) (i + 10) in
        let nearby_words := join " " (take (hi - lo) (drop lo words)) in
        if contains_any speech_indicators (lower nearby_words)
        then Some word
        else by_context words (S i) rest'
      else by_context words (S i) rest'
  end.

(** [resolve_speaker] *)
Definition resolve_speaker (speaker : option string) (context : string)
    : result (option string) :=
  if in_characters speaker then Ok speaker
  else
    let best_match := best_fuzzy speaker (elements (characters reg)) None 0 in
    if truthy best_match then Ok best_match
    else
      try v <- by_variation speaker context (character_data reg) in
      match v with
      | Some n => Ok (Some n)
      | None => Ok (by_context (split context) 0 (split context))
      end.

End Resolver.

(** *** Confidence *)

(** The pattern-based confidence of [extract_quotes] *)
Definition base_confidence (pattern_name : string) : Q :=
  if startswith "delayed_attribution" pattern_name
  then delayed_get pattern_name get_delayed_attribution_patterns 0.75
  else if String.eqb pattern_name "basic_quote" then 1.0
  else if String.eqb pattern_name "split_quote" then 0.95
  else if String.eqb pattern_name "quote_first" then 0.80
  else 1.0.

(** [speaker != resolved_speaker] for a raw token that may be [None] *)
Definition token_differs (speaker : option string) (resolved_speaker : string) : bool :=
  match speaker with
  | Some s => negb (String.eqb s resolved_speaker)
  | None => true
  end.

(** The speaker resolution penalties *)
Definition resolution_penalty (reg : Registry) (speaker : option string)
    (resolved_speaker : string) (confidence : Q) : Q :=
  if token_differs speaker resolved_speaker then
    if token_in speaker (default [] (character_variations reg !! resolved_speaker))
    then confidence * 0.95
    else confidence * 0.85
  else confidence.

(** The context-based adjustment *)
Definition context_boost (context_before : string) (confidence : Q) : Q :=
  if contains_any ["answered"; "replied"; "made answer"] (lower context_before)
  then confidence * 1.1
  else confidence.

(** *** [QuoteDeduplicator] *)

(** [is_duplicate]: the answer and the dict [self.seen_quotes] afterwards *)
Definition is_duplicate (seen_quotes : gmap string Quote) (quote : Quote)
    : bool * gmap string Quote :=
  let quote_text := strip (text quote) in
  match seen_quotes !! quote_text with
  | Some existing_quote =>
      if String.eqb (speaker existing_quote) (speaker quote)
         && String.eqb (book existing_quote) (book quote)
      then (true, seen_quotes)
      else if String.eqb (book existing_quote) (book quote) then
        if qltb (confidence quote) (confidence existing_quote)
        then (true, seen_quotes)
        else (false, <[ quote_text := quote ]> seen_quotes)
      else (false, seen_quotes)
  | None => (false, <[ quote_text := quote ]> seen_quotes)
  end.

(** *** Extraction *)

(** The mutable part of a [HerodotusParser]: [self.books], [self.quotes]
    and the dict of [self.quote_deduplicator].  The statistics and the debug
    records, which nothing reads back, are left out. *)
Record State : Type := mkState {
  books : gmap string Book;
  quotes : list Quote;
  dedup : gmap string Quote
}.

Definition init_state : State := mkState ∅ [] ∅.

(** What the loops of one call of [extract_quotes] carry: the local set
    [seen_quotes], the deduplicator's dict and [self.quotes]. *)
Record Loop : Type := mkLoop {
  seen : gset (string * string);
  l_dedup : gmap string Quote;
  l_quotes : list Quote
}.

Section Extraction.

Variable fuzz_ratio : option string -> string -> Z.
Variable reg : Registry.

(** The raw speaker token and the raw quotation of a match *)
Definition raw_fields (txt pattern_name : string) (m : mobj)
    : option string * string :=
  if String.eqb pattern_name "split_quote" then
    (DialogueContext.find_speaker_in_context txt (characters reg) (m_start m),
     group txt m 1 +:+ " " +:+ group txt m 2)
  else if String.eqb pattern_name "quote_first" then
    (Some (group txt m 2), group txt m 1)
  else
    (Some (group txt m 1), group txt m 2).

(** The [Store quote] step: ask the deduplicator, then record and emit. *)
Definition store_quote (q : Quote) (st : Loop) : Loop :=
  let '(dup, dd) := is_duplicate (l_dedup st) q in
  if dup then mkLoop (seen st) dd (l_quotes st)
  else mkLoop (seen st ∪ {[ (speaker q, text q) ]}) dd (l_quotes st ++ [q]).

(** The body of the loop over the matches of one pattern.  An exception
    raised in the body is caught there and the match is skipped. *)
Definition process_match (book_number txt pattern_name : string) (m : mobj)
    (st : Loop) : Loop :=
  let '(speaker, quote) := raw_fields txt pattern_name m in
  let quote := clean_quote quote in
  if negb (is_valid_quote quote) then st
  else
    let '(context_before, context_after) :=
      DialogueContext.get_context txt (m_start m) (m_end m) in
    match resolve_speaker fuzz_ratio reg speaker context_before with
    | Err _ => st
    | Ok None => st
    | Ok (Some resolved_speaker) =>
        if String.eqb resolved_speaker "" then st
        else if bool_decide ((resolved_speaker, quote) ∈ seen st) then st
        else
          let confidence := base_confidence pattern_name in
          let confidence := resolution_penalty reg speaker resolved_speaker confidence in
          let confidence := context_boost context_before confidence in
          store_quote
            (mkQuote resolved_speaker quote book_number context_before
                     context_after pattern_name confidence)
            st
    end.

(** [extract_quotes] *)
Definition extract_quotes (b : Book) (st : State) : result State :=
  if String.eqb (content b) "" then Err (ValueError "Empty content")
  else
    let run_pattern (st : Loop) (p : regex * string) : Loop :=
      fold_left (fun st m => process_match (number b) (content b) p.2 m st)
                (finditer p.1 (content b)) st in
    let st' := fold_left run_pattern quote_patterns
                 (mkLoop ∅ (dedup st) (quotes st)) in
    Ok (mkState (books st) (l_quotes st') (l_dedup st')).

Definition roman_numerals : list string :=
  ["I"; "II"; "III"; "IV"; "V"; "VI"; "VII"; "VIII"; "IX"].

(** [process_books] *)
Fixpoint process_numerals (numerals : list string) (st : State) : result State :=
  match numerals with
  | [] => Ok st
  | numeral :: rest =>
      match books st !! numeral with
      | Some b =>
          try st' <- extract_quotes b st in process_numerals rest st'
      | None => process_numerals rest st
      end
  end.

Definition process_books (st : State) : result State :=
  process_numerals roman_numerals st.

End Extraction.

(** *** Book segmentation *)

(** [BOOK\s+([IVX]+)\.?\s+THE\s+([^B]+)BOOK\s+OF\s+THE\s+HISTORIES] under
    [re.IGNORECASE] *)
Definition book_pattern : regex :=
  Seqs [LitI "BOOK"; WS1; Grp 1 (Plus true (OneOfI "IVX")); Opt (Ch ".");
        WS1; LitI "THE"; WS1; Grp 2 (Plus true (NotChI "B"));
        LitI "BOOK"; WS1; LitI "OF"; WS1; LitI "THE"; WS1; LitI "HISTORIES"].

(** [book_positions.sort(key=lambda x: x[2])], a stable sort *)
Fixpoint insert_position (x : string * string * nat)
    (l : list (string * string * nat)) : list (string * string * nat) :=
  match l with
  | [] => [x]
  | y :: l' =>
      if (x.2 <? y.2)%nat then x :: y :: l' else y :: insert_position x l'
  end.

Definition sort_positions (l : list (string * string * nat))
    : list (string * string * nat) :=
  fold_left (fun acc x => insert_position x acc) l [].

(** The loop that cuts the text at the sorted positions *)
Fixpoint cut_books (txt : string) (book_positions : list (string * string * nat))
    (bs : gmap string Book) : gmap string Book :=
  match book_positions with
  | [] => bs
  | (book_num, book_title, start_pos) :: rest =>
      let end_pos :=
        match rest with
        | (_, _, next_pos) :: _ => next_pos
        | [] => String.length txt
        end in
      cut_books txt rest
        (<[ book_num := mkBook book_num (strip (slice start_pos end_pos txt)) book_title ]> bs)
  end.

(** [split_into_books]; its [except] clause re-raises, and nothing in the
    body raises on a string. *)
Definition split_into_books (txt : string) (st : State) : result State :=
  let book_positions :=
    map (fun m => (group txt m 1, strip (group txt m 2), m_start m))
        (finditer book_pattern txt) in
  let book_positions := sort_positions book_positions in
  Ok (mkState (cut_books txt book_positions (books st)) (quotes st) (dedup st)).

(** [main] from the cleaned text on: segmentation, then extraction. *)
Definition run (fuzz_ratio : option string -> string -> Z) (cd : list CharData)
    (combined_text : string) : result State :=
  try st <- split_into_books combined_text init_state in
  process_books fuzz_ratio (load_registry cd) st.

(** *** Fragments of one speech *)

Definition nl : ascii := "010"%char.

Definition continuation_markers : list string :=
  ["Thus having said"; "Having so said"; "After this"; "Then"; "; and"].

(** [_is_split_quote]: the [return False] stands in the body of the loop,
    so the loop ends in its first iteration; [None] is the implicit return
    of a loop that never runs. *)
Definition _is_split_quote (quote : Quote) : option bool :=
  match continuation_markers with
  | [] => None
  | marker :: _ =>
      if contains marker (List.last (split_on "." (context_before quote)) "")
         || contains marker (List.hd "" (split_on "." (context_after quote)))
      then Some true
      else Some false
  end.

(** A dict in insertion order: assignment to a present key keeps its place. *)
Fixpoint dict_set {V : Type} (k : string) (v : V) (d : list (string * V))
    : list (string * V) :=
  match d with
  | [] => [(k, v)]
  | (k', v') :: d' =>
      if String.eqb k' k then (k, v) :: d' else (k', v') :: dict_set k v d'
  end.

Fixpoint dict_get {V : Type} (k : string) (d : list (string * V)) : option V :=
  match d with
  | [] => None
  | (k', v') :: d' => if String.eqb k' k then Some v' else dict_get k d'
  end.

(** [abs(len(a) - len(b)) < 1000] *)
Definition close_lengths (a b : string) : bool :=
  (Z.abs (Z.of_nat (String.length a) - Z.of_nat (String.length b)) <? 1000)%Z.

(** [_merge_split_quotes].  It reads [self.seen_quotes] of the parser, an
    attribute that [__init__] never assigns: [None] is the absent attribute.
    Its [return False] also stands in the loop body, so only the first value
    of the dict is tried; [Ok (None, _)] is the implicit return on an empty
    dict. *)
Definition _merge_split_quotes (seen_quotes : option (list (string * Quote)))
    (quote : Quote) : result (option bool * list (string * Quote)) :=
  match seen_quotes with
  | None => Err (AttributeError "seen_quotes")
  | Some d =>
      match map snd d with
      | [] => Ok (None, d)
      | existing_quote :: _ =>
          if String.eqb (speaker existing_quote) (speaker quote)
             && String.eqb (book existing_quote) (book quote)
             && close_lengths (context_before existing_quote) (context_before quote)
          then
            let merged_text :=
              text existing_quote +:+ String nl (String nl "") +:+ text quote in
            let merged_confidence :=
              qmax (confidence existing_quote) (confidence quote) in
            let merged_quote :=
              mkQuote (speaker quote) merged_text (book quote)
                (smin (context_before existing_quote) (context_before quote))
                (smax (context_after existing_quote) (context_after quote))
                (pattern_matched quote) merged_confidence in
            Ok (Some true, dict_set merged_text merged_quote d)
          else Ok (Some false, d)
      end
  end.

End Parser.

(** ** Scenarios used by the examples and witnesses *)

Module Scenario.
Import PyStr Re Parser.

(** A span of text between double quotes *)
Definition quoted (s : string) : string := String dq (s +:+ String dq "").

(** A scorer standing for [fuzz.ratio] in the examples: the normalised
    Indel similarity on the scale 0..100, from the longest common
    subsequence, and 0 on [None]. *)
Fixpoint lcs (a b : string) : nat :=
  match a with
  | EmptyString => 0
  | String c a' =>
      (fix inner (b : string) : nat :=
         match b with
         | EmptyString => 0
         | String d b' =>
             if Ascii.eqb c d then S (lcs a' b')
             else Nat.max (lcs a' b) (inner b')
         end) b
  end.

Definition indel_ratio (s1 : option string) (s2 : string) : Z :=
  match s1 with
  | None => 0
  | Some s1 =>
      let total := Z.of_nat (String.length s1 + String.length s2) in
      if (total =? 0)%Z then 100
      else ((400 * Z.of_nat (lcs s1 s2) + total) / (2 * total))%Z
  end.

(** A registry of two characters, one of them with a variation *)
Definition two_characters : list CharData :=
  [ mkChar "Croesus" (Some ["Kroisos"]); mkChar "Cyrus" (Some []) ].

Definition header_I : string := "BOOK I. THE FIRST BOOK OF THE HISTORIES ".
Definition header_II : string := "BOOK II. THE SECOND BOOK OF THE HISTORIES ".

(** One book whose quotation begins with a lowercase word *)
Definition lowercase_text : string :=
  header_I +:+ "Croesus: " +:+ quoted "thus he spoke loudly" +:+ " and went.".

(** One book in which the quote-first pattern (0.80) and the then-thus
    pattern (1.0) find the same quotation with two speakers *)
Definition conflict_text : string :=
  header_I +:+ "Then Cyrus : " +:+ quoted "I will give thee thy fill of blood"
  +:+ " said Croesus".

(** Two books with the same quotation by the same speaker *)
Definition proverb_text : string :=
  header_I +:+ "Croesus: " +:+ quoted "No man is happy before his end"
  +:+ " " +:+ header_II +:+ "Croesus: " +:+ quoted "No man is happy before his end".

Definition no_header_text : string := "Croesus was king of the Lydians.".


Definition emitted (r : result State) : option (list Quote) :=
  match r with
  | Ok st => Some (quotes st)
  | Err _ => None
  end.

(** The parser after the run on the two books *)
Definition proverb_state : State :=
  match run indel_ratio two_characters proverb_text with
  | Ok st => st
  | Err _ => init_state
  end.

Definition fragment (sp tx bk cb : string) (c : Q) : Quote :=
  mkQuote sp tx bk cb "" "basic_quote" c.

End Scenario.

(** ** The statements of the specification *)

Module Claim.
Import PyStr Re Parser.

(** The names of the delayed tiers, in catalog order *)
Definition tier_names : list string :=
  map (fun t => t.1.2) get_delayed_attribution_patterns.

(** Weights that never rise along the sequence *)
Definition decreasing (ws : list Q) : Prop :=
  StronglySorted (fun a b => (b <= a)%Q) ws.

(** What validation leaves of a text: at least four words and as many
    opening as closing square brackets. *)
Definition sound_text (s : string) : Prop :=
  (4 <= word_count s)%nat /\ count_c "[" s = count_c "]" s.


(** The identity of an emitted quote within a run *)
Definition quote_key (q : Quote) : string * string * string :=
  (speaker q, text q, book q).

(** The deduplicator's dict against the emitted quotes: every stored quote
    was emitted, and the text of every emitted quote has an entry. *)
Definition stored (dd : gmap string Quote) (qs : list Quote) : Prop :=
  (forall key e, dd !! key = Some e -> e ∈ qs)
  /\ (forall q, q ∈ qs -> is_Some (dd !! strip (text q))).

(** The loops of [extract_quotes] on the book numbered [n], after the books
    numbered in [done]: the emitted quotes are pairwise distinct and passed
    validation, those of book [n] are in the local set, and every quote is of
    book [n] or of a book of [done]. *)
Definition loop_inv (n : string) (done : list string) (st : Loop) : Prop :=
  NoDup (quote_key <$> l_quotes st)
  /\ Forall (fun q => is_valid_quote (text q) = true) (l_quotes st)
  /\ (forall q, q ∈ l_quotes st -> book q = n -> (speaker q, text q) ∈ seen st)
  /\ (forall q, q ∈ l_quotes st -> book q = n \/ book q ∈ done)
  /\ stored (l_dedup st) (l_quotes st).

(** Between two books: the same, for the books of [done]. *)
Definition state_inv (done : list string) (st : State) : Prop :=
  NoDup (quote_key <$> quotes st)
  /\ Forall (fun q => is_valid_quote (text q) = true) (quotes st)
  /\ (forall q, q ∈ quotes st -> book q ∈ done)
  /\ stored (dedup st) (quotes st).

(** Every book is stored under its own number. *)
Definition books_keyed (bs : gmap string Book) : Prop :=
  forall k b, bs !! k = Some b -> number b = k.

(** **** The shapes of the addressee check *)

(** Every character of [s] is in the class [p]. *)
Fixpoint sforall (p : ascii -> bool) (s : string) : bool :=
  match s with
  | EmptyString => true
  | String c s' => p c && sforall p s'
  end.

(** [s] begins with a character of the class [p]. *)
Definition starts_with_c (p : ascii -> bool) (s : string) : bool :=
  match s with
  | EmptyString => false
  | String c _ => p c
  end.

(** The longest prefix of [s] in the class [p], and what follows it *)
Fixpoint span (p : ascii -> bool) (s : string) : string * string :=
  match s with
  | EmptyString => (EmptyString, EmptyString)
  | String c s' =>
      if p c then (String c (span p s').1, (span p s').2)
      else (EmptyString, s)
  end.







(** The continuation of [match_at] *)
Definition k0 : @cont (nat * string * caps) := fun e s' cs => Some (e, s', cs).


End Claim.

(** ** More Python primitives *)

Module PyMore.
Import PyStr.

(** [c in chars] *)
Definition in_chars (chars : string) (c : ascii) : bool := sexists (Ascii.eqb c) chars.

(** [\w] on the ASCII range *)
Definition is_word_c (c : ascii) : bool :=
  is_upper_c c || is_lower_c c || is_digit_c c || Ascii.eqb c "_".

(** [s.find(sub)], [None] for -1 *)
Fixpoint find (sub s : string) : option nat :=
  match s with
  | EmptyString => if String.prefix sub s then Some 0 else None
  | String _ s' =>
      if String.prefix sub s then Some 0
      else match find sub s' with
           | Some i => Some (S i)
           | None => None
           end
  end.

(** [s.replace(old, new)] for a non-empty [old]: the occurrences are
    replaced from left to right, without overlap.  [skip] counts the
    characters of an occurrence that are still to be passed over. *)
Fixpoint replace_go (old new : string) (skip : nat) (s : string) : string :=
  match s with
  | EmptyString => EmptyString
  | String c s' =>
      match skip with
      | S k => replace_go old new k s'
      | O =>
          if String.prefix old s
          then new +:+ replace_go old new (String.length old - 1) s'
          else String c (replace_go old new 0 s')
      end
  end.

Definition replace (old new s : string) : string := replace_go old new 0 s.

(** [str(n)] and [f"{n:02d}"] *)
Definition str_of_nat (n : nat) : string := NilEmpty.string_of_uint (Nat.to_uint n).

Definition format_02d (n : nat) : string :=
  if (n <? 10)%nat then "0" +:+ str_of_nat n else str_of_nat n.

(** [sum(1 for c in s if p(c))] *)
Fixpoint count_if (p : ascii -> bool) (s : string) : nat :=
  match s with
  | EmptyString => 0
  | String c s' => (if p c then 1 else 0) + count_if p s'
  end.

(** The exceptions of the code below *)
Inductive error : Type :=
| IndexError
| ZeroDivisionError.

Inductive outcome (A : Type) : Type :=
| Returns (a : A)
| Raises (e : error).
Arguments Returns {A} a.
Arguments Raises {A} e.

End PyMore.

(** ** [src/parser.py]: cleaning the volumes, quality metrics, [main] *)

Module ParserMore.
Import PyStr Re Parser PyMore.

Definition start_marker : string := "*** START OF THE PROJECT GUTENBERG EBOOK".
Definition end_marker : string := "*** END OF THE PROJECT GUTENBERG EBOOK".

(** [\[\s*\d+\s*\][^\n]*\n] *)
Definition footnote_re : regex :=
  Seqs [Ch "["; Star true Space; Plus true Digit; Star true Space; Ch "]";
        Star true (NotCh nl); Ch nl].

(** [\{[^}]*\}] *)
Definition greek_re : regex := Seqs [Ch "{"; Star true (NotCh "}"); Ch "}"].

(** The cleaning of one volume between its markers *)
Definition clean_volume (text : string) : string :=
  let text := re_sub footnote_re "" text in
  let text := re_sub greek_re "" text in
  let text := re_sub (Plus true Space) " " text in
  strip text.

(** The loop of [clean_texts] over [enumerate(self.raw_texts, 1)]; the
    [except] clause logs and re-raises. *)
Fixpoint clean_loop (i : nat) (combined_text : string) (raw_texts : list string)
    : result string :=
  match raw_texts with
  | [] => Ok combined_text
  | text :: rest =>
      match find start_marker text, find end_marker text with
      | Some start_idx, Some end_idx =>
          let text := slice start_idx end_idx text in
          clean_loop (S i)
            (combined_text +:+ clean_volume text +:+ String nl (String nl "")) rest
      | _, _ =>
          Err (ValueError ("Could not find markers in volume " +:+ str_of_nat i))
      end
  end.

(** [clean_texts], on [self.raw_texts] *)
Definition clean_texts (raw_texts : list string) : result string :=
  match raw_texts with
  | [] => Err (ValueError "No texts to clean. Did you run fetch_texts()?")
  | _ => clean_loop 1 "" raw_texts
  end.

(** [main] after [fetch_texts] and before [save_data]: [raw_texts] is what
    was fetched.  An [Err] is the exit with status 1. *)
Definition main (fuzz_ratio : option string -> string -> Z) (cd : list CharData)
    (raw_texts : list string) : result State :=
  try combined_text <- clean_texts raw_texts in
  run fuzz_ratio cd combined_text.

(** *** [assess_quote_quality] *)

Record QuoteQualityMetrics : Type := mkMetrics {
  grammatical_completeness : Q;
  context_relevance : Q;
  attribution_confidence : Q;
  text_cleanliness : Q
}.

(** [a / b] for two lengths, [b] positive *)
Definition ratio (a b : nat) : Q := Z.of_nat a # Pos.of_nat b.

(** [min(a, b)]: the first argument unless the second is smaller. *)
Definition qmin (a b : Q) : Q := if qltb b a then b else a.

(** [assess_quote_quality]; a division by a zero length raises
    [ZeroDivisionError]. *)
Definition assess_quote_quality (quote : Quote) : outcome QuoteQualityMetrics :=
  let sentences := re_split (Plus true (OneOf ".!?")) (text quote) in
  let complete_sentences :=
    List.filter (fun s => (3 <? word_count s)%nat) sentences in
  let grammatical_score :=
    match sentences with
    | [] => 0.0%Q
    | _ => ratio (length complete_sentences) (length sentences)
    end in
  let context_words : gset string :=
    list_to_set (split (context_before quote) ++ split (context_after quote)) in
  let quote_words : gset string := list_to_set (split (text quote)) in
  if (size quote_words =? 0)%nat then Raises ZeroDivisionError
  else
    let context_overlap :=
      ratio (size (quote_words ∩ context_words)) (size quote_words) in
    let attribution_score :=
      if contains_any speech_indicators (lower (context_before quote))
      then (confidence quote * 1.1)%Q
      else confidence quote in
    let editorial_marks := count_if (in_chars "[](){}") (text quote) in
    if (String.length (text quote) =? 0)%nat then Raises ZeroDivisionError
    else
      let cleanliness_score :=
        (1.0 - ratio editorial_marks (String.length (text quote)))%Q in
      Returns (mkMetrics (qmin 1.0%Q grammatical_score)
                         (qmin 1.0%Q context_overlap)
                         (qmin 1.0%Q attribution_score)
                         (qmin 1.0%Q cleanliness_score)).

End ParserMore.

(** ** [scripts/extract_all_quotes.py]: cleaning, tags and the extraction *)

Module Extractor.
Import PyStr Re PyMore Script.

(** [clean_text] *)
Definition clean_text (text : string) : string :=
  let text := re_sub (Seqs [Ch "["; Star false (NotCh Parser.nl); Ch "]"]) "" text in
  let text := re_sub (Plus true Digit) "" text in
  let text := re_sub (Seqs [Ch "("; Chr is_word_c; Ch ")"]) "" text in
  strip (re_sub (Plus true Space) " " text).

(** The dict [keywords] of [get_tags], in its order *)
Definition keywords : list (string * list string) :=
  [ ("war", ["war"; "battle"; "army"; "fight"; "spear"; "shield"; "conquer"; "destroy"]);
    ("fate", ["fate"; "destiny"; "god"; "oracle"; "dream"; "prophecy"; "doom"; "fortune"]);
    ("wisdom", ["wisdom"; "wise"; "counsel"; "advice"; "learn"; "know"; "truth"]);
    ("hubris", ["pride"; "boast"; "greatness"; "wealth"; "power"; "king"; "master"]);
    ("justice", ["justice"; "right"; "wrong"; "law"; "punish"; "avenge"; "penalty"]);
    ("death", ["death"; "die"; "slay"; "kill"; "bury"; "tomb"; "perish"]) ].

(** The list [tags] of [get_tags] before it is made a set *)
Definition matched_tags (text : string) : list string :=
  let text_lower := lower text in
  let tags :=
    map fst (List.filter (fun kw => contains_any kw.2 text_lower) keywords) in
  match tags with
  | [] => ["history"]
  | _ => tags
  end.

(** [get_tags]: [list(set(tags))], in the iteration order of the set *)
Definition get_tags (text : string) : list string :=
  elements (list_to_set (matched_tags text) : gset string).

(** One record of the output *)
Record Entry : Type := mkEntry {
  e_id : string;
  e_text : string;
  e_speaker : string;
  e_book : string;
  e_context_before : string;
  e_context_after : string;
  e_tags : list string
}.

(** [(BOOK [IVX]+)] *)
Definition header_re : regex := Grp 1 (Seq (Lit "BOOK ") (Plus true (OneOf "IVX"))).

(** [re.split(r, text)] for a pattern with one group: the text of the group
    stands between the pieces. *)
Fixpoint pieces_with_group (text : string) (prev : nat) (ms : list mobj)
    : list string :=
  match ms with
  | [] => [str_drop prev text]
  | m :: ms' =>
      slice prev (m_start m) text :: group text m 1
      :: pieces_with_group text (m_end m) ms'
  end.

Definition re_split_group (r : regex) (text : string) : list string :=
  pieces_with_group text 0 (finditer r text).

(** The body of the loop over the quotations of one block *)
Definition process_quote (book_num text_block : string) (quotes : list Entry)
    (m : mobj) : list Entry :=
  let quote_text := group text_block m 1 in
  let start := m_start m in
  let stop := m_end m in
  let context_before := strip (slice (start - 300) start text_block) in
  let context_after :=
    strip (slice stop (Nat.min (String.length text_block) (stop + 300)) text_block) in
  let cleaned_text := clean_text quote_text in
  if (String.length cleaned_text <? 30)%nat then quotes
  else if first_islower cleaned_text then quotes
  else if contains "Editors read" cleaned_text then quotes
  else
    let speaker := attributed_speaker cleaned_text context_before in
    let speaker_slug := replace " " "_" (lower speaker) in
    let quote_id :=
      "book" +:+ lower book_num +:+ "_" +:+ speaker_slug +:+ "_"
      +:+ format_02d (length quotes) in
    quotes ++ [mkEntry quote_id cleaned_text speaker book_num
                 (last_n 200 context_before) (str_take 200 context_after)
                 (get_tags cleaned_text)].

(** One iteration of the loop over the books: [books[i]] is the header and
    [books[i+1]] the block. *)
Definition process_block (header text_block : string) (quotes : list Entry)
    : list Entry :=
  let header := strip header in
  let book_num := replace "BOOK " "" header in
  fold_left (process_quote book_num text_block)
            (finditer (Parser.QUOTED 1) text_block) quotes.

(** The loop [for i in range(start_index, len(books), 2)] from index [i] on;
    [books[i+1]] raises [IndexError] past the end of the list. *)
Fixpoint process_blocks (books : list string) (quotes : list Entry)
    : outcome (list Entry) :=
  match books with
  | [] => Returns quotes
  | header :: rest =>
      match rest with
      | [] => Raises IndexError
      | text_block :: rest' =>
          process_blocks rest' (process_block header text_block quotes)
      end
  end.

(** [extract_quotes_from_file] on the lines of an existing file *)
Definition extract_quotes_from_file (lines : list string) : outcome (list Entry) :=
  let clean_lines :=
    List.filter
      (fun line =>
         negb (contains "*** START OF" line || contains "*** END OF" line
               || contains "Project Gutenberg" line))
      lines in
  let content := join "" clean_lines in
  let books := re_split_group header_re content in
  let start_index := if (1 <? length books)%nat then 1 else 0 in
  process_blocks (drop start_index books) [].

End Extractor.

(** ** Predicates of the further properties *)

Module Shape.
Import PyStr Re Parser Claim PyMore ParserMore Extractor.

(** [s] ends with a character of the class [p]. *)
Fixpoint ends_with_c (p : ascii -> bool) (s : string) : bool :=
  match s with
  | EmptyString => false
  | String c EmptyString => p c
  | String _ s' => ends_with_c p s'
  end.

(** Neither the first nor the last character of [s] is in the class [p]. *)
Definition trimmed (p : ascii -> bool) (s : string) : Prop :=
  starts_with_c p s = false /\ ends_with_c p s = false.

(** A matcher hands to its continuation an offset that is not before its
    own, together with the rest of the subject from that offset. *)
Definition advances {R : Type} (f : @matcher R) : Prop :=
  forall pos s cs k x,
    f pos s cs k = Some x ->
    exists pos' s' cs',
      k pos' s' cs' = Some x /\ pos <= pos' /\ pos' - pos <= String.length s
      /\ s' = str_drop (pos' - pos) s.

(** What a scan of [text] from offset [pos] returns: matches of [r] inside
    the text, each at or after [pos], in increasing order and without
    overlap. *)
Definition scan_sound (r : regex) (text : string) (pos : nat) (L : list mobj) : Prop :=
  Forall (fun m =>
            pos <= m_start m /\ m_start m <= m_end m
            /\ m_end m <= String.length text
            /\ match_at r (m_start m) (str_drop (m_start m) text)
               = Some (m_end m, str_drop (m_end m) text, m_caps m)) L
  /\ StronglySorted (fun a b => m_end a <= m_start b /\ m_start a < m_start b) L.

(** At offset [i] of [txt] stands a character that is not whitespace. *)
Definition nonspace_at (txt : string) (i : nat) : Prop :=
  exists c t, str_drop i txt = String c t /\ is_space_c c = false.

(** No stored book has an empty content. *)
Definition has_content (bs : gmap string Book) : Prop :=
  forall k b, bs !! k = Some b -> content b <> "".

(** The record has the key ["variations"]. *)
Definition has_variations (ch : CharData) : bool :=
  match variations ch with Some _ => true | None => false end.

(** The quote [q] is what the loop body of [extract_quotes] builds from the
    match [m] of the pattern [p] in the book [b]. *)
Definition produced (fz : option string -> string -> Z) (reg : Registry)
    (b : Book) (p : regex * string) (m : mobj) (q : Quote) : Prop :=
  let f := raw_fields reg (content b) p.2 m in
  let c := DialogueContext.get_context (content b) (m_start m) (m_end m) in
  m ∈ finditer p.1 (content b)
  /\ is_valid_quote (clean_quote f.2) = true
  /\ Parser.resolve_speaker fz reg f.1 c.1 = Ok (Some (speaker q))
  /\ speaker q <> ""
  /\ q = mkQuote (speaker q) (clean_quote f.2) (number b) c.1 c.2 p.2
           (context_boost c.1
              (resolution_penalty reg f.1 (speaker q) (base_confidence p.2))).

(** The quote comes from a match of a catalog pattern in the content of
    the book stored under its number, one of the nine numerals. *)
Definition sourced (fz : option string -> string -> Z) (reg : Registry)
    (bs : gmap string Book) (q : Quote) : Prop :=
  exists b p m,
    bs !! book q = Some b /\ book q ∈ roman_numerals /\ p ∈ quote_patterns
    /\ produced fz reg b p m q.

(** What [re.sub] makes of the runs of the class [p], each replaced by
    [rep]; [in_run] tells that the previous character was of the class. *)
Fixpoint squeeze (p : ascii -> bool) (rep : string) (in_run : bool) (s : string)
    : string :=
  match s with
  | EmptyString => EmptyString
  | String c s' =>
      if p c then (if in_run then squeeze p rep true s' else rep +:+ squeeze p rep true s')
      else String c (squeeze p rep false s')
  end.

(** The only whitespace of [s] is the space character, and no two spaces
    are adjacent; [prev_space] tells that a space stands before [s]. *)
Fixpoint single_spaced (prev_space : bool) (s : string) : bool :=
  match s with
  | EmptyString => true
  | String c s' =>
      if is_space_c c
      then Ascii.eqb c " " && negb prev_space && single_spaced true s'
      else single_spaced false s'
  end.

(** The volume has both Gutenberg markers. *)
Definition has_markers (text : string) : bool :=
  contains start_marker text && contains end_marker text.

(** The cleaned text of a volume that has both markers *)
Definition volume_body (v : string) : string :=
  match find start_marker v, find end_marker v with
  | Some a, Some b => clean_volume (slice a b v)
  | _, _ => ""
  end.

(** What the filters of [extract_quotes_from_file] leave of a record *)
Definition entry_ok (e : Entry) : Prop :=
  30 <= String.length (e_text e)
  /\ first_islower (e_text e) = false
  /\ contains "Editors read" (e_text e) = false
  /\ sforall (fun c => negb (is_digit_c c)) (e_text e) = true
  /\ String.length (e_context_before e) <= 200
  /\ String.length (e_context_after e) <= 200
  /\ (e_speaker e = "Unknown" \/ Script.accepted (e_speaker e) = true)
  /\ e_tags e = get_tags (e_text e).

(** The identifier of the record at position [i] ends with an underscore
    and [i], written with two digits at least. *)
Definition numbered (es : list Entry) : Prop :=
  forall i e, es !! i = Some e -> exists pre, e_id e = pre +:+ "_" +:+ format_02d i.

(** The place of a numeral in the order of [process_books]; the length of
    the list for any other string. *)
Fixpoint rank (numerals : list string) (x : string) : nat :=
  match numerals with
  | [] => 0
  | y :: numerals' => if String.eqb y x then 0 else S (rank numerals' x)
  end.

(** The quotes stand in the order of their books. *)
Definition in_book_order (qs : list Quote) : Prop :=
  StronglySorted
    (fun a b => rank roman_numerals (book a) <= rank roman_numerals (book b)) qs.

End Shape.

(** ** More scenarios *)

Module Sample.
Import PyStr Re Parser PyMore Extractor.

(** The lines of a small file: a preamble, a header and two speeches *)
Definition script_lines : list string :=
  [ "The History of Herodotus" +:+ String nl "";
    "BOOK I" +:+ String nl "";
    "Then Tomyris said: "
    +:+ Scenario.quoted
          "Cyrus, insatiable of blood, be not elated with this which has come to pass"
    +:+ String nl "";
    "And Croesus answered: "
    +:+ Scenario.quoted
          "Master, since thou hast conquered, do that which seems best to thee"
    +:+ String nl "" ].

(** What the script returns for them *)
Definition script_entries : list Entry :=
  match extract_quotes_from_file script_lines with
  | Returns es => es
  | Raises _ => []
  end.

End Sample.

(** ** Properties *)

Import PyStr Re Parser Claim.

(** *** Confidences and strings *)

Lemma qltb_lt (a b : Q) : qltb a b = true <-> (a < b)%Q.
Proof. unfold qltb, Qlt. apply Z.ltb_lt. Qed.

Lemma qltb_ge (a b : Q) : qltb a b = false <-> (b <= a)%Q.
Proof. unfold qltb, Qle. apply Z.ltb_ge. Qed.

Lemma qmax_is_Qmax (a b : Q) : (qmax a b == Qmax a b)%Q.
Proof.
  unfold qmax. destruct (qltb a b) eqn:E.
  - apply qltb_lt in E. symmetry. apply Q.max_r. now apply Qlt_le_weak.
  - apply qltb_ge in E. symmetry. now apply Q.max_l.
Qed.

Lemma qmax_ge_l (a b : Q) : (a <= qmax a b)%Q.
Proof.
  unfold qmax. destruct (qltb a b) eqn:E.
  - apply qltb_lt in E. now apply Qlt_le_weak.
  - apply Qle_refl.
Qed.

Lemma qmax_ge_r (a b : Q) : (b <= qmax a b)%Q.
Proof.
  unfold qmax. destruct (qltb a b) eqn:E.
  - apply Qle_refl.
  - now apply qltb_ge in E.
Qed.

Lemma prefix_app (a x : string) : String.prefix a (a +:+ x) = true.
Proof.
  induction a as [|c a IH]; simpl.
  - now destruct x.
  - destruct (ascii_dec c c); [exact IH | congruence].
Qed.

Lemma contains_prefix (a s : string) :
  String.prefix a s = true -> contains a s = true.
Proof. intros H. destruct s; cbn [contains]; rewrite H; reflexivity. Qed.

Lemma contains_app_l (a x : string) : contains a (a +:+ x) = true.
Proof. apply contains_prefix, prefix_app. Qed.

Lemma contains_app_r (b y x : string) :
  contains b x = true -> contains b (y +:+ x) = true.
Proof.
  intros H. induction y as [|c y IH]; simpl; [exact H|].
  rewrite IH. apply orb_true_r.
Qed.

Lemma fold_left_preserves {A B : Type} (P : A -> Prop) (f : A -> B -> A)
    (l : list B) (a : A) :
  P a -> (forall x b, P x -> P (f x b)) -> P (fold_left f l a).
Proof.
  intros Ha Hf. revert a Ha.
  induction l as [|b l IH]; intros a Ha; simpl; [exact Ha|].
  apply IH, Hf, Ha.
Qed.

(** *** The registry *)

Lemma process_character_data_mono cd cs cv s :
  s ∈ cs -> s ∈ (process_character_data cd cs cv).1.
Proof.
  revert cs cv. induction cd as [|ch cd IH]; intros cs cv H; simpl; [exact H|].
  apply IH. set_solver.
Qed.

Lemma process_character_data_names cd cs cv ch :
  ch ∈ cd -> name ch ∈ (process_character_data cd cs cv).1.
Proof.
  revert cs cv. induction cd as [|ch' cd IH]; intros cs cv H.
  - inversion H.
  - simpl. apply elem_of_cons in H as [->|H].
    + apply process_character_data_mono. set_solver.
    + now apply IH.
Qed.

Lemma process_character_data_variations cd cs cv ch vs v :
  ch ∈ cd -> variations ch = Some vs -> v ∈ vs ->
  v ∈ (process_character_data cd cs cv).1.
Proof.
  revert cs cv. induction cd as [|ch' cd IH]; intros cs cv H Hvs Hv.
  - inversion H.
  - simpl. apply elem_of_cons in H as [<-|H].
    + apply process_character_data_mono. rewrite Hvs. simpl.
      apply elem_of_union_r, elem_of_list_to_set, Hv.
    + now apply (IH _ _ H).
Qed.

Lemma characters_load_registry cd :
  characters (load_registry cd) = (process_character_data cd ∅ ∅).1.
Proof. unfold load_registry. now destruct (process_character_data cd ∅ ∅). Qed.

(** A token of [self.characters] is returned as it is, whatever the context. *)
Lemma resolve_speaker_member fz reg s ctx :
  s ∈ characters reg -> resolve_speaker fz reg (Some s) ctx = Ok (Some s).
Proof.
  intros H. unfold resolve_speaker, in_characters.
  now rewrite bool_decide_eq_true_2.
Qed.

(** *** The delayed tiers (C7) *)

(** C7, as stated, fails: the weights of the delayed tiers are not
    monotonically decreasing in catalog order, the conversation-marker tier
    (0.8) follows the basic fallback (0.75) and the response tier (0.85)
    follows that. *)
Lemma delayed_weights_not_decreasing : ~ decreasing delayed_weights.
Proof.
  unfold decreasing, delayed_weights. simpl. intros H.
  do 5 (apply StronglySorted_inv in H as [H _]).
  apply StronglySorted_inv in H as [_ H].
  apply Forall_cons in H as [H _].
  vm_compute in H. now apply H.
Qed.

(** C7, amended: the eight delayed tiers, in catalog order, carry the fixed
    weights 0.85, 0.82, 0.80, 0.78, 0.75, 0.75, 0.8, 0.85; the weights never
    rise from the action tier to the basic fallback, and every one of the
    eight is strictly below 0.9. *)
Theorem delayed_weights_profile :
  tier_names =
    [ "delayed_attribution_action"; "delayed_attribution_state";
      "delayed_attribution_temporal"; "delayed_indirect_speech";
      "group_dialogue"; "delayed_attribution_basic";
      "conversation_marker"; "response_pattern" ]
  /\ delayed_weights = [0.85; 0.82; 0.80; 0.78; 0.75; 0.75; 0.8; 0.85]%Q
  /\ decreasing (take 6 delayed_weights)
  /\ Forall (fun w => (w < 0.9)%Q) delayed_weights.
Proof.
  split; [reflexivity|]. split; [reflexivity|]. split.
  - unfold decreasing, delayed_weights. simpl.
    repeat (apply SSorted_cons; [|repeat constructor; by vm_compute]).
    apply SSorted_nil.
  - unfold delayed_weights. simpl. repeat constructor.
Qed.

(** *** Canonical names and variations (C9, C3) *)

(** C9: a token that is a canonical name of the registry is returned
    unchanged by [resolve_speaker], in any context, and the penalty step
    leaves the confidence of its candidate as it was. *)
Theorem resolve_canonical_name_unchanged
    (fz : option string -> string -> Z) (cd : list CharData) (ch : CharData)
    (ctx : string) (c : Q) :
  ch ∈ cd ->
  resolve_speaker fz (load_registry cd) (Some (name ch)) ctx = Ok (Some (name ch))
  /\ resolution_penalty (load_registry cd) (Some (name ch)) (name ch) c = c.
Proof.
  intros Hch. split.
  - apply resolve_speaker_member. rewrite characters_load_registry.
    now apply process_character_data_names.
  - unfold resolution_penalty, token_differs. now rewrite String.eqb_refl.
Qed.

Lemma resolve_canonical_name_unchanged_witness :
  resolve_speaker Scenario.indel_ratio (load_registry Scenario.two_characters)
    (Some "Croesus") "Then he answered" = Ok (Some "Croesus")
  /\ resolution_penalty (load_registry Scenario.two_characters)
       (Some "Croesus") "Croesus" 1.0 = 1.0%Q.
Proof.
  apply (resolve_canonical_name_unchanged Scenario.indel_ratio
           Scenario.two_characters (mkChar "Croesus" (Some ["Kroisos"]))).
  apply list_elem_of_here.
Defined.

(** C3 does not hold of the code: [process_character_data] puts every
    variation into [self.characters], so the exact-membership step of
    [resolve_speaker] returns a registered variation as it is, with or
    without a speech cue, and the variation step is never reached for it. *)
Theorem registered_variation_resolves_to_itself
    (fz : option string -> string -> Z) (cd : list CharData) (ch : CharData)
    (vs : list string) (v ctx : string) :
  ch ∈ cd -> variations ch = Some vs -> v ∈ vs ->
  resolve_speaker fz (load_registry cd) (Some v) ctx = Ok (Some v).
Proof.
  intros Hch Hvs Hv. apply resolve_speaker_member.
  rewrite characters_load_registry.
  now apply (process_character_data_variations cd ∅ ∅ ch vs v).
Qed.

Lemma registered_variation_resolves_to_itself_witness :
  resolve_speaker Scenario.indel_ratio (load_registry Scenario.two_characters)
    (Some "Kroisos") "Kroisos said" = Ok (Some "Kroisos")
  /\ resolve_speaker Scenario.indel_ratio (load_registry Scenario.two_characters)
       (Some "Kroisos") "Kroisos was silent" = Ok (Some "Kroisos").
Proof.
  split;
    apply (registered_variation_resolves_to_itself Scenario.indel_ratio
             Scenario.two_characters (mkChar "Croesus" (Some ["Kroisos"]))
             ["Kroisos"]);
    first [ reflexivity | apply list_elem_of_here ].
Defined.

(** *** The deduplicator (C10, C2) *)

(** C10: a candidate with the text and the book of the stored quote, another
    speaker and the same confidence replaces the stored entry, is not a
    duplicate, and is appended to the emitted quotes, which keep the earlier
    emission. *)
Theorem equal_confidence_conflict_keeps_newest
    (seen_quotes : gmap string Quote) (q existing : Quote) (st : Loop) :
  seen_quotes !! strip (text q) = Some existing ->
  book existing = book q ->
  speaker existing <> speaker q ->
  (confidence q == confidence existing)%Q ->
  is_duplicate seen_quotes q = (false, <[ strip (text q) := q ]> seen_quotes)
  /\ (l_dedup st = seen_quotes ->
      l_quotes (store_quote q st) = l_quotes st ++ [q]
      /\ l_dedup (store_quote q st) = <[ strip (text q) := q ]> seen_quotes).
Proof.
  intros Hseen Hbook Hspk Hconf.
  assert (Hdup : is_duplicate seen_quotes q
                 = (false, <[ strip (text q) := q ]> seen_quotes)).
  { unfold is_duplicate. rewrite Hseen.
    apply String.eqb_neq in Hspk. rewrite Hspk. simpl.
    apply String.eqb_eq in Hbook. rewrite Hbook.
    assert (Hge : qltb (confidence q) (confidence existing) = false).
    { apply qltb_ge. rewrite Hconf. apply Qle_refl. }
    now rewrite Hge. }
  split; [exact Hdup|].
  intros Hst. unfold store_quote. rewrite Hst, Hdup. simpl. auto.
Qed.

Lemma equal_confidence_conflict_keeps_newest_witness :
  let earlier := Scenario.fragment "Croesus" "Count no man happy" "I" "" 0.8 in
  let newest := Scenario.fragment "Solon" "Count no man happy" "I" "" 0.8 in
  let st := mkLoop ∅ {[ "Count no man happy" := earlier ]} [earlier] in
  is_duplicate {[ "Count no man happy" := earlier ]} newest
    = (false, <[ "Count no man happy" := newest ]> {[ "Count no man happy" := earlier ]})
  /\ l_quotes (store_quote newest st) = [earlier; newest].
Proof.
  intros earlier newest st.
  destruct (equal_confidence_conflict_keeps_newest
              {[ "Count no man happy" := earlier ]} newest earlier st)
    as [Hdup Hstore].
  - reflexivity.
  - reflexivity.
  - discriminate.
  - reflexivity.
  - split; [exact Hdup|]. now destruct (Hstore eq_refl) as [-> _].
Defined.

(** C2 does not hold of the code when the candidate of lower confidence
    comes first: in one book, the quote-first pattern (0.80, speaker Croesus)
    and the then-thus pattern (1.0, speaker Cyrus) find the same quotation;
    the later, stronger candidate replaces the stored entry, and both are
    in the emitted list.  The same happens to two candidates of confidence
    0.6 and 0.9 handed to the store step in this order. *)
Theorem conflict_lower_first_emits_both (fz : option string -> string -> Z) :
  Scenario.emitted (run fz Scenario.two_characters Scenario.conflict_text)
  = Some
      [ mkQuote "Croesus" "I will give thee thy fill of blood" "I"
          "BOOK I. THE FIRST BOOK OF THE HISTORIES Then Cyrus :" ""
          "quote_first" 0.80;
        mkQuote "Cyrus" "I will give thee thy fill of blood" "I"
          "BOOK I. THE FIRST BOOK OF THE HISTORIES" "said Croesus"
          "then_thus" 1.0 ]
  /\ (let weak := Scenario.fragment "Croesus" "Count no man happy" "I" "" 0.6 in
      let strong := Scenario.fragment "Solon" "Count no man happy" "I" "" 0.9 in
      l_quotes (store_quote strong (store_quote weak (mkLoop ∅ ∅ [])))
        = [weak; strong]
      /\ l_quotes (store_quote weak (store_quote strong (mkLoop ∅ ∅ [])))
        = [strong]).
Proof. split; vm_compute; auto. Qed.

(** *** Segmentation (C4) *)

(** C4, as stated, fails: on a text without any book header the
    segmentation returns normally, with no book. *)
Lemma segmentation_without_headers_succeeds :
  finditer book_pattern Scenario.no_header_text = []
  /\ split_into_books Scenario.no_header_text init_state = Ok init_state.
Proof. split; vm_compute; reflexivity. Qed.

(** C4, amended: when the text has no book header, [split_into_books]
    returns normally and leaves the parser as it was, so that a fresh parser
    has no book; the run then goes on, processes no book, and ends without
    an error and without a quote. *)
Theorem split_into_books_without_headers
    (fz : option string -> string -> Z) (cd : list CharData) (txt : string)
    (st : State) :
  finditer book_pattern txt = [] ->
  split_into_books txt st = Ok st
  /\ run fz cd txt = Ok init_state.
Proof.
  intros H.
  assert (Hs : forall st', split_into_books txt st' = Ok st').
  { intros [bs qs dd]. unfold split_into_books. rewrite H. reflexivity. }
  split; [apply Hs|].
  unfold run. rewrite Hs. simpl.
  unfold process_books. simpl. rewrite !lookup_empty. reflexivity.
Qed.

Lemma split_into_books_without_headers_witness :
  split_into_books Scenario.no_header_text init_state = Ok init_state
  /\ run Scenario.indel_ratio Scenario.two_characters Scenario.no_header_text
     = Ok init_state.
Proof.
  apply (split_into_books_without_headers Scenario.indel_ratio
           Scenario.two_characters Scenario.no_header_text init_state).
  vm_compute. reflexivity.
Defined.

(** *** Merging fragments (C8) *)

Lemma prefix_refl (a : string) : String.prefix a a = true.
Proof.
  induction a as [|c a IH]; simpl; [reflexivity|].
  destruct (ascii_dec c c); [exact IH | congruence].
Qed.

Lemma contains_refl (a : string) : contains a a = true.
Proof. apply contains_prefix, prefix_refl. Qed.

Lemma dict_get_set {V : Type} (k : string) (v : V) (d : list (string * V)) :
  dict_get k (dict_set k v d) = Some v.
Proof.
  induction d as [|[k' v'] d IH]; simpl.
  - now rewrite String.eqb_refl.
  - destruct (String.eqb k' k) eqn:E; simpl.
    + now rewrite String.eqb_refl.
    + now rewrite E.
Qed.

(** C8: when [_merge_split_quotes] merges the candidate into an earlier
    quote (it answers [True]), that quote has the speaker and the book of the
    candidate, and the merged quote, stored under its own text, has a
    confidence equal to the maximum of the two confidences, hence not below
    either, and a text that contains both texts. *)
Theorem merge_takes_max_and_keeps_both
    (d d' : list (string * Quote)) (q : Quote) :
  _merge_split_quotes (Some d) q = Ok (Some true, d') ->
  exists existing merged : Quote,
    head (map snd d) = Some existing
    /\ speaker existing = speaker q /\ book existing = book q
    /\ dict_get (text merged) d' = Some merged
    /\ speaker merged = speaker q /\ book merged = book q
    /\ (confidence merged == Qmax (confidence existing) (confidence q))%Q
    /\ (confidence existing <= confidence merged)%Q
    /\ (confidence q <= confidence merged)%Q
    /\ contains (text existing) (text merged) = true
    /\ contains (text q) (text merged) = true.
Proof.
  unfold _merge_split_quotes.
  destruct (map snd d) as [|existing rest] eqn:Hd; [discriminate|].
  destruct (String.eqb (speaker existing) (speaker q)) eqn:Hs; [|discriminate].
  destruct (String.eqb (book existing) (book q)) eqn:Hb; [|discriminate].
  destruct (close_lengths (context_before existing) (context_before q));
    [|discriminate].
  simpl. intros H. injection H as <-.
  eexists existing, _. split; [reflexivity|].
  split; [now apply String.eqb_eq|]. split; [now apply String.eqb_eq|].
  split; [apply dict_get_set|]. simpl.
  split; [reflexivity|]. split; [reflexivity|].
  split; [apply qmax_is_Qmax|].
  split; [apply qmax_ge_l|]. split; [apply qmax_ge_r|].
  split; [apply contains_app_l|].
  do 2 apply contains_app_r. apply contains_refl.
Qed.

Lemma merge_takes_max_and_keeps_both_witness :
  let first := Scenario.fragment "Solon" "Count no man happy" "I" "Solon said" 0.8 in
  let second := Scenario.fragment "Solon" "until he is dead" "I" "Then" 0.95 in
  exists existing merged : Quote,
    head (map snd [("Count no man happy", first)]) = Some existing
    /\ speaker existing = "Solon" /\ book existing = "I"
    /\ dict_get (text merged)
         [ ("Count no man happy", first);
           ("Count no man happy" +:+ String nl (String nl "") +:+ "until he is dead",
            mkQuote "Solon"
              ("Count no man happy" +:+ String nl (String nl "") +:+ "until he is dead")
              "I" "Solon said" "" "basic_quote" 0.95) ] = Some merged
    /\ speaker merged = "Solon" /\ book merged = "I"
    /\ (confidence merged == Qmax (confidence existing) 0.95)%Q
    /\ (confidence existing <= confidence merged)%Q
    /\ (0.95 <= confidence merged)%Q
    /\ contains (text existing) (text merged) = true
    /\ contains "until he is dead" (text merged) = true.
Proof.
  intros first second.
  apply (merge_takes_max_and_keeps_both [("Count no man happy", first)] _ second).
  vm_compute. reflexivity.
Defined.

(** *** Invariants of the extraction (C5, C6) *)

Lemma is_valid_quote_sound (q : string) :
  is_valid_quote q = true ->
  sound_text q /\ isupper q = false /\ re_match editorial_re q = None.
Proof.
  unfold is_valid_quote, sound_text.
  destruct (word_count q <? 4)%nat eqn:Hw; [discriminate|].
  destruct (isupper q || negb (count_c "[" q =? count_c "]" q)%nat) eqn:Hs;
    [discriminate|].
  destruct (bool_decide (is_Some (re_match editorial_re q))) eqn:He;
    [discriminate|].
  intros _.
  apply Nat.ltb_ge in Hw. apply orb_false_elim in Hs as [Hu Hc].
  apply negb_false_iff, Nat.eqb_eq in Hc.
  apply bool_decide_eq_false in He.
  repeat split; try assumption.
  destruct (re_match editorial_re q) eqn:E; [|reflexivity].
  exfalso. apply He. eauto.
Qed.

Lemma editorial_first_char (c : ascii) (q : string) :
  re_match editorial_re (String c q) = None -> c <> "["%char /\ c <> "("%char.
Proof.
  unfold re_match, match_at, editorial_re. cbn [rmatch Ch].
  destruct (rmatch (Seqs [Bol; Plus true Digit; Ch "."]) 0 (String c q) [] _)
    as [[[e s'] cs]|]; [discriminate|].
  destruct (Ascii.eqb "[" c) eqn:E1; [discriminate|].
  destruct (Ascii.eqb "(" c) eqn:E2; [discriminate|].
  intros _. split; intros ->; discriminate.
Qed.

Lemma cut_books_keyed (txt : string) (positions : list (string * string * nat))
    (bs : gmap string Book) :
  books_keyed bs -> books_keyed (cut_books txt positions bs).
Proof.
  revert bs. induction positions as [|[[num ttl] start] rest IH]; intros bs H;
    simpl; [exact H|].
  apply IH. intros k b Hlk.
  destruct (decide (num = k)) as [->|Hne].
  - rewrite lookup_insert_eq in Hlk. now injection Hlk as <-.
  - rewrite lookup_insert_ne in Hlk by exact Hne. now apply H.
Qed.


Section ExtractionInvariants.

Variable fz : option string -> string -> Z.
Variable reg : Registry.

Lemma is_duplicate_stored (dd dd' : gmap string Quote) (q : Quote)
    (qs : list Quote) (dup : bool) :
  is_duplicate dd q = (dup, dd') -> stored dd qs ->
  if dup then dd' = dd else stored dd' (qs ++ [q]).
Proof.
  intros H [Hin Hkey].
  assert (Hsame : is_Some (dd !! strip (text q)) -> stored dd (qs ++ [q])).
  { intros Hq. split.
    - intros key e He. apply elem_of_app. left. now apply (Hin key).
    - intros q' Hq'. apply elem_of_app in Hq' as [Hq'|Hq'].
      + now apply Hkey.
      + apply list_elem_of_singleton in Hq'. now subst q'. }
  assert (Hins : stored (<[ strip (text q) := q ]> dd) (qs ++ [q])).
  { split.
    - intros key e He. apply elem_of_app.
      destruct (decide (strip (text q) = key)) as [<-|Hne].
      + rewrite lookup_insert_eq in He. injection He as <-.
        right. apply list_elem_of_here.
      + rewrite lookup_insert_ne in He by exact Hne. left. now apply (Hin key).
    - intros q' Hq'.
      destruct (decide (strip (text q) = strip (text q'))) as [<-|Hne].
      + rewrite lookup_insert_eq. eauto.
      + rewrite lookup_insert_ne by exact Hne.
        apply elem_of_app in Hq' as [Hq'|Hq']; [now apply Hkey|].
        apply list_elem_of_singleton in Hq'. now subst q'. }
  unfold is_duplicate in H.
  destruct (dd !! strip (text q)) as [existing|] eqn:Hlook.
  - destruct (String.eqb (speaker existing) (speaker q)
              && String.eqb (book existing) (book q)).
    + now injection H as <- <-.
    + destruct (String.eqb (book existing) (book q)).
      * destruct (qltb (confidence q) (confidence existing));
          injection H as <- <-; [reflexivity|exact Hins].
      * injection H as <- <-. apply Hsame. eauto.
  - injection H as <- <-. exact Hins.
Qed.

Lemma store_quote_inv (n : string) (done : list string) (q : Quote) (st : Loop) :
  book q = n -> is_valid_quote (text q) = true ->
  (speaker q, text q) ∉ seen st ->
  loop_inv n done st -> loop_inv n done (store_quote q st).
Proof.
  intros Hb Hv Hfresh (Hnd & Hval & Hseen & Hbooks & Hstored).
  unfold store_quote.
  destruct (is_duplicate (l_dedup st) q) as [dup dd] eqn:Hdup.
  pose proof (is_duplicate_stored _ _ _ _ _ Hdup Hstored) as Hdd.
  destruct dup.
  - subst dd. repeat split; try assumption; apply Hstored.
  - unfold loop_inv; simpl. split; [|split; [|split; [|split]]].
    + rewrite fmap_app. apply NoDup_app. split; [exact Hnd|]. split.
      * intros k Hk Hk'. apply list_elem_of_singleton in Hk'. subst k.
        apply list_elem_of_fmap in Hk as (q' & Hkey & Hq').
        injection Hkey as Hs Ht Hbk.
        apply Hfresh. rewrite Hs, Ht. apply Hseen; [exact Hq'|congruence].
      * apply NoDup_singleton.
    + apply Forall_app. split; [exact Hval|]. now apply Forall_singleton.
    + intros q' Hq' Hbq'. apply elem_of_app in Hq' as [Hq'|Hq'].
      * apply elem_of_union_l. now apply Hseen.
      * apply list_elem_of_singleton in Hq'. subst q'.
        apply elem_of_union_r. now apply elem_of_singleton.
    + intros q' Hq'. apply elem_of_app in Hq' as [Hq'|Hq'].
      * now apply Hbooks.
      * apply list_elem_of_singleton in Hq'. subst q'. now left.
    + exact Hdd.
Qed.

Lemma process_match_inv (n txt pn : string) (done : list string) (m : mobj) (st : Loop) :
  loop_inv n done st -> loop_inv n done (process_match fz reg n txt pn m st).
Proof.
  intros Hinv. unfold process_match.
  destruct (raw_fields reg txt pn m) as [spk quote].
  destruct (is_valid_quote (clean_quote quote)) eqn:Hv; cbn [negb]; [|exact Hinv].
  destruct (DialogueContext.get_context txt (m_start m) (m_end m)) as [cb ca].
  destruct (resolve_speaker fz reg spk cb) as [[r|]|e]; try exact Hinv.
  destruct (String.eqb r ""); [exact Hinv|].
  destruct (bool_decide ((r, clean_quote quote) ∈ seen st)) eqn:Hin; [exact Hinv|].
  apply bool_decide_eq_false in Hin.
  now apply store_quote_inv.
Qed.

Lemma extract_quotes_inv (b : Book) (done : list string) (st st' : State) :
  number b ∉ done ->
  state_inv done st ->
  extract_quotes fz reg b st = Ok st' ->
  state_inv (number b :: done) st' /\ books st' = books st.
Proof.
  intros Hnew (Hnd & Hval & Hdone & Hstored). unfold extract_quotes.
  destruct (String.eqb (content b) ""); [discriminate|].
  intros H. injection H as <-. simpl. split; [|reflexivity].
  assert (Hl : loop_inv (number b) done
    (fold_left
       (fun st0 p =>
          fold_left (fun st1 m => process_match fz reg (number b) (content b) p.2 m st1)
                    (finditer p.1 (content b)) st0)
       quote_patterns (mkLoop ∅ (dedup st) (quotes st)))).
  { apply fold_left_preserves.
    - repeat split; simpl; try assumption; try apply Hstored.
      + intros q Hq Hb. exfalso. apply Hnew. rewrite <- Hb. now apply Hdone.
      + intros q Hq. right. now apply Hdone.
    - intros x p Hx. apply fold_left_preserves; [exact Hx|].
      intros y m Hy. now apply process_match_inv. }
  destruct Hl as (Hnd' & Hval' & _ & Hbooks' & Hstored').
  split; [exact Hnd'|]. split; [exact Hval'|]. split; [|exact Hstored'].
  intros q Hq. destruct (Hbooks' q Hq) as [<-|Hd].
  - apply list_elem_of_here.
  - now apply list_elem_of_further.
Qed.

Lemma process_numerals_inv (numerals done : list string) (st st' : State) :
  NoDup numerals -> (forall k, k ∈ numerals -> k ∉ done) ->
  books_keyed (books st) ->
  state_inv done st ->
  process_numerals fz reg numerals st = Ok st' ->
  exists done', state_inv done' st'.
Proof.
  revert done st. induction numerals as [|k numerals IH]; intros done st Hnd Hdisj Hkeyed Hinv; simpl.
  - intros H. injection H as <-. now exists done.
  - apply NoDup_cons in Hnd as [Hk Hnd].
    destruct (books st !! k) as [b|] eqn:Hb.
    + destruct (extract_quotes fz reg b st) as [st1|e] eqn:He; simpl; [|discriminate].
      assert (Hnum : number b = k) by now apply Hkeyed.
      apply extract_quotes_inv with (done := done) in He as [Hinv1 Hbooks1];
        [|rewrite Hnum; apply Hdisj, list_elem_of_here|exact Hinv].
      apply (IH (number b :: done)); try assumption.
      * intros k' Hk' Hin. apply elem_of_cons in Hin as [->|Hin].
        -- rewrite Hnum in Hk'. contradiction.
        -- apply (Hdisj k'); [now apply list_elem_of_further|exact Hin].
      * now rewrite Hbooks1.
    + apply (IH done); try assumption.
      intros k' Hk'. apply Hdisj. now apply list_elem_of_further.
Qed.

End ExtractionInvariants.

Lemma NoDup_roman_numerals : NoDup roman_numerals.
Proof. apply (bool_decide_unpack _). vm_compute. exact I. Qed.

Lemma run_inv (fz : option string -> string -> Z) (cd : list CharData)
    (txt : string) (st' : State) :
  run fz cd txt = Ok st' -> exists done, state_inv done st'.
Proof.
  unfold run, split_into_books, process_books. simpl. intros H.
  eapply (process_numerals_inv fz _ roman_numerals []); [| | | |exact H].
  - apply NoDup_roman_numerals.
  - intros k _ Hk. inversion Hk.
  - simpl. apply cut_books_keyed. intros k b Hk. now rewrite lookup_empty in Hk.
  - split; [apply NoDup_nil_2|]. split; [apply Forall_nil_2|].
    split; [intros q Hq; inversion Hq|]. split.
    + intros key e He. simpl in He. now rewrite lookup_empty in He.
    + intros q Hq. inversion Hq.
Qed.

(** C5, as stated, fails: the parser has no check of the first letter, and
    a quotation that begins with a lowercase word is emitted. *)
Lemma lowercase_quote_is_emitted :
  exists q : Quote,
    Scenario.emitted
      (run Scenario.indel_ratio Scenario.two_characters Scenario.lowercase_text)
    = Some [q]
    /\ text q = "thus he spoke loudly"
    /\ first_isupper (text q) = false.
Proof. eexists. vm_compute. repeat split. Qed.

(** C5, amended: every quote in the emitted list of a run has a text of at
    least four words, with as many opening as closing square brackets, that
    is not entirely upper-case and does not begin with an opening square
    bracket or parenthesis; its first character need not be uppercase. *)
Theorem emitted_quotes_are_sound
    (fz : option string -> string -> Z) (cd : list CharData) (txt : string)
    (st' : State) :
  run fz cd txt = Ok st' ->
  Forall (fun q =>
            sound_text (text q)
            /\ isupper (text q) = false
            /\ forall c s, text q = String c s -> c <> "["%char /\ c <> "("%char)
         (quotes st').
Proof.
  intros H. apply run_inv in H as (done & _ & Hval & _).
  eapply Forall_impl; [exact Hval|]. simpl.
  intros q Hq. apply is_valid_quote_sound in Hq as (Hs & Hu & He).
  split; [exact Hs|]. split; [exact Hu|].
  intros c s Hc. rewrite Hc in He. now apply editorial_first_char in He.
Qed.

Lemma emitted_quotes_are_sound_witness :
  Forall (fun q =>
            sound_text (text q)
            /\ isupper (text q) = false
            /\ forall c s, text q = String c s -> c <> "["%char /\ c <> "("%char)
         (quotes Scenario.proverb_state).
Proof.
  apply (emitted_quotes_are_sound Scenario.indel_ratio Scenario.two_characters
           Scenario.proverb_text Scenario.proverb_state).
  vm_compute. reflexivity.
Defined.



(** *** The addressee check (C1) *)

Import Script.




(** **** The matcher on classes and literals *)

Lemma app_cons (c : ascii) (a b : string) :
  String c a +:+ b = String c (a +:+ b).
Proof. reflexivity. Qed.

Lemma app_nil_l (b : string) : EmptyString +:+ b = b.
Proof. reflexivity. Qed.

Lemma span_app (p : ascii -> bool) (s : string) : (span p s).1 +:+ (span p s).2 = s.
Proof.
  induction s as [|c s IH]; simpl; [reflexivity|].
  destruct (p c); simpl; [rewrite app_cons; f_equal; exact IH|reflexivity].
Qed.


Lemma span_rest (p : ascii -> bool) (s : string) : starts_with_c p (span p s).2 = false.
Proof.
  induction s as [|c s IH]; simpl; [reflexivity|].
  destruct (p c) eqn:E; simpl; [exact IH|exact E].
Qed.


Lemma length_app (a b : string) :
  String.length (a +:+ b) = String.length a + String.length b.
Proof.
  induction a as [|c a IH]; [reflexivity|].
  rewrite app_cons. simpl. now rewrite IH.
Qed.

Section StarOfClass.
Context {R : Type}.

Lemma rmatch_Seq (a b : regex) (pos : nat) (s : string) (cs : caps) (k : @cont R) :
  rmatch (Seq a b) pos s cs k
  = rmatch a pos s cs (fun pos' s' cs' => rmatch b pos' s' cs' k).
Proof. reflexivity. Qed.

Lemma rmatch_Chr (p : ascii -> bool) (pos : nat) (s : string) (cs : caps) (k : @cont R) :
  rmatch (Chr p) pos s cs k
  = match s with
    | String c s' => if p c then k (S pos) s' cs else None
    | EmptyString => None
    end.
Proof. reflexivity. Qed.

Lemma rmatch_Star (g : bool) (a : regex) (pos : nat) (s : string) (cs : caps)
    (k : @cont R) :
  rmatch (Star g a) pos s cs k
  = star_loop (rmatch a) g k (String.length s) pos s cs.
Proof. reflexivity. Qed.





End StarOfClass.










Lemma prefix_drop (v s : string) :
  String.prefix v s = true -> s = v +:+ str_drop (String.length v) s.
Proof.
  revert s. induction v as [|c v IH]; intros s H; [reflexivity|].
  destruct s as [|d s]; [discriminate|]. simpl in H.
  destruct (ascii_dec c d) as [<-|]; [|discriminate].
  rewrite app_cons. simpl. f_equal. now apply IH.
Qed.





Lemma drop_drop (a b : nat) (s : string) :
  str_drop a (str_drop b s) = str_drop (b + a) s.
Proof.
  revert s. induction b as [|b IH]; intros s; [reflexivity|].
  destruct s as [|c s]; simpl; [now destruct a|apply IH].
Qed.



Lemma length_drop (n : nat) (s : string) :
  String.length (str_drop n s) = String.length s - n.
Proof.
  revert s. induction n as [|n IH]; intros s; simpl; [lia|].
  destruct s as [|c s]; simpl; [reflexivity|apply IH].
Qed.

Lemma sforall_app (p : ascii -> bool) (a b : string) :
  sforall p (a +:+ b) = sforall p a && sforall p b.
Proof.
  induction a as [|c a IH]; [reflexivity|].
  rewrite app_cons. simpl. now rewrite IH, andb_assoc.
Qed.








Lemma app_assoc_s (a b c : string) : (a +:+ b) +:+ c = a +:+ b +:+ c.
Proof.
  induction a as [|d a IH]; [reflexivity|]. rewrite !app_cons. now rewrite IH.
Qed.











(** ** Further properties of the code *)

Import PyMore ParserMore Extractor Shape.

(** *** Substrings, slices and trimming *)

Lemma prefix_smap (f : ascii -> ascii) (a s : string) :
  String.prefix a s = true -> String.prefix (smap f a) (smap f s) = true.
Proof.
  revert s. induction a as [|c a IH]; intros s; [now destruct s|].
  destruct s as [|d s]; [discriminate|]. simpl.
  destruct (ascii_dec c d) as [<-|]; [|discriminate].
  destruct (ascii_dec (f c) (f c)); [apply IH|congruence].
Qed.

Lemma contains_smap (f : ascii -> ascii) (a s : string) :
  contains a s = true -> contains (smap f a) (smap f s) = true.
Proof.
  induction s as [|d s IH]; cbn [contains smap]; intros H.
  - apply orb_true_iff in H as [H|H]; [|discriminate].
    apply (prefix_smap f) in H. cbn [smap] in H. now rewrite H.
  - apply orb_true_iff in H as [H|H].
    + apply (prefix_smap f) in H. cbn [smap] in H. now rewrite H.
    + rewrite (IH H). apply orb_true_r.
Qed.

Lemma upper_lower_c (c : ascii) : upper_c (lower_c c) = upper_c c.
Proof. destruct c as [[] [] [] [] [] [] [] []]; vm_compute; reflexivity. Qed.

Lemma upper_lower (s : string) : upper (lower s) = upper s.
Proof.
  induction s as [|c s IH]; [reflexivity|].
  unfold upper, lower in *. cbn [smap]. now rewrite upper_lower_c, IH.
Qed.

Lemma contains_any_intro (w : string) (ws : list string) (s : string) :
  In w ws -> contains w s = true -> contains_any ws s = true.
Proof.
  intros Hin Hc. unfold contains_any. apply existsb_exists. eauto.
Qed.

Lemma contains_iff (a s : string) :
  contains a s = true <-> exists pre post, s = pre +:+ a +:+ post.
Proof.
  split.
  - induction s as [|c s IH]; cbn [contains]; intros H.
    + apply orb_true_iff in H as [H|H]; [|discriminate].
      exists "", (str_drop (String.length a) ""). rewrite app_nil_l.
      now apply prefix_drop.
    + apply orb_true_iff in H as [H|H].
      * exists "", (str_drop (String.length a) (String c s)). rewrite app_nil_l.
        now apply prefix_drop.
      * destruct (IH H) as (pre & post & ->). exists (String c pre), post.
        now rewrite app_cons.
  - intros (pre & post & ->). apply contains_app_r, contains_app_l.
Qed.

Lemma app_nil_r_s (a : string) : a +:+ "" = a.
Proof. induction a as [|c a IH]; [reflexivity|]. rewrite app_cons. now rewrite IH. Qed.

Lemma contains_trans (a b c : string) :
  contains a b = true -> contains b c = true -> contains a c = true.
Proof.
  intros H1 H2. apply contains_iff in H1 as (p1 & q1 & ->).
  apply contains_iff in H2 as (p2 & q2 & ->).
  apply contains_iff. exists (p2 +:+ p1), (q1 +:+ q2).
  now rewrite !app_assoc_s.
Qed.

Lemma take_drop_s (n : nat) (s : string) : str_take n s +:+ str_drop n s = s.
Proof.
  revert s. induction n as [|n IH]; intros s; [reflexivity|].
  destruct s as [|c s]; [reflexivity|]. cbn [str_take str_drop].
  rewrite app_cons. now rewrite IH.
Qed.

Lemma contains_drop (n : nat) (s : string) : contains (str_drop n s) s = true.
Proof.
  apply contains_iff. exists (str_take n s), "".
  now rewrite app_nil_r_s, take_drop_s.
Qed.

Lemma contains_take (n : nat) (s : string) : contains (str_take n s) s = true.
Proof.
  apply contains_iff. exists "", (str_drop n s).
  now rewrite app_nil_l, take_drop_s.
Qed.

Lemma contains_slice (a b : nat) (s : string) : contains (slice a b s) s = true.
Proof.
  unfold slice. apply (contains_trans _ (str_drop a s)); [apply contains_take|apply contains_drop].
Qed.

Lemma lstrip_by_suffix (p : ascii -> bool) (s : string) :
  exists pre, s = pre +:+ lstrip_by p s.
Proof.
  induction s as [|c s IH]; [now exists ""|]. cbn [lstrip_by].
  destruct (p c); [|now exists ""].
  destruct IH as [pre IH]. exists (String c pre). rewrite app_cons. now f_equal.
Qed.

Lemma rstrip_by_prefix (p : ascii -> bool) (s : string) :
  exists post, s = rstrip_by p s +:+ post.
Proof.
  induction s as [|c s IH]; [now exists ""|]. cbn [rstrip_by].
  destruct IH as [post IH].
  destruct (rstrip_by p s) as [|d t] eqn:E.
  - destruct (p c).
    + exists (String c s). reflexivity.
    + exists s. reflexivity.
  - exists post. rewrite app_cons. now f_equal.
Qed.

Lemma contains_strip_by (p : ascii -> bool) (s : string) :
  contains (strip_by p s) s = true.
Proof.
  unfold strip_by. destruct (lstrip_by_suffix p s) as [pre Hpre].
  destruct (rstrip_by_prefix p (lstrip_by p s)) as [post Hpost].
  apply contains_iff. exists pre, post. now rewrite <- Hpost.
Qed.

Lemma lstrip_by_start (p : ascii -> bool) (s : string) :
  starts_with_c p (lstrip_by p s) = false.
Proof.
  induction s as [|c s IH]; [reflexivity|]. cbn [lstrip_by].
  destruct (p c) eqn:E; [exact IH|exact E].
Qed.

Lemma rstrip_by_start (p : ascii -> bool) (s : string) :
  starts_with_c p s = false -> starts_with_c p (rstrip_by p s) = false.
Proof.
  destruct s as [|c s]; [reflexivity|]. cbn [rstrip_by starts_with_c]. intros H.
  destruct (rstrip_by p s); [rewrite H|]; simpl; auto.
Qed.

Lemma rstrip_by_end (p : ascii -> bool) (s : string) :
  ends_with_c p (rstrip_by p s) = false.
Proof.
  induction s as [|c s IH]; [reflexivity|]. cbn [rstrip_by].
  destruct (rstrip_by p s) as [|d t] eqn:E.
  - destruct (p c) eqn:Hc; simpl; auto.
  - exact IH.
Qed.

Lemma strip_by_trimmed (p : ascii -> bool) (s : string) :
  starts_with_c p (strip_by p s) = false /\ ends_with_c p (strip_by p s) = false.
Proof.
  unfold strip_by. split; [apply rstrip_by_start, lstrip_by_start|apply rstrip_by_end].
Qed.

Lemma length_str_take (n : nat) (s : string) : String.length (str_take n s) <= n.
Proof.
  revert s. induction n as [|n IH]; intros s; simpl; [lia|].
  destruct s as [|c s]; simpl; [lia|]. specialize (IH s). lia.
Qed.

Lemma length_lstrip_by (p : ascii -> bool) (s : string) :
  String.length (lstrip_by p s) <= String.length s.
Proof.
  induction s as [|c s IH]; simpl; [lia|]. destruct (p c); simpl; lia.
Qed.

Lemma length_rstrip_by (p : ascii -> bool) (s : string) :
  String.length (rstrip_by p s) <= String.length s.
Proof.
  induction s as [|c s IH]; simpl; [lia|].
  destruct (rstrip_by p s) as [|d t]; simpl in *; [destruct (p c); simpl; lia|lia].
Qed.

Lemma length_strip_by (p : ascii -> bool) (s : string) :
  String.length (strip_by p s) <= String.length s.
Proof.
  unfold strip_by. pose proof (length_rstrip_by p (lstrip_by p s)).
  pose proof (length_lstrip_by p s). lia.
Qed.

Lemma length_slice (a b : nat) (s : string) : String.length (slice a b s) <= b - a.
Proof. unfold slice. apply length_str_take. Qed.

Lemma drop_take (a b : nat) (s : string) :
  str_drop a (str_take b s) = str_take (b - a) (str_drop a s).
Proof.
  revert b s. induction a as [|a IH]; intros b s.
  - now rewrite Nat.sub_0_r.
  - destruct b as [|b]; [now destruct s|].
    destruct s as [|c s]; [now destruct (S b - S a)|].
    cbn [str_take str_drop]. apply IH.
Qed.

(** *** The matcher moves forward *)

Lemma str_drop_0 (s : string) : str_drop 0 s = s.
Proof. reflexivity. Qed.

Lemma advances_compose {R : Type} (pos pos1 pos2 : nat) (s : string) :
  pos <= pos1 -> pos1 - pos <= String.length s -> pos1 <= pos2 ->
  pos2 - pos1 <= String.length (str_drop (pos1 - pos) s) ->
  pos <= pos2 /\ pos2 - pos <= String.length s
  /\ str_drop (pos2 - pos1) (str_drop (pos1 - pos) s) = str_drop (pos2 - pos) s.
Proof.
  intros H1 H2 H3 H4. rewrite length_drop in H4.
  split; [lia|]. split; [lia|].
  rewrite drop_drop. f_equal. lia.
Qed.

Lemma star_loop_advances {R : Type} (body : @matcher R) (g : bool) :
  advances body ->
  forall fuel, advances (fun pos s cs k => star_loop body g k fuel pos s cs).
Proof.
  intros Hbody fuel. induction fuel as [|fuel IH]; intros pos s cs k x; cbn [star_loop].
  - intros H. exists pos, s, cs. rewrite Nat.sub_diag. repeat split; try lia; auto.
  - assert (Hagain : body pos s cs
        (fun pos' s' cs' =>
           if (pos <? pos')%nat then star_loop body g k fuel pos' s' cs' else None) = Some x ->
      exists pos' s' cs',
        k pos' s' cs' = Some x /\ pos <= pos' /\ pos' - pos <= String.length s
        /\ s' = str_drop (pos' - pos) s).
    { intros H. apply Hbody in H as (pos1 & s1 & cs1 & H & Hle & Hlen & ->).
      destruct (pos <? pos1)%nat; [|discriminate].
      apply IH in H as (pos2 & s2 & cs2 & H & Hle2 & Hlen2 & ->).
      destruct (advances_compose (R:=R) pos pos1 pos2 s Hle Hlen Hle2 Hlen2) as (A & B & C).
      exists pos2, (str_drop (pos2 - pos) s), cs2. rewrite <- C at 1. auto. }
    assert (Hstop : k pos s cs = Some x ->
      exists pos' s' cs',
        k pos' s' cs' = Some x /\ pos <= pos' /\ pos' - pos <= String.length s
        /\ s' = str_drop (pos' - pos) s).
    { intros H. exists pos, s, cs. rewrite Nat.sub_diag. repeat split; try lia; auto. }
    destruct g.
    + destruct (body pos s cs _) as [y|] eqn:E.
      * intros H. injection H as ->. now apply Hagain.
      * exact Hstop.
    + destruct (k pos s cs) as [y|] eqn:E.
      * intros H. injection H as ->. now apply Hstop.
      * exact Hagain.
Qed.

Lemma rmatch_advances {R : Type} (r : regex) : advances (@rmatch R r).
Proof.
  induction r as [|p|a IHa b IHb|a IHa b IHb|g a IHa|n a IHa|];
    intros pos s cs k x; cbn [rmatch].
  - intros H. exists pos, s, cs. rewrite Nat.sub_diag. repeat split; try lia; auto.
  - destruct s as [|c s']; [discriminate|]. destruct (p c); [|discriminate].
    intros H. exists (S pos), s', cs.
    replace (S pos - pos) with 1 by lia. simpl. repeat split; try lia; auto.
  - intros H. apply IHa in H as (pos1 & s1 & cs1 & H & Hle & Hlen & ->).
    apply IHb in H as (pos2 & s2 & cs2 & H & Hle2 & Hlen2 & ->).
    destruct (advances_compose (R:=R) pos pos1 pos2 s Hle Hlen Hle2 Hlen2) as (A & B & C).
    exists pos2, (str_drop (pos2 - pos) s), cs2. rewrite <- C at 1. auto.
  - destruct (rmatch a pos s cs k) as [y|] eqn:E.
    + intros H. injection H as ->. exact (IHa _ _ _ _ _ E).
    + exact (IHb pos s cs k x).
  - apply (star_loop_advances (rmatch a) g IHa (String.length s)).
  - intros H. apply IHa in H as (pos1 & s1 & cs1 & H & Hle & Hlen & ->).
    eauto 10.
  - destruct (pos =? 0)%nat; [|discriminate].
    intros H. exists pos, s, cs. rewrite Nat.sub_diag. repeat split; try lia; auto.
Qed.

Lemma match_at_advances (r : regex) (pos : nat) (s s' : string) (e : nat) (cs : caps) :
  match_at r pos s = Some (e, s', cs) ->
  pos <= e /\ e - pos <= String.length s /\ s' = str_drop (e - pos) s.
Proof.
  unfold match_at. intros H.
  apply rmatch_advances in H as (pos1 & s1 & cs1 & H & Hle & Hlen & ->).
  injection H as <- <- <-. auto.
Qed.

Lemma scan_sound_weaken (r : regex) (text : string) (pos pos' : nat) (L : list mobj) :
  pos <= pos' -> scan_sound r text pos' L -> scan_sound r text pos L.
Proof.
  intros Hle [Ha Hb]. split; [|exact Hb].
  eapply Forall_impl; [exact Ha|]. simpl. intros m (A & B). split; [lia|exact B].
Qed.

Lemma scan_is_sound (r : regex) (text : string) (fuel pos : nat) (s : string) :
  s = str_drop pos text -> pos <= String.length text ->
  scan_sound r text pos (scan fuel r pos s).
Proof.
  revert pos s. induction fuel as [|fuel IH]; intros pos s Hs Hpos; cbn [scan].
  - split; [apply Forall_nil_2|apply SSorted_nil].
  - assert (Hnext : forall c t, s = String c t ->
              scan_sound r text pos (scan fuel r (S pos) t)).
    { intros c t E. apply (scan_sound_weaken r text pos (S pos)); [lia|].
      assert (Hl : String.length s = String.length text - pos)
        by (rewrite Hs; apply length_drop).
      apply IH.
      - replace (S pos) with (pos + 1) by lia. rewrite <- drop_drop, <- Hs, E. reflexivity.
      - rewrite E in Hl. simpl in Hl. lia. }
    assert (Hnil : scan_sound r text pos []).
    { split; [apply Forall_nil_2|apply SSorted_nil]. }
    destruct (match_at r pos s) as [[[e s'] cs]|] eqn:Hm.
    + destruct (match_at_advances _ _ _ _ _ _ Hm) as (Hle & Hlen & Hs').
      assert (Hl : String.length s = String.length text - pos)
        by (rewrite Hs; apply length_drop).
      assert (Es' : s' = str_drop e text).
      { rewrite Hs', Hs, drop_drop. f_equal. lia. }
      assert (Hrest : scan_sound r text (if (pos <? e)%nat then e else S pos)
                (if (pos <? e)%nat then scan fuel r e s'
                 else match s with
                      | String _ t => scan fuel r (S pos) t
                      | EmptyString => []
                      end)).
      { destruct (pos <? e)%nat eqn:Hlt.
        - apply IH; [exact Es'|lia].
        - destruct s as [|c t] eqn:E.
          + split; [apply Forall_nil_2|apply SSorted_nil].
          + assert (Hl' : S (String.length t) = String.length text - pos) by exact Hl.
            apply IH.
            * replace (S pos) with (pos + 1) by lia.
              rewrite <- drop_drop, <- Hs. reflexivity.
            * lia. }
      destruct Hrest as [Ha Hb]. split.
      * apply Forall_cons. split.
        -- cbn [m_start m_end m_caps]. rewrite <- Hs, <- Es'.
           repeat split; try lia. exact Hm.
        -- eapply Forall_impl; [exact Ha|]. simpl. intros m (A & B).
           split; [|exact B]. destruct (pos <? e)%nat; lia.
      * apply SSorted_cons; [exact Hb|].
        eapply Forall_impl; [exact Ha|]. simpl. intros m (A & B & _).
        destruct (pos <? e)%nat eqn:Hlt.
        -- apply Nat.ltb_lt in Hlt. lia.
        -- apply Nat.ltb_ge in Hlt. lia.
    + destruct s as [|c t]; [exact Hnil|]. now apply (Hnext c t).
Qed.

Lemma finditer_sound (r : regex) (text : string) :
  scan_sound r text 0 (finditer r text).
Proof. unfold finditer. apply scan_is_sound; [reflexivity|lia]. Qed.

(** *** Segmentation and the run *)

Lemma letter_b_not_space (c : ascii) :
  Ascii.eqb (lower_c "B") (lower_c c) = true -> is_space_c c = false.
Proof. destruct c as [[] [] [] [] [] [] [] []]; vm_compute; congruence. Qed.

Lemma book_pattern_start (pos : nat) (s : string) :
  is_Some (match_at book_pattern pos s) ->
  exists c t, s = String c t /\ is_space_c c = false.
Proof.
  unfold match_at, book_pattern. cbn [Seqs LitI].
  rewrite !rmatch_Seq. unfold ChI at 1. rewrite rmatch_Chr.
  destruct s as [|c t]; [intros [x H]; discriminate|].
  destruct (Ascii.eqb (lower_c "B") (lower_c c)) eqn:E; [|intros [x H]; discriminate].
  intros _. exists c, t. split; [reflexivity|now apply letter_b_not_space].
Qed.

Lemma strip_nonempty (c : ascii) (t : string) :
  is_space_c c = false -> strip (String c t) <> "".
Proof.
  intros Hc. unfold strip, strip_by. cbn [lstrip_by]. rewrite Hc.
  cbn [rstrip_by]. rewrite Hc. now destruct (rstrip_by is_space_c t).
Qed.

Lemma slice_nonspace (txt : string) (a b : nat) :
  nonspace_at txt a -> a < b -> strip (slice a b txt) <> "".
Proof.
  intros (c & t & E & Hc) Hlt. unfold slice. rewrite E.
  destruct (b - a) as [|n] eqn:En; [lia|]. cbn [str_take].
  now apply strip_nonempty.
Qed.

Lemma nonspace_at_lt (txt : string) (a : nat) :
  nonspace_at txt a -> a < String.length txt.
Proof.
  intros (c & t & E & _). pose proof (length_drop a txt) as H.
  rewrite E in H. simpl in H. lia.
Qed.

Lemma insert_position_last (x : string * string * nat)
    (acc : list (string * string * nat)) :
  Forall (fun y => y.2 <= x.2) acc -> insert_position x acc = acc ++ [x].
Proof.
  induction acc as [|y acc IH]; intros H; cbn [insert_position]; [reflexivity|].
  apply Forall_cons in H as [Hy H].
  assert (E : (x.2 <? y.2)%nat = false) by (apply Nat.ltb_ge; exact Hy).
  rewrite E, IH by exact H. reflexivity.
Qed.

Lemma sort_positions_sorted (l acc : list (string * string * nat)) :
  StronglySorted (fun a b => a.2 < b.2) (acc ++ l) ->
  fold_left (fun acc x => insert_position x acc) l acc = acc ++ l.
Proof.
  revert acc. induction l as [|x l IH]; intros acc H; simpl.
  - now rewrite app_nil_r.
  - rewrite insert_position_last.
    + rewrite IH; rewrite <- app_assoc; [reflexivity|exact H].
    + clear IH. induction acc as [|y acc IHacc]; [apply Forall_nil_2|].
      simpl in H. apply StronglySorted_inv in H as [H Hy].
      apply Forall_cons. split.
      * rewrite Forall_app in Hy. destruct Hy as [_ Hy].
        apply Forall_cons in Hy as [Hy _]. lia.
      * now apply IHacc.
Qed.

Lemma cut_books_content (txt : string) (positions : list (string * string * nat))
    (bs : gmap string Book) :
  StronglySorted (fun a b => a.2 < b.2) positions ->
  Forall (fun x => nonspace_at txt x.2) positions ->
  has_content bs -> has_content (cut_books txt positions bs).
Proof.
  revert bs. induction positions as [|[[num ttl] start] rest IH];
    intros bs Hs Hn Hbs; cbn [cut_books]; [exact Hbs|].
  apply StronglySorted_inv in Hs as [Hs Hlt].
  apply Forall_cons in Hn as [Hst Hn].
  apply IH; try assumption.
  intros k b Hk. destruct (decide (num = k)) as [->|Hne].
  - rewrite lookup_insert_eq in Hk. injection Hk as <-. cbn [content].
    apply slice_nonspace; [exact Hst|].
    destruct rest as [|[[n2 t2] next] rest'].
    + now apply nonspace_at_lt.
    + apply Forall_cons in Hlt as [Hlt _]. exact Hlt.
  - rewrite lookup_insert_ne in Hk by exact Hne. now apply (Hbs k).
Qed.

Lemma StronglySorted_map {A B : Type} (f : A -> B) (R : A -> A -> Prop)
    (R' : B -> B -> Prop) (l : list A) :
  (forall a b, R a b -> R' (f a) (f b)) ->
  StronglySorted R l -> StronglySorted R' (map f l).
Proof.
  intros Hf H. induction H as [|a l H IH Ha]; simpl; [apply SSorted_nil|].
  apply SSorted_cons; [exact IH|].
  apply Forall_forall. intros y Hy. apply list_elem_of_fmap in Hy as (x & -> & Hx).
  apply Hf. rewrite Forall_forall in Ha. now apply Ha.
Qed.

Lemma split_into_books_content (txt : string) (st st1 : State) :
  has_content (books st) ->
  split_into_books txt st = Ok st1 -> has_content (books st1).
Proof.
  intros Hbs. unfold split_into_books. intros H. injection H as <-. cbn [books].
  destruct (finditer_sound book_pattern txt) as [Ha Hb].
  assert (Hsorted : StronglySorted (fun a b : string * string * nat => a.2 < b.2)
            (map (fun m => (group txt m 1, strip (group txt m 2), m_start m))
                 (finditer book_pattern txt))).
  { apply (StronglySorted_map
             (fun m => (group txt m 1, strip (group txt m 2), m_start m))
             (fun a b => m_end a <= m_start b /\ m_start a < m_start b)
             (fun a b : string * string * nat => a.2 < b.2));
      [|exact Hb].
    intros a b [_ H]. exact H. }
  unfold sort_positions. rewrite (sort_positions_sorted _ []) by exact Hsorted.
  apply cut_books_content; [exact Hsorted| |exact Hbs].
  apply Forall_forall. intros y Hy. apply list_elem_of_fmap in Hy as (m & -> & Hm).
  rewrite Forall_forall in Ha. destruct (Ha m Hm) as (_ & _ & _ & Hmatch).
  destruct (book_pattern_start (m_start m) (str_drop (m_start m) txt))
    as (c & t & E & Hc); [rewrite Hmatch; eauto|].
  exists c, t. auto.
Qed.

Lemma process_numerals_total (fz : option string -> string -> Z) (reg : Registry)
    (numerals : list string) (st : State) :
  has_content (books st) ->
  exists st', process_numerals fz reg numerals st = Ok st' /\ books st' = books st.
Proof.
  revert st. induction numerals as [|k numerals IH]; intros st Hbs; cbn [process_numerals].
  - eauto.
  - destruct (books st !! k) as [b|] eqn:Hb; [|now apply IH].
    unfold extract_quotes at 1.
    assert (E : String.eqb (content b) "" = false)
      by (apply String.eqb_neq; now apply (Hbs k)).
    rewrite E. cbn [bind].
    match goal with |- context [process_numerals fz reg numerals ?s] =>
      destruct (IH s) as (st' & H1 & H2); [exact Hbs|]
    end.
    exists st'. split; [exact H1|exact H2].
Qed.

Lemma books_keyed_split (txt : string) (st : State) (st1 : State) :
  split_into_books txt init_state = Ok st1 -> books_keyed (books st1).
Proof.
  unfold split_into_books. intros H. injection H as <-. simpl.
  apply cut_books_keyed. intros k b Hk. now rewrite lookup_empty in Hk.
Qed.

Lemma run_total (fz : option string -> string -> Z) (cd : list CharData)
    (txt : string) :
  exists st', run fz cd txt = Ok st' /\ has_content (books st').
Proof.
  unfold run.
  destruct (split_into_books txt init_state) as [st1|e] eqn:Hs.
  - cbn [bind]. unfold process_books.
    assert (Hc : has_content (books st1)).
    { apply (split_into_books_content txt init_state st1); [|exact Hs].
      intros k b Hk. cbn [init_state books] in Hk. now rewrite lookup_empty in Hk. }
    destruct (process_numerals_total fz (load_registry cd) roman_numerals st1 Hc)
      as (st' & H1 & H2).
    exists st'. split; [exact H1|now rewrite H2].
  - discriminate Hs.
Qed.

(** Segmentation and extraction never raise: whatever the text, the
    registry and the fuzzy score, [split_into_books] followed by
    [process_books] returns normally.  Every header match begins with the
    letter B and the matches are found in increasing order, so every stored
    book has a non-empty content and the [ValueError] of [extract_quotes]
    is never raised. *)
Theorem run_never_fails (fz : option string -> string -> Z) (cd : list CharData)
    (txt : string) :
  exists st',
    run fz cd txt = Ok st'
    /\ forall k b, books st' !! k = Some b -> content b <> "" /\ number b = k.
Proof.
  destruct (run_total fz cd txt) as (st' & H & Hc). exists st'.
  split; [exact H|]. intros k b Hk. split; [now apply (Hc k)|].
  unfold run in H.
  destruct (split_into_books txt init_state) as [st1|e] eqn:Hs; [|discriminate].
  cbn [bind] in H. unfold process_books in H.
  destruct (process_numerals_total fz (load_registry cd) roman_numerals st1)
    as (st2 & H1 & H2).
  { intros k' b' Hk'. apply (split_into_books_content txt init_state st1 ) in Hs.
    - now apply (Hs k').
    - intros k0 b0 Hk0. cbn [init_state books] in Hk0. now rewrite lookup_empty in Hk0. }
  rewrite H1 in H. injection H as <-.
  rewrite H2 in Hk. now apply (books_keyed_split txt init_state st1 Hs).
Qed.

(** *** Where the emitted quotes come from *)

Section Resolution.
Variable fz : option string -> string -> Z.
Variable cd : list CharData.

Lemma best_fuzzy_in (spk : option string) (names : list string)
    (b : option string) (sc : Z) (n : string) :
  best_fuzzy fz spk names b sc = Some n -> b = Some n \/ n ∈ names.
Proof.
  revert b sc. induction names as [|c names IH]; intros b sc; cbn [best_fuzzy].
  - intros ->. now left.
  - destruct ((85 <? fz spk c)%Z && (sc <? fz spk c)%Z); intros H;
      apply IH in H as [H|H].
    + injection H as ->. right. apply list_elem_of_here.
    + right. now apply list_elem_of_further.
    + now left.
    + right. now apply list_elem_of_further.
Qed.

Lemma by_variation_in (spk : option string) (ctx : string) (l : list CharData)
    (n : string) :
  by_variation spk ctx l = Ok (Some n) -> exists ch, ch ∈ l /\ name ch = n.
Proof.
  induction l as [|ch l IH]; cbn [by_variation]; [discriminate|].
  destruct (variations ch) as [vs|]; [|discriminate].
  destruct (token_in spk vs && contains_any speech_indicators (lower ctx)).
  - intros H. injection H as <-. exists ch. split; [apply list_elem_of_here|reflexivity].
  - intros H. destruct (IH H) as (ch' & Hin & Hn). exists ch'.
    split; [now apply list_elem_of_further|exact Hn].
Qed.

Lemma by_context_in (reg : Registry) (words : list string) (i : nat)
    (rest : list string) (w : string) :
  by_context reg words i rest = Some w -> w ∈ characters reg.
Proof.
  revert i. induction rest as [|word rest IH]; intros i; cbn [by_context]; [discriminate|].
  destruct (bool_decide (word ∈ characters reg)) eqn:E.
  - apply bool_decide_eq_true in E.
    destruct (contains_any _ _); [|apply IH].
    intros H. now injection H as <-.
  - apply IH.
Qed.

Lemma resolve_speaker_in_characters (spk : option string) (ctx r : string) :
  Parser.resolve_speaker fz (load_registry cd) spk ctx = Ok (Some r) ->
  r ∈ characters (load_registry cd).
Proof.
  unfold Parser.resolve_speaker.
  destruct (in_characters (load_registry cd) spk) eqn:Hin.
  - intros H. injection H as ->. unfold in_characters in Hin.
    now apply bool_decide_eq_true in Hin.
  - destruct (truthy _) eqn:Ht.
    + intros H. injection H as Hb. apply best_fuzzy_in in Hb as [Hb|Hb];
        [discriminate|]. now apply elem_of_elements in Hb.
    + destruct (by_variation spk ctx (character_data (load_registry cd)))
        as [[n|]|e] eqn:Hv; simpl; [| |discriminate].
      * intros H. injection H as <-.
        apply by_variation_in in Hv as (ch & Hch & <-).
        rewrite characters_load_registry.
        apply process_character_data_names.
        unfold load_registry in Hch.
        now destruct (process_character_data cd ∅ ∅).
      * intros H. injection H as H. now apply by_context_in in H.
Qed.

End Resolution.

Lemma fold_left_preserves_in {A B : Type} (P : A -> Prop) (f : A -> B -> A)
    (l : list B) (a : A) :
  P a -> (forall x b, b ∈ l -> P x -> P (f x b)) -> P (fold_left f l a).
Proof.
  revert a. induction l as [|b l IH]; intros a Ha Hf; simpl; [exact Ha|].
  apply IH.
  - apply Hf; [apply list_elem_of_here|exact Ha].
  - intros x b' Hb'. apply Hf. now apply list_elem_of_further.
Qed.

Section Provenance.
Variable fz : option string -> string -> Z.
Variable reg : Registry.

Lemma store_quote_cases (q : Quote) (st : Loop) :
  l_quotes (store_quote q st) = l_quotes st
  \/ l_quotes (store_quote q st) = l_quotes st ++ [q].
Proof.
  unfold store_quote. destruct (is_duplicate (l_dedup st) q) as [[] dd]; simpl; auto.
Qed.

Lemma process_match_cases (b : Book) (p : regex * string) (m : mobj) (st : Loop) :
  m ∈ finditer p.1 (content b) ->
  l_quotes (process_match fz reg (number b) (content b) p.2 m st) = l_quotes st
  \/ exists q,
       l_quotes (process_match fz reg (number b) (content b) p.2 m st)
       = l_quotes st ++ [q]
       /\ produced fz reg b p m q.
Proof.
  intros Hm. unfold process_match, produced.
  destruct (raw_fields reg (content b) p.2 m) as [spk raw].
  destruct (is_valid_quote (clean_quote raw)) eqn:Hv; cbn [negb]; [|now left].
  destruct (DialogueContext.get_context (content b) (m_start m) (m_end m)) as [cb ca].
  destruct (Parser.resolve_speaker fz reg spk cb) as [[r|]|e] eqn:Hr; try now left.
  destruct (String.eqb r "") eqn:Hne; [now left|].
  destruct (bool_decide ((r, clean_quote raw) ∈ seen st)); [now left|].
  match goal with |- context [store_quote ?q st] =>
    destruct (store_quote_cases q st) as [E|E]; rewrite E; [now left|right; exists q]
  end.
  cbn [fst snd speaker]. apply String.eqb_neq in Hne. repeat split; assumption.
Qed.

Lemma extract_quotes_books (b : Book) (st st' : State) :
  extract_quotes fz reg b st = Ok st' -> books st' = books st.
Proof.
  unfold extract_quotes. destruct (String.eqb (content b) ""); [discriminate|].
  intros H. now injection H as <-.
Qed.

Lemma extract_quotes_sourced (bs : gmap string Book) (b : Book) (st st' : State) :
  bs !! number b = Some b -> number b ∈ roman_numerals ->
  Forall (sourced fz reg bs) (quotes st) ->
  extract_quotes fz reg b st = Ok st' ->
  Forall (sourced fz reg bs) (quotes st').
Proof.
  intros Hb Hnum Hall. unfold extract_quotes.
  destruct (String.eqb (content b) ""); [discriminate|].
  intros H. injection H as <-. cbn [quotes].
  apply (fold_left_preserves_in (fun l => Forall (sourced fz reg bs) (l_quotes l))
           (fun st0 p =>
              fold_left (fun st1 m => process_match fz reg (number b) (content b) p.2 m st1)
                        (finditer p.1 (content b)) st0)
           quote_patterns (mkLoop ∅ (dedup st) (quotes st)));
    [exact Hall|].
  intros x p Hp Hx.
  apply (fold_left_preserves_in (fun l => Forall (sourced fz reg bs) (l_quotes l)));
    [exact Hx|].
  intros y m Hm Hy.
  destruct (process_match_cases b p m y Hm) as [E|(q & E & Hq)]; rewrite E;
    [exact Hy|].
  apply Forall_app. split; [exact Hy|]. apply Forall_singleton.
  assert (Eb : book q = number b).
  { destruct Hq as (_ & _ & _ & _ & ->). reflexivity. }
  exists b, p, m. rewrite Eb. auto.
Qed.

Lemma process_numerals_sourced (numerals : list string) (st st' : State) :
  (forall k, k ∈ numerals -> k ∈ roman_numerals) ->
  books_keyed (books st) ->
  Forall (sourced fz reg (books st)) (quotes st) ->
  process_numerals fz reg numerals st = Ok st' ->
  books st' = books st /\ Forall (sourced fz reg (books st)) (quotes st').
Proof.
  revert st. induction numerals as [|k numerals IH]; intros st Hsub Hkeyed Hall;
    cbn [process_numerals].
  - intros H. injection H as <-. auto.
  - assert (Hsub' : forall k', k' ∈ numerals -> k' ∈ roman_numerals).
    { intros k' Hk'. apply Hsub. now apply list_elem_of_further. }
    destruct (books st !! k) as [b|] eqn:Hb; [|now apply IH].
    destruct (extract_quotes fz reg b st) as [st1|e] eqn:He; simpl; [|discriminate].
    pose proof (extract_quotes_books _ _ _ He) as Hbooks.
    assert (Hnum : number b = k) by now apply Hkeyed.
    intros H. apply IH in H; try assumption.
    + rewrite Hbooks in H. exact H.
    + now rewrite Hbooks.
    + rewrite Hbooks. apply (extract_quotes_sourced (books st) b st); try assumption.
      * now rewrite Hnum.
      * rewrite Hnum. apply Hsub, list_elem_of_here.
Qed.

End Provenance.

Lemma run_sourced
    (fz : option string -> string -> Z) (cd : list CharData) (txt : string)
    (st' : State) :
  run fz cd txt = Ok st' ->
  Forall (sourced fz (load_registry cd) (books st')) (quotes st').
Proof.
  unfold run. destruct (split_into_books txt init_state) as [st1|e] eqn:Hs;
    [|discriminate].
  cbn [bind]. unfold process_books. intros H.
  apply process_numerals_sourced in H as [Hb H].
  - now rewrite Hb.
  - auto.
  - now apply (books_keyed_split txt init_state).
  - unfold split_into_books in Hs. injection Hs as <-. apply Forall_nil_2.
Qed.

(** Every quote that a run emits comes from a match of a catalog pattern in
    the content of the book stored under the quote's number, one of the nine
    numerals of [process_books]: its pattern name is that of the pattern,
    its text is the cleaned quotation of the match, its contexts are the
    windows around the match, and its speaker is what [resolve_speaker]
    returns for the raw token and the context before. *)
Theorem emitted_quotes_come_from_matches
    (fz : option string -> string -> Z) (cd : list CharData) (txt : string)
    (st' : State) :
  run fz cd txt = Ok st' ->
  Forall (fun q =>
            exists b p m,
              books st' !! book q = Some b /\ number b = book q
              /\ book q ∈ roman_numerals
              /\ p ∈ quote_patterns /\ m ∈ finditer p.1 (content b)
              /\ pattern_matched q = p.2
              /\ text q = clean_quote (raw_fields (load_registry cd) (content b) p.2 m).2
              /\ (context_before q, context_after q)
                 = DialogueContext.get_context (content b) (m_start m) (m_end m)
              /\ Parser.resolve_speaker fz (load_registry cd)
                   (raw_fields (load_registry cd) (content b) p.2 m).1
                   (context_before q)
                 = Ok (Some (speaker q)))
         (quotes st').
Proof.
  intros H. apply run_sourced in H.
  eapply Forall_impl; [exact H|]. simpl.
  intros q (b & p & m & Hb & Hn & Hp & (Hm & _ & Hr & _ & Hq)).
  exists b, p, m.
  assert (E : book q = number b /\ pattern_matched q = p.2
              /\ text q = clean_quote (raw_fields (load_registry cd) (content b) p.2 m).2
              /\ context_before q
                 = (DialogueContext.get_context (content b) (m_start m) (m_end m)).1
              /\ context_after q
                 = (DialogueContext.get_context (content b) (m_start m) (m_end m)).2).
  { rewrite Hq. cbn [book pattern_matched text context_before context_after]. auto. }
  destruct E as (E1 & E2 & E3 & E4 & E5).
  repeat split; try assumption; try (symmetry; assumption).
  - rewrite E4, E5. now destruct (DialogueContext.get_context _ _ _).
  - now rewrite E4.
Qed.

Lemma emitted_quotes_come_from_matches_witness :
  Forall (fun q =>
            exists b p m,
              books Scenario.proverb_state !! book q = Some b /\ number b = book q
              /\ book q ∈ roman_numerals
              /\ p ∈ quote_patterns /\ m ∈ finditer p.1 (content b)
              /\ pattern_matched q = p.2
              /\ text q
                 = clean_quote
                     (raw_fields (load_registry Scenario.two_characters) (content b) p.2 m).2
              /\ (context_before q, context_after q)
                 = DialogueContext.get_context (content b) (m_start m) (m_end m)
              /\ Parser.resolve_speaker Scenario.indel_ratio
                   (load_registry Scenario.two_characters)
                   (raw_fields (load_registry Scenario.two_characters) (content b) p.2 m).1
                   (context_before q)
                 = Ok (Some (speaker q)))
         (quotes Scenario.proverb_state).
Proof.
  apply (emitted_quotes_come_from_matches Scenario.indel_ratio Scenario.two_characters
           Scenario.proverb_text Scenario.proverb_state).
  vm_compute. reflexivity.
Defined.

(** Every quote that a run emits has a speaker that is in the registry (a
    name or a variation of [characters.json]) and is not the empty string. *)
Theorem emitted_speakers_registered
    (fz : option string -> string -> Z) (cd : list CharData) (txt : string)
    (st' : State) :
  run fz cd txt = Ok st' ->
  Forall (fun q => speaker q ∈ characters (load_registry cd) /\ speaker q <> "")
         (quotes st').
Proof.
  intros H. apply run_sourced in H.
  eapply Forall_impl; [exact H|]. simpl.
  intros q (b & p & m & _ & _ & _ & (_ & _ & Hr & Hne & _)).
  split; [|exact Hne]. now apply resolve_speaker_in_characters in Hr.
Qed.

Lemma emitted_speakers_registered_witness :
  Forall (fun q => speaker q ∈ characters (load_registry Scenario.two_characters)
                   /\ speaker q <> "")
         (quotes Scenario.proverb_state).
Proof.
  apply (emitted_speakers_registered Scenario.indel_ratio Scenario.two_characters
           Scenario.proverb_text Scenario.proverb_state).
  vm_compute. reflexivity.
Defined.

(** *** Confidence *)

Lemma delayed_get_bounds (pn : string) (l : list (regex * string * Q)) (d lo hi : Q) :
  (lo <= d <= hi)%Q -> Forall (fun t => (lo <= t.2 <= hi)%Q) l ->
  (lo <= delayed_get pn l d <= hi)%Q.
Proof.
  revert d. induction l as [|[[r n] c] l IH]; intros d Hd Hl; cbn [delayed_get];
    [exact Hd|].
  apply Forall_cons in Hl as [Hc Hl]. apply IH; [|exact Hl].
  destruct (String.eqb n pn); [exact Hc|exact Hd].
Qed.

Lemma base_confidence_bounds (pn : string) :
  (0.75 <= base_confidence pn <= 1)%Q.
Proof.
  unfold base_confidence. destruct (startswith "delayed_attribution" pn).
  - apply delayed_get_bounds; [split; unfold Qle; simpl; lia|].
    unfold get_delayed_attribution_patterns.
    repeat (apply Forall_cons; split; [split; unfold Qle; simpl; lia|]).
    apply Forall_nil_2.
  - destruct (String.eqb pn "basic_quote"); [split; unfold Qle; simpl; lia|].
    destruct (String.eqb pn "split_quote"); [split; unfold Qle; simpl; lia|].
    destruct (String.eqb pn "quote_first"); split; unfold Qle; simpl; lia.
Qed.

Lemma adjusted_confidence_bounds (reg : Registry) (spk : option string)
    (r cb pn : string) :
  (0.6375 <= context_boost cb (resolution_penalty reg spk r (base_confidence pn))
   <= 1.1)%Q.
Proof.
  pose proof (base_confidence_bounds pn) as [H1 H2].
  unfold context_boost, resolution_penalty.
  destruct (contains_any _ (lower cb)); destruct (token_differs spk r);
    try destruct (token_in spk _); split; lra.
Qed.

(** The confidence of every quote that a run emits lies between 0.6375
    (the lowest base weight 0.75 under the penalty 0.85) and 1.1 (a base
    weight 1.0 under the boost 1.1): it can exceed 1. *)
Theorem emitted_confidence_bounds
    (fz : option string -> string -> Z) (cd : list CharData) (txt : string)
    (st' : State) :
  run fz cd txt = Ok st' ->
  Forall (fun q => (0.6375 <= confidence q <= 1.1)%Q) (quotes st').
Proof.
  intros H. apply run_sourced in H.
  eapply Forall_impl; [exact H|]. simpl.
  intros q (b & p & m & _ & _ & _ & (_ & _ & _ & _ & ->)). cbn [confidence].
  apply adjusted_confidence_bounds.
Qed.

Lemma emitted_confidence_bounds_witness :
  Forall (fun q => (0.6375 <= confidence q <= 1.1)%Q) (quotes Scenario.proverb_state).
Proof.
  apply (emitted_confidence_bounds Scenario.indel_ratio Scenario.two_characters
           Scenario.proverb_text Scenario.proverb_state).
  vm_compute. reflexivity.
Defined.

(** *** Validation *)

(** [is_valid_quote] accepts a text exactly when it passes the four
    rejection tests: at least four words, not entirely upper-case with equal
    counts of the two square brackets, no editorial beginning (digits and a
    full stop, an opening square bracket or parenthesis), and no editorial
    marker in its upper-cased form.  The positive indicators and the count
    of complete sentences never change the answer: the final length check
    holds whenever it is reached. *)
Theorem is_valid_quote_iff (q : string) :
  is_valid_quote q = true
  <-> (4 <= word_count q)%nat
      /\ isupper q = false
      /\ count_c "[" q = count_c "]" q
      /\ re_match editorial_re q = None
      /\ contains_any editorial_markers (upper q) = false.
Proof.
  unfold is_valid_quote. split.
  - destruct (word_count q <? 4)%nat eqn:Hw; [discriminate|].
    destruct (isupper q) eqn:Hu; [discriminate|].
    destruct (count_c "[" q =? count_c "]" q)%nat eqn:Hc; [|discriminate].
    cbn [orb negb].
    destruct (re_match editorial_re q) eqn:He.
    { rewrite bool_decide_eq_true_2 by eauto. discriminate. }
    destruct (contains_any editorial_markers (upper q)); [|intros _].
    { rewrite bool_decide_eq_false_2 by (intros [x Hx]; discriminate). discriminate. }
    apply Nat.ltb_ge in Hw. apply Nat.eqb_eq in Hc. auto.
  - intros (Hw & Hu & Hc & He & Hm).
    assert (Hw' : (word_count q <? 4)%nat = false) by now apply Nat.ltb_ge.
    rewrite Hw', Hu, Hc, Nat.eqb_refl, He, Hm. cbn [orb negb].
    rewrite bool_decide_eq_false_2 by (intros [x Hx]; discriminate).
    destruct (contains_any positive_indicators (lower q)); [reflexivity|].
    destruct (length _ <? _)%nat; [reflexivity|].
    now apply Nat.leb_le.
Qed.

(** The editorial markers are searched in the upper-cased text, so a text
    that contains a marker in any letter case, inside a word or not, is
    rejected: [ms] rejects a text with the word arms, [book] one with the
    word books. *)
Theorem editorial_marker_in_any_case (q w : string) :
  In w editorial_markers -> contains (lower w) (lower q) = true ->
  is_valid_quote q = false.
Proof.
  intros Hin Hc. apply (contains_smap upper_c) in Hc.
  fold (upper (lower w)) in Hc. fold (upper (lower q)) in Hc.
  rewrite !upper_lower in Hc.
  assert (Hw : upper w = w).
  { unfold editorial_markers in Hin. simpl in Hin.
    destruct Hin as [<-|[<-|[<-|[<-|[<-|[]]]]]]; reflexivity. }
  rewrite Hw in Hc.
  unfold is_valid_quote.
  destruct (word_count q <? 4)%nat; [reflexivity|].
  destruct (isupper q || negb (count_c "[" q =? count_c "]" q)%nat); [reflexivity|].
  destruct (bool_decide (is_Some (re_match editorial_re q))); [reflexivity|].
  now rewrite (contains_any_intro w _ _ Hin Hc).
Qed.

Lemma editorial_marker_in_any_case_witness :
  is_valid_quote "They took up arms against the king" = false.
Proof.
  apply (editorial_marker_in_any_case "They took up arms against the king" "MS").
  - simpl. auto.
  - vm_compute. reflexivity.
Defined.

(** *** Context windows *)

(** [get_context] returns two windows of at most 500 characters each, the
    first taken from the text before [start] and the second from the text
    after [stop], and neither begins or ends with whitespace. *)
Theorem get_context_windows (txt : string) (start stop : nat) :
  let c := DialogueContext.get_context txt start stop in
  (String.length c.1 <= 500 /\ String.length c.2 <= 500)
  /\ (contains c.1 (str_take start txt) = true
      /\ contains c.2 (str_drop stop txt) = true)
  /\ (trimmed is_space_c c.1 /\ trimmed is_space_c c.2).
Proof.
  unfold DialogueContext.get_context. cbn [fst snd]. unfold strip. repeat split.
  - pose proof (length_strip_by is_space_c
                  (slice (start - DialogueContext.window_size) start txt)) as H1.
    pose proof (length_slice (start - DialogueContext.window_size) start txt) as H2.
    unfold DialogueContext.window_size in *. lia.
  - pose proof (length_strip_by is_space_c
       (slice stop (String.length txt `min` (stop + DialogueContext.window_size)) txt)) as H1.
    pose proof (length_slice stop
       (String.length txt `min` (stop + DialogueContext.window_size)) txt) as H2.
    unfold DialogueContext.window_size in *. lia.
  - eapply contains_trans; [apply contains_strip_by|].
    unfold slice. rewrite <- drop_take. apply contains_drop.
  - eapply contains_trans; [apply contains_strip_by|].
    unfold slice. apply contains_take.
  - apply strip_by_trimmed.
  - apply strip_by_trimmed.
  - apply strip_by_trimmed.
  - apply strip_by_trimmed.
Qed.

(** *** The registry *)

Lemma process_character_data_spec (cd : list CharData) (cs : gset string)
    (cv : gmap string (list string)) (s : string) :
  s ∈ (process_character_data cd cs cv).1
  <-> s ∈ cs \/ exists ch, ch ∈ cd /\ (s = name ch \/ s ∈ default [] (variations ch)).
Proof.
  revert cs cv. induction cd as [|ch cd IH]; intros cs cv; cbn [process_character_data].
  - split; [now left|]. intros [H|(ch & H & _)]; [exact H|inversion H].
  - rewrite IH. split.
    + intros [H|(ch' & Hin & H)].
      * apply elem_of_union in H as [H|H].
        -- apply elem_of_union in H as [H|H]; [now left|].
           apply elem_of_singleton in H. right. exists ch.
           split; [apply list_elem_of_here|now left].
        -- apply elem_of_list_to_set in H. right. exists ch.
           split; [apply list_elem_of_here|now right].
      * right. exists ch'. split; [now apply list_elem_of_further|exact H].
    + intros [H|(ch' & Hin & H)].
      * left. now apply elem_of_union_l, elem_of_union_l.
      * apply elem_of_cons in Hin as [->|Hin].
        -- left. destruct H as [->|H].
           ++ apply elem_of_union_l, elem_of_union_r. now apply elem_of_singleton.
           ++ apply elem_of_union_r. now apply elem_of_list_to_set.
        -- right. exists ch'. auto.
Qed.

Lemma process_character_data_lookup (l1 l2 : list CharData) (ch : CharData)
    (cs : gset string) (cv : gmap string (list string)) :
  (forall c, c ∈ l2 -> name c <> name ch) ->
  (process_character_data (l1 ++ ch :: l2) cs cv).2 !! name ch
  = Some (default [] (variations ch)).
Proof.
  intros Hl2. revert cs cv. induction l1 as [|c l1 IH]; intros cs cv.
  - cbn [app process_character_data].
    generalize (cs ∪ {[name ch]} ∪ list_to_set (default [] (variations ch))).
    assert (H : (<[name ch:=default [] (variations ch)]> cv) !! name ch
                = Some (default [] (variations ch))) by apply lookup_insert_eq.
    revert H. generalize (<[name ch:=default [] (variations ch)]> cv).
    clear cs cv. induction l2 as [|c l2 IH2]; intros cv H cs; [exact H|].
    cbn [process_character_data]. apply IH2.
    + intros c' Hc'. apply Hl2. now apply list_elem_of_further.
    + rewrite lookup_insert_ne; [exact H|]. apply Hl2, list_elem_of_here.
  - cbn [app process_character_data]. apply IH.
Qed.

Lemma character_variations_load_registry (cd : list CharData) :
  character_variations (load_registry cd) = (process_character_data cd ∅ ∅).2.
Proof. unfold load_registry. now destruct (process_character_data cd ∅ ∅). Qed.

Lemma character_data_load_registry (cd : list CharData) :
  character_data (load_registry cd) = cd.
Proof. unfold load_registry. now destruct (process_character_data cd ∅ ∅). Qed.

(** [process_character_data] fills [self.characters] with exactly the
    names and the variations of the records, and maps every name to the
    variations of the last record of that name (an empty list when the
    record has no key [variations]). *)
Theorem registry_holds_names_and_variations (cd : list CharData) :
  (forall s, s ∈ characters (load_registry cd)
             <-> exists ch, ch ∈ cd /\ (s = name ch \/ s ∈ default [] (variations ch)))
  /\ (forall l1 ch l2, cd = l1 ++ ch :: l2 ->
        (forall c, c ∈ l2 -> name c <> name ch) ->
        character_variations (load_registry cd) !! name ch
        = Some (default [] (variations ch))).
Proof.
  split.
  - intros s. rewrite characters_load_registry, process_character_data_spec.
    split; [intros [H|H]; [set_solver|exact H]|auto].
  - intros l1 ch l2 -> H. rewrite character_variations_load_registry.
    now apply process_character_data_lookup.
Qed.

(** *** Tokens outside the registry *)

Lemma by_variation_unregistered (spk : option string) (ctx : string) (l : list CharData) :
  (forall ch vs, ch ∈ l -> variations ch = Some vs -> token_in spk vs = false) ->
  by_variation spk ctx l
  = if forallb has_variations l then Ok None else Err (KeyError "variations").
Proof.
  induction l as [|ch l IH]; intros H; cbn [by_variation forallb]; [reflexivity|].
  unfold has_variations at 1.
  destruct (variations ch) as [vs|] eqn:E; [|reflexivity].
  rewrite (H ch vs (list_elem_of_here _ _) E). cbn [andb].
  apply IH. intros ch' vs' Hin. apply H. now apply list_elem_of_further.
Qed.

(** For a token that is not in the registry and has no fuzzy match, the
    loop over the variations of [resolve_speaker] never returns a name (a
    variation would be in the registry): when every record has the key
    [variations] the answer is that of the scan of the context for a
    registered word near a speech indicator, and when some record lacks the
    key the call raises [KeyError], whatever the context. *)
Theorem resolve_speaker_unregistered (fz : option string -> string -> Z)
    (cd : list CharData) (spk : option string) (ctx : string) :
  in_characters (load_registry cd) spk = false ->
  truthy (best_fuzzy fz spk (elements (characters (load_registry cd))) None 0) = false ->
  Parser.resolve_speaker fz (load_registry cd) spk ctx
  = if forallb has_variations cd
    then Ok (by_context (load_registry cd) (split ctx) 0 (split ctx))
    else Err (KeyError "variations").
Proof.
  intros Hin Hf. unfold Parser.resolve_speaker. cbv zeta. rewrite Hin, Hf.
  rewrite character_data_load_registry, by_variation_unregistered.
  - now destruct (forallb has_variations cd).
  - intros ch vs Hch Hvs. destruct spk as [s|]; [|reflexivity].
    cbn [token_in in_characters] in *. apply bool_decide_eq_false.
    apply bool_decide_eq_false in Hin. intros Hs. apply Hin.
    rewrite characters_load_registry.
    now apply (process_character_data_variations cd ∅ ∅ ch vs s).
Qed.

Lemma resolve_speaker_unregistered_witness :
  Parser.resolve_speaker Scenario.indel_ratio
    (load_registry [mkChar "Croesus" (Some ["Kroisos"]); mkChar "Solon" None])
    (Some "Zeus") "Then Solon said to Zeus"
  = Err (KeyError "variations").
Proof.
  apply (resolve_speaker_unregistered Scenario.indel_ratio
           [mkChar "Croesus" (Some ["Kroisos"]); mkChar "Solon" None]
           (Some "Zeus") "Then Solon said to Zeus");
    vm_compute; reflexivity.
Defined.

(** *** The deduplicator *)

(** [is_duplicate] never removes an entry of the deduplicator: an answer
    [True] leaves the dict as it was, the text of the candidate has an entry
    afterwards, and every entry that was there is still there, under the
    same book and with a confidence that is not lower. *)
Theorem is_duplicate_keeps_entries (dd : gmap string Quote) (q : Quote) :
  ((is_duplicate dd q).1 = true -> (is_duplicate dd q).2 = dd)
  /\ is_Some ((is_duplicate dd q).2 !! strip (text q))
  /\ (forall k e, dd !! k = Some e ->
        exists e', (is_duplicate dd q).2 !! k = Some e'
                   /\ book e' = book e
                   /\ (confidence e <= confidence e')%Q).
Proof.
  unfold is_duplicate.
  destruct (dd !! strip (text q)) as [existing|] eqn:Hl.
  - destruct (String.eqb (speaker existing) (speaker q)
              && String.eqb (book existing) (book q)) eqn:Hsb; cbn [fst snd].
    { split; [auto|]. split; [rewrite Hl; eauto|].
      intros k e He. exists e. split; [exact He|]. split; [reflexivity|apply Qle_refl]. }
    destruct (String.eqb (book existing) (book q)) eqn:Hb.
    + destruct (qltb (confidence q) (confidence existing)) eqn:Hc; cbn [fst snd].
      { split; [auto|]. split; [rewrite Hl; eauto|].
        intros k e He. exists e. split; [exact He|]. split; [reflexivity|apply Qle_refl]. }
      split; [discriminate|]. split; [rewrite lookup_insert_eq; eauto|].
      intros k e He. destruct (decide (strip (text q) = k)) as [<-|Hne].
      * rewrite lookup_insert_eq. exists q. split; [reflexivity|].
        rewrite Hl in He. injection He as <-.
        apply String.eqb_eq in Hb. apply qltb_ge in Hc. auto.
      * rewrite lookup_insert_ne by exact Hne. exists e.
        split; [exact He|]. split; [reflexivity|apply Qle_refl].
    + cbn [fst snd]. split; [discriminate|]. split; [rewrite Hl; eauto|].
      intros k e He. exists e. split; [exact He|]. split; [reflexivity|apply Qle_refl].
  - cbn [fst snd]. split; [discriminate|]. split; [rewrite lookup_insert_eq; eauto|].
    intros k e He. destruct (decide (strip (text q) = k)) as [<-|Hne].
    + rewrite Hl in He. discriminate.
    + rewrite lookup_insert_ne by exact Hne. exists e.
      split; [exact He|]. split; [reflexivity|apply Qle_refl].
Qed.

Lemma is_duplicate_cases (dd : gmap string Quote) (q : Quote) :
  (exists e, dd !! strip (text q) = Some e /\ book e <> book q
             /\ is_duplicate dd q = (false, dd))
  \/ (exists e, dd !! strip (text q) = Some e /\ book e = book q
                /\ is_duplicate dd q = (true, dd))
  \/ ((forall e, dd !! strip (text q) = Some e -> book e = book q)
      /\ is_duplicate dd q = (false, <[strip (text q):=q]> dd)).
Proof.
  unfold is_duplicate.
  destruct (dd !! strip (text q)) as [existing|] eqn:Hl.
  - destruct (String.eqb_spec (book existing) (book q)) as [Hb|Hb].
    + destruct (String.eqb (speaker existing) (speaker q)); cbn [andb].
      * right. left. eauto.
      * destruct (qltb (confidence q) (confidence existing)).
        -- right. left. eauto.
        -- right. right. split; [|reflexivity]. intros e He. now injection He as <-.
    + rewrite andb_false_r. left. eauto.
  - right. right. split; [discriminate|reflexivity].
Qed.

(** Asking [is_duplicate] a second time about the same quote changes
    nothing in the dict, and the second answer is [True] unless the text was
    first stored under another book: then the quote is never a duplicate,
    however often it is presented. *)
Theorem is_duplicate_again (dd : gmap string Quote) (q : Quote) :
  (is_duplicate (is_duplicate dd q).2 q).2 = (is_duplicate dd q).2
  /\ ((is_duplicate (is_duplicate dd q).2 q).1 = false
      <-> exists e, dd !! strip (text q) = Some e /\ book e <> book q).
Proof.
  destruct (is_duplicate_cases dd q)
    as [(e & Hl & Hb & H)|[(e & Hl & Hb & H)|(Hb & H)]]; rewrite H; cbn [fst snd].
  - rewrite H. cbn [fst snd]. split; [reflexivity|]. split; [eauto|reflexivity].
  - rewrite H. cbn [fst snd]. split; [reflexivity|]. split; [discriminate|].
    intros (e' & He' & Hne). rewrite Hl in He'. injection He' as <-. contradiction.
  - assert (Hins : is_duplicate (<[strip (text q):=q]> dd) q
                   = (true, <[strip (text q):=q]> dd)).
    { unfold is_duplicate. now rewrite lookup_insert_eq, !String.eqb_refl. }
    rewrite Hins. cbn [fst snd]. split; [reflexivity|]. split; [discriminate|].
    intros (e' & He' & Hne). now apply Hb in He'.
Qed.

(** *** The speaker of a split quotation *)

Lemma rfind_contains (sub s : string) (i : nat) :
  rfind sub s = Some i -> contains sub s = true.
Proof.
  revert i. induction s as [|c s IH]; intros i; cbn [rfind contains].
  - destruct (String.prefix sub ""); [reflexivity|discriminate].
  - destruct (rfind sub s) as [j|].
    + intros _. rewrite (IH j eq_refl). apply orb_true_r.
    + destruct (String.prefix sub (String c s)); [reflexivity|discriminate].
Qed.

Lemma greatest_in (best : nat * string) (l : list (nat * string)) :
  DialogueContext.greatest best l ∈ best :: l.
Proof.
  revert best. induction l as [|c l IH]; intros best; cbn [DialogueContext.greatest].
  - apply list_elem_of_here.
  - specialize (IH (if DialogueContext.cand_ltb best c then c else best)).
    apply elem_of_cons in IH as [IH|IH].
    + rewrite IH. destruct (DialogueContext.cand_ltb best c).
      * apply list_elem_of_further, list_elem_of_here.
      * apply list_elem_of_here.
    + now do 2 apply list_elem_of_further.
Qed.

Lemma greatest_ge (best : nat * string) (l : list (nat * string)) :
  best.1 <= (DialogueContext.greatest best l).1.
Proof.
  revert best. induction l as [|c l IH]; intros best; cbn [DialogueContext.greatest];
    [lia|].
  specialize (IH (if DialogueContext.cand_ltb best c then c else best)).
  destruct (DialogueContext.cand_ltb best c) eqn:E; [|exact IH].
  unfold DialogueContext.cand_ltb in E.
  apply orb_true_iff in E as [E|E].
  - apply Nat.ltb_lt in E. lia.
  - apply andb_true_iff in E as [E _]. apply Nat.eqb_eq in E. lia.
Qed.

Lemma greatest_max (best : nat * string) (l : list (nat * string)) (x : nat * string) :
  x ∈ best :: l -> x.1 <= (DialogueContext.greatest best l).1.
Proof.
  revert best. induction l as [|c l IH]; intros best Hx; cbn [DialogueContext.greatest].
  - apply list_elem_of_singleton in Hx. subst x. lia.
  - apply elem_of_cons in Hx as [->|Hx].
    + pose proof (greatest_ge (if DialogueContext.cand_ltb best c then c else best) l) as H.
      destruct (DialogueContext.cand_ltb best c) eqn:E; [|exact H].
      unfold DialogueContext.cand_ltb in E.
      apply orb_true_iff in E as [E|E].
      * apply Nat.ltb_lt in E. lia.
      * apply andb_true_iff in E as [E _]. apply Nat.eqb_eq in E. lia.
    + apply elem_of_cons in Hx as [->|Hx].
      * pose proof (greatest_ge (if DialogueContext.cand_ltb best c then c else best) l) as H.
        destruct (DialogueContext.cand_ltb best c) eqn:E; [exact H|].
        unfold DialogueContext.cand_ltb in E.
        apply orb_false_iff in E as [E1 E2]. apply Nat.ltb_ge in E1. lia.
      * apply IH. now apply list_elem_of_further.
Qed.

(** The speaker that [find_speaker_in_context] returns is a registered
    name whose last occurrence in the window of 500 characters before the
    position is followed by a speech indicator, and no registered name with
    that property has its last occurrence further to the right. *)
Theorem find_speaker_in_context_sound (txt : string) (characters : gset string)
    (position : nat) (r : string) :
  DialogueContext.find_speaker_in_context txt characters position = Some r ->
  let context := slice (position - 500) position txt in
  r ∈ characters
  /\ exists i,
       rfind r context = Some i
       /\ contains_any DialogueContext.speech_indicators (lower (str_drop i context)) = true
       /\ forall c j, c ∈ characters -> rfind c context = Some j ->
            contains_any DialogueContext.speech_indicators (lower (str_drop j context)) = true ->
            j <= i.
Proof.
  unfold DialogueContext.find_speaker_in_context. cbv zeta.
  change DialogueContext.window_size with 500.
  set (context := slice (position - 500) position txt).
  set (f := fun char : string =>
              if contains char context then
                match rfind char context with
                | Some char_pos =>
                    if contains_any DialogueContext.speech_indicators
                         (lower (str_drop char_pos context))
                    then Some (char_pos, char) else None
                | None => None
                end
              else None).
  assert (Hf : forall c p, f c = Some p ->
             p.2 = c /\ rfind c context = Some p.1
             /\ contains_any DialogueContext.speech_indicators
                  (lower (str_drop p.1 context)) = true).
  { intros c p. unfold f. destruct (contains c context); [|discriminate].
    destruct (rfind c context) as [j|]; [|discriminate].
    destruct (contains_any _ _) eqn:E; [|discriminate].
    intros H. injection H as <-. auto. }
  destruct (omap f (elements characters)) as [|c0 l] eqn:Ho; [discriminate|].
  intros H. injection H as <-.
  pose proof (greatest_in c0 l) as Hin. rewrite <- Ho in Hin.
  apply list_elem_of_omap in Hin as (c & Hc & Hfc).
  apply Hf in Hfc as (E1 & E2 & E3). split.
  - rewrite E1. now apply elem_of_elements.
  - exists (DialogueContext.greatest c0 l).1. rewrite E1. split; [exact E2|].
    split; [exact E3|].
    intros c' j Hc' Hr Hi.
    assert (Hcand : (j, c') ∈ c0 :: l).
    { rewrite <- Ho. apply list_elem_of_omap. exists c'.
      split; [now apply elem_of_elements|].
      unfold f. now rewrite (rfind_contains _ _ _ Hr), Hr, Hi. }
    apply (greatest_max c0 l (j, c') Hcand).
Qed.

Lemma find_speaker_in_context_sound_witness :
  let context := slice (36 - 500) 36 "Croesus said to Cyrus and he replied" in
  "Cyrus" ∈ ({[ "Croesus"; "Cyrus" ]} : gset string)
  /\ exists i,
       rfind "Cyrus" context = Some i
       /\ contains_any DialogueContext.speech_indicators (lower (str_drop i context)) = true
       /\ forall c j, c ∈ ({[ "Croesus"; "Cyrus" ]} : gset string) ->
            rfind c context = Some j ->
            contains_any DialogueContext.speech_indicators (lower (str_drop j context)) = true ->
            j <= i.
Proof.
  apply (find_speaker_in_context_sound "Croesus said to Cyrus and he replied"
           {[ "Croesus"; "Cyrus" ]} 36 "Cyrus").
  vm_compute. reflexivity.
Defined.

(** *** Resolved speakers *)

(** Whatever [resolve_speaker] returns is in the registry: a name of
    [characters.json] or one of its variations. *)
Theorem resolve_speaker_returns_registered (fz : option string -> string -> Z)
    (cd : list CharData) (spk : option string) (ctx r : string) :
  Parser.resolve_speaker fz (load_registry cd) spk ctx = Ok (Some r) ->
  r ∈ characters (load_registry cd)
  /\ exists ch, ch ∈ cd /\ (r = name ch \/ r ∈ default [] (variations ch)).
Proof.
  intros H. apply resolve_speaker_in_characters in H. split; [exact H|].
  rewrite characters_load_registry, process_character_data_spec in H.
  destruct H as [H|H]; [set_solver|exact H].
Qed.

Lemma resolve_speaker_returns_registered_witness :
  "Croesus" ∈ characters (load_registry Scenario.two_characters)
  /\ exists ch, ch ∈ Scenario.two_characters
                /\ ("Croesus" = name ch \/ "Croesus" ∈ default [] (variations ch)).
Proof.
  apply (resolve_speaker_returns_registered Scenario.indel_ratio
           Scenario.two_characters (Some "Croesos") "Croesos was silent" "Croesus").
  vm_compute. reflexivity.
Defined.

(** *** Base confidences against the catalog *)

(** The base confidence of a delayed tier is its catalog weight only when
    the name of the tier begins with [delayed_attribution]; the tiers
    [delayed_indirect_speech], [group_dialogue], [conversation_marker] and
    [response_pattern] get 1.0, the confidence of a direct attribution. *)
Theorem catalog_weight_used_by_prefix (r : regex) (n : string) (w : Q) :
  In (r, n, w) get_delayed_attribution_patterns ->
  base_confidence n = if startswith "delayed_attribution" n then w else 1.0%Q.
Proof.
  unfold get_delayed_attribution_patterns. cbn [In].
  intros [H|[H|[H|[H|[H|[H|[H|[H|[]]]]]]]]]; injection H as <- <- <-; reflexivity.
Qed.

Lemma catalog_weight_used_by_prefix_witness :
  base_confidence "group_dialogue" = 1.0%Q.
Proof.
  apply (catalog_weight_used_by_prefix
           (Seqs [Alt (Lit "they") (Seqs [Lit "the"; WS1; Upper; Plus true Lower]);
                  GAP; Lit "to"; WS1; Grp 1 NAME; GAP; QUOTED 2])
           "group_dialogue" 0.75%Q).
  unfold get_delayed_attribution_patterns. cbn [In]. do 4 right. left. reflexivity.
Defined.

(** *** Replacing the runs of a character class *)

Section StarTotal.
Context {R : Type}.

(** A greedy repetition of a class before a continuation that always
    succeeds takes the whole run. *)
Lemma star_class_total (p : ascii -> bool) (k : @cont R) (s : string)
    (fuel pos : nat) (cs : caps) :
  (forall pos' s' cs', is_Some (k pos' s' cs')) ->
  String.length s <= fuel ->
  star_loop (rmatch (Chr p)) true k fuel pos s cs
  = k (pos + String.length (span p s).1) (span p s).2 cs.
Proof.
  intros Hk. revert fuel pos.
  induction s as [|c s IH]; intros fuel pos Hfuel.
  - simpl. rewrite Nat.add_0_r. now destruct fuel.
  - simpl span. destruct (p c) eqn:Hc.
    + destruct fuel as [|fuel]; [simpl in Hfuel; lia|].
      cbn [star_loop]. rewrite rmatch_Chr, Hc.
      assert (Hlt : (pos <? S pos)%nat = true) by (apply Nat.ltb_lt; lia).
      rewrite Hlt, IH by (simpl in Hfuel; lia).
      cbn [fst snd String.length]. rewrite <- Nat.add_succ_comm.
      now destruct (Hk (S pos + String.length (span p s).1) (span p s).2 cs) as [x ->].
    + cbn [fst snd String.length]. rewrite Nat.add_0_r.
      destruct fuel as [|fuel]; [reflexivity|].
      cbn [star_loop]. now rewrite rmatch_Chr, Hc.
Qed.

Lemma plus_class_total (p : ascii -> bool) (k : @cont R) (s : string)
    (pos : nat) (cs : caps) :
  (forall pos' s' cs', is_Some (k pos' s' cs')) ->
  rmatch (Plus true (Chr p)) pos s cs k
  = if String.eqb (span p s).1 ""
    then None
    else k (pos + String.length (span p s).1) (span p s).2 cs.
Proof.
  intros Hk. unfold Plus. rewrite rmatch_Seq, rmatch_Chr.
  destruct s as [|c s]; [reflexivity|].
  simpl span. destruct (p c); [|reflexivity].
  rewrite rmatch_Star, star_class_total by (exact Hk || lia).
  cbn [fst snd String.length String.eqb]. now rewrite Nat.add_succ_comm.
Qed.

End StarTotal.

Lemma match_at_plus_class (p : ascii -> bool) (pos : nat) (s : string) :
  match_at (Plus true (Chr p)) pos s
  = if String.eqb (span p s).1 "" then None
    else Some (pos + String.length (span p s).1, (span p s).2, []).
Proof.
  unfold match_at. rewrite plus_class_total; [reflexivity|]. intros; eauto.
Qed.

Lemma squeeze_span (p : ascii -> bool) (rep : string) (s : string) :
  squeeze p rep true s = squeeze p rep false (span p s).2.
Proof.
  induction s as [|c s IH]; [reflexivity|]. cbn [squeeze span].
  destruct (p c) eqn:E; cbn [snd]; [exact IH|].
  cbn [squeeze]. now rewrite E.
Qed.

Lemma drop_span (p : ascii -> bool) (t : string) :
  str_drop (String.length (span p t).1) t = (span p t).2.
Proof.
  induction t as [|c t IH]; [reflexivity|]. cbn [span].
  destruct (p c); cbn [fst snd String.length str_drop]; [exact IH|reflexivity].
Qed.

Lemma join_cons (rep x : string) (l : list string) :
  l <> [] -> join rep (x :: l) = x +:+ rep +:+ join rep l.
Proof. destruct l; [congruence|reflexivity]. Qed.

Lemma pieces_nonempty (text : string) (prev : nat) (ms : list mobj) :
  pieces text prev ms <> [].
Proof. destruct ms; discriminate. Qed.

Lemma slice_snoc (prev pos : nat) (text : string) (c : ascii) (t : string) :
  prev <= pos -> str_drop pos text = String c t ->
  slice prev (S pos) text = slice prev pos text +:+ String c "".
Proof.
  intros Hle Hd. unfold slice.
  replace (S pos - prev) with (S (pos - prev)) by lia.
  assert (E : str_drop (pos - prev) (str_drop prev text) = String c t).
  { rewrite drop_drop. now replace (prev + (pos - prev)) with pos by lia. }
  revert E. generalize (str_drop prev text). generalize (pos - prev).
  intros n. induction n as [|n IH]; intros s E.
  - simpl in E. now rewrite E.
  - destruct s as [|d s]; [discriminate|]. cbn [str_take str_drop] in *.
    rewrite app_cons. f_equal. now apply IH.
Qed.

Lemma slice_same (a : nat) (text : string) : slice a a text = "".
Proof. unfold slice. now rewrite Nat.sub_diag. Qed.

(** The scan for the runs of a class, read through [pieces] and [join] *)
Lemma scan_plus_class (p : ascii -> bool) (rep text : string) (fuel prev pos : nat)
    (s : string) :
  s = str_drop pos text -> prev <= pos -> String.length s < fuel ->
  join rep (pieces text prev (scan fuel (Plus true (Chr p)) pos s))
  = slice prev pos text +:+ squeeze p rep false s.
Proof.
  revert prev pos s. induction fuel as [|fuel IH]; intros prev pos s Hs Hle Hlen; [lia|].
  cbn [scan]. rewrite match_at_plus_class.
  destruct s as [|c t].
  - cbn [span fst String.eqb pieces join squeeze]. rewrite app_nil_r_s.
    unfold slice. rewrite <- (take_drop_s (pos - prev) (str_drop prev text)) at 1.
    rewrite drop_drop. replace (prev + (pos - prev)) with pos by lia.
    now rewrite <- Hs, app_nil_r_s.
  - cbn [span squeeze]. destruct (p c) eqn:Hc; cbn [fst snd].
    + cbn [String.eqb String.length].
      assert (Hlt : (pos <? pos + S (String.length (span p t).1))%nat = true)
        by (apply Nat.ltb_lt; lia).
      rewrite Hlt. cbn [pieces m_start m_end].
      rewrite join_cons by apply pieces_nonempty.
      rewrite IH.
      * rewrite slice_same, app_nil_l, squeeze_span. reflexivity.
      * rewrite <- Nat.add_succ_comm.
        replace (S pos + String.length (span p t).1)
          with (pos + 1 + String.length (span p t).1) by lia.
        rewrite <- !drop_drop, <- Hs. cbn [str_drop].
        symmetry. apply drop_span.
      * lia.
      * pose proof (span_app p t) as Hsp. cbn [String.length] in Hlen.
        rewrite <- Hsp, length_app in Hlen. lia.
    + cbn [String.eqb]. rewrite IH.
      * rewrite (slice_snoc prev pos text c t Hle (eq_sym Hs)).
        now rewrite app_assoc_s.
      * replace (S pos) with (pos + 1) by lia. now rewrite <- drop_drop, <- Hs.
      * lia.
      * cbn [String.length] in Hlen. lia.
Qed.

Lemma re_sub_plus_class (p : ascii -> bool) (rep text : string) :
  re_sub (Plus true (Chr p)) rep text = squeeze p rep false text.
Proof.
  unfold re_sub, finditer. rewrite (scan_plus_class p rep text _ 0 0 text); try lia; auto.
Qed.

(** *** What the cleaning steps keep *)

Lemma squeeze_sforall (q p : ascii -> bool) (rep : string) (b : bool) (s : string) :
  sforall q rep = true -> sforall q s = true -> sforall q (squeeze p rep b s) = true.
Proof.
  intros Hrep. revert b. induction s as [|c s IH]; intros b Hs; [reflexivity|].
  cbn [sforall] in Hs. apply andb_true_iff in Hs as [Hc Hs]. cbn [squeeze].
  destruct (p c).
  - destruct b; [now apply IH|]. rewrite sforall_app, Hrep. now apply IH.
  - cbn [sforall]. rewrite Hc. now apply IH.
Qed.

Lemma squeeze_removes (p : ascii -> bool) (b : bool) (s : string) :
  sforall (fun c => negb (p c)) (squeeze p "" b s) = true.
Proof.
  revert b. induction s as [|c s IH]; intros b; [reflexivity|]. cbn [squeeze].
  destruct (p c) eqn:Hc.
  - destruct b; [apply IH|]. rewrite app_nil_l. apply IH.
  - cbn [sforall]. rewrite Hc. apply IH.
Qed.

Lemma squeeze_single_spaced (b : bool) (s : string) :
  single_spaced b (squeeze is_space_c " " b s) = true.
Proof.
  revert b. induction s as [|c s IH]; intros b; [reflexivity|]. cbn [squeeze].
  destruct (is_space_c c) eqn:Hc.
  - destruct b; [apply IH|].
    change (" " +:+ squeeze is_space_c " " true s)
      with (String " " (squeeze is_space_c " " true s)).
    cbn [single_spaced]. change (is_space_c " ") with true. cbn iota.
    rewrite IH. reflexivity.
  - cbn [single_spaced]. rewrite Hc. apply IH.
Qed.

Lemma single_spaced_weaken (s : string) :
  single_spaced true s = true -> single_spaced false s = true.
Proof.
  destruct s as [|c s]; [reflexivity|]. cbn [single_spaced].
  destruct (is_space_c c); [|auto]. rewrite andb_false_r. discriminate.
Qed.

Lemma single_spaced_suffix (b : bool) (pre s : string) :
  single_spaced b (pre +:+ s) = true -> single_spaced false s = true.
Proof.
  revert b. induction pre as [|c pre IH]; intros b H.
  - rewrite app_nil_l in H. destruct b; [now apply single_spaced_weaken|exact H].
  - rewrite app_cons in H. cbn [single_spaced] in H.
    destruct (is_space_c c).
    + apply andb_true_iff in H as [_ H]. now apply (IH true).
    + now apply (IH false).
Qed.

Lemma single_spaced_prefix (b : bool) (s post : string) :
  single_spaced b (s +:+ post) = true -> single_spaced b s = true.
Proof.
  revert b. induction s as [|c s IH]; intros b H; [reflexivity|].
  rewrite app_cons in H. cbn [single_spaced] in *.
  destruct (is_space_c c).
  - apply andb_true_iff in H as [H1 H]. rewrite H1. now apply IH.
  - now apply IH.
Qed.

Lemma strip_by_single_spaced (p : ascii -> bool) (s : string) :
  single_spaced false s = true -> single_spaced false (strip_by p s) = true.
Proof.
  intros H. unfold strip_by.
  destruct (lstrip_by_suffix p s) as [pre Hpre].
  destruct (rstrip_by_prefix p (lstrip_by p s)) as [post Hpost].
  rewrite Hpre in H. apply single_spaced_suffix in H.
  rewrite Hpost in H. now apply single_spaced_prefix in H.
Qed.

Lemma strip_by_sforall (q p : ascii -> bool) (s : string) :
  sforall q s = true -> sforall q (strip_by p s) = true.
Proof.
  intros H. unfold strip_by.
  destruct (lstrip_by_suffix p s) as [pre Hpre].
  destruct (rstrip_by_prefix p (lstrip_by p s)) as [post Hpost].
  rewrite Hpre, sforall_app in H. apply andb_true_iff in H as [_ H].
  rewrite Hpost, sforall_app in H. now apply andb_true_iff in H as [H _].
Qed.

Lemma str_take_sforall (q : ascii -> bool) (n : nat) (s : string) :
  sforall q s = true -> sforall q (str_take n s) = true.
Proof.
  intros H. rewrite <- (take_drop_s n s), sforall_app in H.
  now apply andb_true_iff in H as [H _].
Qed.

Lemma str_drop_sforall (q : ascii -> bool) (n : nat) (s : string) :
  sforall q s = true -> sforall q (str_drop n s) = true.
Proof.
  intros H. rewrite <- (take_drop_s n s), sforall_app in H.
  now apply andb_true_iff in H as [_ H].
Qed.

Lemma pieces_sforall (q : ascii -> bool) (text : string) (prev : nat) (ms : list mobj) :
  sforall q text = true -> Forall (fun x => sforall q x = true) (pieces text prev ms).
Proof.
  intros H. revert prev. induction ms as [|m ms IH]; intros prev; cbn [pieces].
  - apply Forall_singleton. now apply str_drop_sforall.
  - apply Forall_cons. split; [|apply IH].
    unfold slice. now apply str_take_sforall, str_drop_sforall.
Qed.

Lemma join_sforall (q : ascii -> bool) (rep : string) (l : list string) :
  sforall q rep = true -> Forall (fun x => sforall q x = true) l ->
  sforall q (join rep l) = true.
Proof.
  intros Hrep. induction l as [|x l IH]; intros H; [reflexivity|].
  apply Forall_cons in H as [Hx H].
  destruct l as [|y l]; [exact Hx|].
  rewrite join_cons by discriminate.
  rewrite !sforall_app, Hx, Hrep. now apply IH.
Qed.

(** A substitution keeps every property of the characters that the text
    and the replacement have. *)
Lemma re_sub_sforall (q : ascii -> bool) (r : regex) (rep text : string) :
  sforall q rep = true -> sforall q text = true ->
  sforall q (re_sub r rep text) = true.
Proof.
  intros Hrep H. unfold re_sub. apply join_sforall; [exact Hrep|].
  now apply pieces_sforall.
Qed.

Lemma single_spaced_trimmed (chars : string) (s : string) :
  in_chars chars " " = true ->
  single_spaced false s = true -> trimmed (in_chars chars) s ->
  trimmed is_space_c s.
Proof.
  intros Hsp Hss [Hstart Hend]. split.
  - destruct s as [|c s]; [reflexivity|]. cbn [starts_with_c single_spaced] in *.
    destruct (is_space_c c); [|reflexivity].
    apply andb_true_iff in Hss as [Hss _]. apply andb_true_iff in Hss as [Hc _].
    apply Ascii.eqb_eq in Hc. subst c. congruence.
  - clear Hstart.
    assert (H : forall b, single_spaced b s = true ->
                ends_with_c (in_chars chars) s = false ->
                ends_with_c is_space_c s = false); [|now apply (H false)].
    clear Hss Hend.
    induction s as [|c s IH]; intros b Hss Hend; [reflexivity|].
    cbn [single_spaced] in Hss. destruct s as [|d s].
    + cbn [ends_with_c] in *. destruct (is_space_c c); [|reflexivity].
      apply andb_true_iff in Hss as [Hss _]. apply andb_true_iff in Hss as [Hc _].
      apply Ascii.eqb_eq in Hc. subst c. congruence.
    + change (ends_with_c is_space_c (String c (String d s)))
        with (ends_with_c is_space_c (String d s)).
      change (ends_with_c (in_chars chars) (String c (String d s)))
        with (ends_with_c (in_chars chars) (String d s)) in Hend.
      destruct (is_space_c c).
      * apply andb_true_iff in Hss as [_ Hss]. now apply (IH true).
      * now apply (IH false).
Qed.

(** *** [clean_quote] *)

Lemma clean_quote_facts (quote : string) :
  trimmed (in_chars (String dq "' []")) (clean_quote quote)
  /\ trimmed is_space_c (clean_quote quote)
  /\ single_spaced false (clean_quote quote) = true.
Proof.
  assert (H1 : trimmed (in_chars (String dq "' []")) (clean_quote quote))
    by apply strip_by_trimmed.
  assert (H2 : single_spaced false (clean_quote quote) = true).
  { unfold clean_quote, strip_chars. apply strip_by_single_spaced.
    unfold Space. rewrite re_sub_plus_class. apply squeeze_single_spaced. }
  split; [exact H1|]. split; [|exact H2].
  now apply (single_spaced_trimmed (String dq "' []")).
Qed.

(** The text that [clean_quote] returns neither begins nor ends with a
    double quote, an apostrophe, a space or a square bracket, nor with any
    whitespace, and its only whitespace is single spaces between the
    words. *)
Theorem clean_quote_shape (quote : string) :
  trimmed (in_chars (String dq "' []")) (clean_quote quote)
  /\ trimmed is_space_c (clean_quote quote)
  /\ single_spaced false (clean_quote quote) = true.
Proof. apply clean_quote_facts. Qed.

(** *** [clean_text] of the script *)

Lemma clean_text_facts (text : string) :
  sforall (fun c => negb (is_digit_c c)) (clean_text text) = true
  /\ trimmed is_space_c (clean_text text)
  /\ single_spaced false (clean_text text) = true.
Proof.
  unfold clean_text, strip. split; [|split].
  - apply strip_by_sforall. unfold Space at 1. rewrite re_sub_plus_class.
    apply squeeze_sforall; [reflexivity|].
    apply re_sub_sforall; [reflexivity|].
    unfold Digit. rewrite re_sub_plus_class. apply squeeze_removes.
  - apply strip_by_trimmed.
  - apply strip_by_single_spaced. unfold Space at 1. rewrite re_sub_plus_class.
    apply squeeze_single_spaced.
Qed.

(** The text that [clean_text] returns has no digit, neither begins nor
    ends with whitespace, and its only whitespace is single spaces between
    the words. *)
Theorem clean_text_shape (text : string) :
  sforall (fun c => negb (is_digit_c c)) (clean_text text) = true
  /\ trimmed is_space_c (clean_text text)
  /\ single_spaced false (clean_text text) = true.
Proof. apply clean_text_facts. Qed.

(** *** [clean_texts] and [main] *)

Lemma find_contains (sub s : string) :
  is_Some (find sub s) <-> contains sub s = true.
Proof.
  induction s as [|c s IH]; cbn [find contains].
  - destruct (String.prefix sub ""); cbn [orb].
    + split; eauto.
    + split; [intros [x H]; discriminate|discriminate].
  - destruct (String.prefix sub (String c s)); cbn [orb]; [split; eauto|].
    rewrite <- IH. destruct (find sub s).
    + split; eauto.
    + split; intros [x H]; discriminate.
Qed.

Lemma has_markers_find (v : string) :
  has_markers v = true <->
  exists a b, find start_marker v = Some a /\ find end_marker v = Some b.
Proof.
  unfold has_markers. rewrite andb_true_iff, <- !find_contains. split.
  - intros [[a Ha] [b Hb]]. eauto.
  - intros (a & b & Ha & Hb). split; eauto.
Qed.

Lemma clean_loop_ok (i : nat) (acc : string) (l : list string) :
  Forall (fun v => has_markers v = true) l ->
  clean_loop i acc l
  = Ok (acc +:+ fold_right (fun v rest => volume_body v +:+ String nl (String nl "") +:+ rest)
                  "" l).
Proof.
  revert i acc. induction l as [|v l IH]; intros i acc H; cbn [clean_loop fold_right].
  - now rewrite app_nil_r_s.
  - apply Forall_cons in H as [Hv H].
    apply has_markers_find in Hv as (a & b & Ha & Hb).
    unfold volume_body. rewrite Ha, Hb. rewrite IH by exact H.
    now rewrite !app_assoc_s.
Qed.

Lemma clean_loop_err (i : nat) (acc : string) (l1 l2 : list string) (v : string) :
  Forall (fun v => has_markers v = true) l1 -> has_markers v = false ->
  clean_loop i acc (l1 ++ v :: l2)
  = Err (ValueError ("Could not find markers in volume " +:+ str_of_nat (i + length l1))).
Proof.
  revert i acc. induction l1 as [|u l1 IH]; intros i acc H Hv; cbn [app clean_loop].
  - rewrite Nat.add_0_r.
    destruct (find start_marker v) as [a|] eqn:Ha; [|reflexivity].
    destruct (find end_marker v) as [b|] eqn:Hb; [|reflexivity].
    assert (Hm : has_markers v = true) by (apply has_markers_find; eauto).
    congruence.
  - apply Forall_cons in H as [Hu H].
    apply has_markers_find in Hu as (a & b & Ha & Hb). rewrite Ha, Hb.
    rewrite IH by assumption. cbn [length]. now rewrite Nat.add_succ_comm.
Qed.

Lemma first_without_markers (l : list string) :
  Forall (fun v => has_markers v = true) l
  \/ exists l1 v l2, l = l1 ++ v :: l2
       /\ Forall (fun v => has_markers v = true) l1 /\ has_markers v = false.
Proof.
  induction l as [|u l IH]; [left; apply Forall_nil_2|].
  destruct (has_markers u) eqn:Hu.
  - destruct IH as [IH|(l1 & v & l2 & -> & H1 & Hv)].
    + left. now apply Forall_cons.
    + right. exists (u :: l1), v, l2. split; [reflexivity|].
      split; [now apply Forall_cons|exact Hv].
  - right. exists [], u, l. split; [reflexivity|]. split; [apply Forall_nil_2|exact Hu].
Qed.

Lemma clean_texts_ok (raw_texts : list string) :
  (exists out, clean_texts raw_texts = Ok out)
  <-> raw_texts <> [] /\ Forall (fun v => has_markers v = true) raw_texts.
Proof.
  split.
  - intros [out H]. destruct raw_texts as [|u l]; [discriminate|].
    split; [discriminate|].
    destruct (first_without_markers (u :: l)) as [Hall|(l1 & v & l2 & E & H1 & Hv)];
      [exact Hall|].
    unfold clean_texts in H. rewrite E in H.
    rewrite (clean_loop_err 1 "" l1 l2 v H1 Hv) in H. discriminate.
  - intros [Hne Hall]. destruct raw_texts as [|u l]; [congruence|].
    unfold clean_texts. rewrite clean_loop_ok by exact Hall. eauto.
Qed.

(** [clean_texts] raises [ValueError] exactly when there is no text or some
    volume lacks one of the two Gutenberg markers; the message names the
    first such volume, counted from 1.  A volume whose end marker stands
    before its start marker is no error. *)
Theorem clean_texts_errors (raw_texts : list string) :
  (raw_texts = [] ->
   clean_texts raw_texts = Err (ValueError "No texts to clean. Did you run fetch_texts()?"))
  /\ (forall l1 v l2, raw_texts = l1 ++ v :: l2 ->
        Forall (fun v => has_markers v = true) l1 -> has_markers v = false ->
        clean_texts raw_texts
        = Err (ValueError ("Could not find markers in volume "
                            +:+ str_of_nat (S (length l1)))))
  /\ ((exists out, clean_texts raw_texts = Ok out)
      <-> raw_texts <> [] /\ Forall (fun v => has_markers v = true) raw_texts).
Proof.
  split; [now intros ->|]. split; [|apply clean_texts_ok].
  intros l1 v l2 -> H1 Hv.
  assert (E : clean_texts (l1 ++ v :: l2) = clean_loop 1 "" (l1 ++ v :: l2))
    by now destruct l1.
  rewrite E. now apply clean_loop_err.
Qed.

Lemma clean_volume_shape (text : string) :
  trimmed is_space_c (clean_volume text)
  /\ single_spaced false (clean_volume text) = true.
Proof.
  unfold clean_volume, strip. split; [apply strip_by_trimmed|].
  apply strip_by_single_spaced. unfold Space at 1. rewrite re_sub_plus_class.
  apply squeeze_single_spaced.
Qed.

(** The text that [clean_texts] returns is made of one cleaned volume for
    each raw text, in order, each followed by two newlines; a cleaned volume
    neither begins nor ends with whitespace and its only whitespace is
    single spaces. *)
Theorem clean_texts_shape (raw_texts : list string) (out : string) :
  clean_texts raw_texts = Ok out ->
  exists volumes,
    length volumes = length raw_texts
    /\ out = fold_right (fun v rest => v +:+ String nl (String nl "") +:+ rest) "" volumes
    /\ Forall (fun v => trimmed is_space_c v /\ single_spaced false v = true) volumes.
Proof.
  intros H.
  assert (Hall : Forall (fun v => has_markers v = true) raw_texts).
  { apply (clean_texts_ok raw_texts). eauto. }
  assert (E : clean_texts raw_texts = clean_loop 1 "" raw_texts).
  { destruct raw_texts; [discriminate|reflexivity]. }
  rewrite E, clean_loop_ok, app_nil_l in H by exact Hall. injection H as <-.
  exists (map volume_body raw_texts). split; [apply length_map|]. split.
  - clear. induction raw_texts as [|v l IH]; [reflexivity|].
    cbn [map fold_right]. now rewrite IH.
  - apply Forall_forall. intros x Hx. apply list_elem_of_fmap in Hx as (v & -> & Hv).
    unfold volume_body.
    destruct (find start_marker v); [|split; [split|]; reflexivity].
    destruct (find end_marker v); [apply clean_volume_shape|split; [split|]; reflexivity].
Qed.

Lemma clean_texts_shape_witness :
  exists volumes,
    length volumes = 1
    /\ "*** START OF THE PROJECT GUTENBERG EBOOK HISTORY *** BOOK I"
       +:+ String nl (String nl "")
       = fold_right (fun v rest => v +:+ String nl (String nl "") +:+ rest) "" volumes
    /\ Forall (fun v => trimmed is_space_c v /\ single_spaced false v = true) volumes.
Proof.
  apply (clean_texts_shape
           ["x *** START OF THE PROJECT GUTENBERG EBOOK HISTORY ***  BOOK   I  *** END OF THE PROJECT GUTENBERG EBOOK HISTORY ***"]).
  vm_compute. reflexivity.
Defined.

(** [main] exits with an error only in the cleaning: once both markers are
    found in every fetched volume and there is a volume, cleaning,
    segmentation and extraction all return normally. *)
Theorem main_fails_only_in_cleaning (fz : option string -> string -> Z)
    (cd : list CharData) (raw_texts : list string) :
  (exists st, main fz cd raw_texts = Ok st)
  <-> raw_texts <> [] /\ Forall (fun v => has_markers v = true) raw_texts.
Proof.
  unfold main. split.
  - intros [st H]. destruct (clean_texts raw_texts) as [out|e] eqn:E; [|discriminate].
    apply clean_texts_ok. eauto.
  - intros [Hne Hall]. destruct raw_texts as [|u l]; [congruence|].
    unfold clean_texts. rewrite clean_loop_ok by exact Hall. cbn [bind].
    destruct (run_total fz cd
                ("" +:+ fold_right
                   (fun v rest => volume_body v +:+ String nl (String nl "") +:+ rest)
                   "" (u :: l))) as (st & H & _).
    eauto.
Qed.

(** *** [assess_quote_quality] *)

Lemma Zpos_of_nat (b : nat) : 0 < b -> Zpos (Pos.of_nat b) = Z.of_nat b.
Proof.
  intros H. rewrite <- positive_nat_Z, Nat2Pos.id by lia. reflexivity.
Qed.

Lemma ratio_bounds (a b : nat) : a <= b -> 0 < b -> (0 <= ratio a b <= 1)%Q.
Proof.
  intros Hab Hb. unfold ratio, Qle. cbn [Qnum Qden].
  rewrite (Zpos_of_nat b Hb). lia.
Qed.

Lemma qmin_le_l (a b : Q) : (qmin a b <= a)%Q.
Proof.
  unfold qmin. destruct (qltb b a) eqn:E.
  - apply qltb_lt in E. now apply Qlt_le_weak.
  - apply Qle_refl.
Qed.

Lemma qmin_one_le (b : Q) : (qmin 1.0 b <= 1)%Q.
Proof.
  apply (Qle_trans _ 1.0); [apply qmin_le_l|]. unfold Qle. simpl. lia.
Qed.

Lemma qmin_ge (c a b : Q) : (c <= a)%Q -> (c <= b)%Q -> (c <= qmin a b)%Q.
Proof. intros Ha Hb. unfold qmin. now destruct (qltb b a). Qed.

Lemma count_if_le (p : ascii -> bool) (s : string) : count_if p s <= String.length s.
Proof.
  induction s as [|c s IH]; [reflexivity|]. cbn [count_if String.length].
  destruct (p c); lia.
Qed.

Lemma filter_length_le' {A : Type} (f : A -> bool) (l : list A) :
  length (List.filter f l) <= length l.
Proof.
  induction l as [|x l IH]; [reflexivity|]. cbn [List.filter].
  destruct (f x); cbn [length]; lia.
Qed.

Lemma size_words_zero (l : list string) :
  size (list_to_set l : gset string) = 0 <-> l = [].
Proof.
  split.
  - intros H. apply size_empty_inv in H.
    destruct l as [|x l]; [reflexivity|]. exfalso.
    apply (not_elem_of_empty (C:=gset string) x). rewrite <- H.
    cbn [list_to_set]. set_solver.
  - intros ->. reflexivity.
Qed.

Lemma split_empty_text (s : string) : split s <> [] -> String.length s <> 0.
Proof. destruct s; [intros H; now contradict H|discriminate]. Qed.

Lemma assess_returns (q : Quote) :
  split (text q) <> [] ->
  exists m,
    assess_quote_quality q = Returns m
    /\ (0 <= grammatical_completeness m <= 1)%Q
    /\ (0 <= context_relevance m <= 1)%Q
    /\ (attribution_confidence m <= 1)%Q
    /\ (forall c, (c <= 1)%Q -> (c <= confidence q)%Q -> (0 <= c)%Q ->
          (c <= attribution_confidence m)%Q)
    /\ (0 <= text_cleanliness m <= 1)%Q.
Proof.
  intros Hw. unfold assess_quote_quality.
  assert (Hsz : size (list_to_set (split (text q)) : gset string) <> 0).
  { intros H. now apply size_words_zero in H. }
  apply Nat.eqb_neq in Hsz. rewrite Hsz.
  pose proof (split_empty_text _ Hw) as Hlen. apply Nat.eqb_neq in Hlen. rewrite Hlen.
  apply Nat.eqb_neq in Hsz, Hlen.
  eexists. split; [reflexivity|]. cbn [grammatical_completeness context_relevance
    attribution_confidence text_cleanliness].
  assert (H01 : (0 <= 1.0)%Q) by (unfold Qle; simpl; lia).
  split; [|split; [|split; [|split]]].
  - split; [|apply qmin_one_le]. apply qmin_ge; [exact H01|].
    destruct (re_split (Plus true (OneOf ".!?")) (text q)) as [|s0 ss] eqn:E;
      [unfold Qle; simpl; lia|].
    apply ratio_bounds; [apply filter_length_le'|cbn [length]; lia].
  - split; [|apply qmin_one_le]. apply qmin_ge; [exact H01|].
    apply ratio_bounds; [|lia]. apply subseteq_size, intersection_subseteq_l.
  - apply qmin_one_le.
  - intros c Hc1 Hcq Hc0. apply qmin_ge; [lra|].
    destruct (contains_any speech_indicators (lower (context_before q))); [|exact Hcq].
    lra.
  - split; [|apply qmin_one_le]. apply qmin_ge; [exact H01|].
    destruct (ratio_bounds (count_if (in_chars "[](){}") (text q))
                (String.length (text q))) as [_ H1]; [apply count_if_le|lia|].
    lra.
Qed.

(** [assess_quote_quality] raises [ZeroDivisionError] exactly when the text
    of the quote has no word, and returns its metrics otherwise. *)
Theorem assess_quote_quality_raises (q : Quote) :
  (assess_quote_quality q = Raises ZeroDivisionError <-> split (text q) = [])
  /\ ((exists m, assess_quote_quality q = Returns m) <-> split (text q) <> []).
Proof.
  assert (Hraise : split (text q) = [] -> assess_quote_quality q = Raises ZeroDivisionError).
  { intros H. unfold assess_quote_quality. now rewrite H. }
  split; split.
  - intros H. destruct (split (text q)) as [|w ws] eqn:E; [reflexivity|].
    destruct (assess_returns q) as (m & Hm & _); [rewrite E; discriminate|].
    rewrite Hm in H. discriminate.
  - exact Hraise.
  - intros [m Hm] H. rewrite (Hraise H) in Hm. discriminate.
  - intros H. destruct (assess_returns q H) as (m & Hm & _). eauto.
Qed.

(** The metrics that [assess_quote_quality] returns: the grammatical
    completeness, the context relevance and the text cleanliness lie
    between 0 and 1, and the attribution confidence is at most 1 and not
    negative when the confidence of the quote is not. *)
Theorem assess_quote_quality_bounds (q : Quote) (m : QuoteQualityMetrics) :
  assess_quote_quality q = Returns m ->
  (0 <= grammatical_completeness m <= 1)%Q
  /\ (0 <= context_relevance m <= 1)%Q
  /\ (attribution_confidence m <= 1)%Q
  /\ ((0 <= confidence q)%Q -> (0 <= attribution_confidence m)%Q)
  /\ (0 <= text_cleanliness m <= 1)%Q.
Proof.
  intros H.
  destruct (split (text q)) as [|w ws] eqn:E.
  - unfold assess_quote_quality in H. rewrite E in H. discriminate.
  - destruct (assess_returns q) as (m' & Hm & H1 & H2 & H3 & H4 & H5);
      [rewrite E; discriminate|].
    rewrite Hm in H. injection H as <-.
    split; [exact H1|]. split; [exact H2|]. split; [exact H3|]. split; [|exact H5].
    intros Hc. apply (H4 0%Q); [unfold Qle; simpl; lia|exact Hc|apply Qle_refl].
Qed.

Lemma assess_quote_quality_bounds_witness :
  let m := mkMetrics 1.0 (1 # 5) 1.0 (200 # 220) in
  (0 <= grammatical_completeness m <= 1)%Q
  /\ (0 <= context_relevance m <= 1)%Q
  /\ (attribution_confidence m <= 1)%Q
  /\ ((0 <= 0.95)%Q -> (0 <= attribution_confidence m)%Q)
  /\ (0 <= text_cleanliness m <= 1)%Q.
Proof.
  intros m.
  apply (assess_quote_quality_bounds
           (mkQuote "Solon" "Count no man happy [1]" "I" "Solon said to the man" ""
              "basic_quote" 0.95) m).
  vm_compute. reflexivity.
Defined.

(** The metrics of every quote that a run emits can be computed: the text
    has at least four words, so [assess_quote_quality] raises no
    [ZeroDivisionError] in [save_data], and the attribution confidence lies
    between 0.6375 and 1. *)
Theorem emitted_quotes_can_be_assessed
    (fz : option string -> string -> Z) (cd : list CharData) (txt : string)
    (st' : State) :
  run fz cd txt = Ok st' ->
  Forall (fun q =>
            exists m, assess_quote_quality q = Returns m
                      /\ (0.6375 <= attribution_confidence m <= 1)%Q)
         (quotes st').
Proof.
  intros H. pose proof (run_sourced _ _ _ _ H) as Hsrc.
  apply run_inv in H as (done & _ & Hval & _).
  rewrite Forall_forall in Hsrc, Hval. apply Forall_forall. intros q Hq.
  specialize (Hval q Hq). apply is_valid_quote_sound in Hval as [[Hw _] _].
  destruct (Hsrc q Hq) as (b & p & m0 & _ & _ & _ & (_ & _ & _ & _ & Eq)).
  destruct (assess_returns q) as (m & Hm & _ & _ & H3 & H4 & _).
  { unfold word_count in Hw. destruct (split (text q)); [simpl in Hw; lia|discriminate]. }
  exists m. split; [exact Hm|]. split; [|exact H3].
  apply H4; try (unfold Qle; simpl; lia).
  rewrite Eq. cbn [confidence]. apply adjusted_confidence_bounds.
Qed.

Lemma emitted_quotes_can_be_assessed_witness :
  Forall (fun q =>
            exists m, assess_quote_quality q = Returns m
                      /\ (0.6375 <= attribution_confidence m <= 1)%Q)
         (quotes Scenario.proverb_state).
Proof.
  apply (emitted_quotes_can_be_assessed Scenario.indel_ratio Scenario.two_characters
           Scenario.proverb_text Scenario.proverb_state).
  vm_compute. reflexivity.
Defined.

(** *** The speaker recorded by the script *)

Lemma first_accepted_sound (subject : string) (ms : list mobj) (n : string) :
  first_accepted subject ms = Some n -> accepted n = true.
Proof.
  induction ms as [|m ms IH]; cbn [first_accepted]; [discriminate|].
  destruct (accepted (group subject m 1)) eqn:E; [|exact IH].
  intros H. now injection H as <-.
Qed.

Lemma nearest_subject_sound (lookback_text : string) (cands : list mobj) (n : string) :
  nearest_subject lookback_text cands = Some n -> accepted n = true.
Proof.
  induction cands as [|c cands IH]; cbn [nearest_subject]; [discriminate|].
  destruct (accepted (group lookback_text c 1)) eqn:E; cbn [negb]; [|exact IH].
  destruct (contains "by " _); [exact IH|].
  intros H. now injection H as <-.
Qed.

Lemma identify_speaker_cases (context_before : string) :
  identify_speaker context_before = "Unknown"
  \/ accepted (identify_speaker context_before) = true.
Proof.
  unfold identify_speaker.
  destruct (first_accepted _ (rev (finditer speaker_note_verb_re _))) as [n|] eqn:E1.
  { right. now apply first_accepted_sound in E1. }
  destruct (rev (finditer verb_re _)) as [|last_verb l]; [now left|].
  destruct (nearest_subject _ _) as [n|] eqn:E2; [|now left].
  right. now apply nearest_subject_sound in E2.
Qed.

Lemma attributed_speaker_cases (cleaned_text context_before : string) :
  attributed_speaker cleaned_text context_before = "Unknown"
  \/ accepted (attributed_speaker cleaned_text context_before) = true.
Proof.
  unfold attributed_speaker, Script.resolve_speaker.
  destruct (re_match addressee_re cleaned_text); [|apply identify_speaker_cases].
  destruct (first_accepted _ _) as [n|] eqn:E; [|apply identify_speaker_cases].
  right. now apply first_accepted_sound in E.
Qed.

(** The speaker that the script records for a quotation is either the
    default [Unknown] or a name that is on neither stoplist; [Unknown]
    itself is on the blacklist, so the two cases exclude each other. *)
Theorem attributed_speaker_accepted (cleaned_text context_before : string) :
  (attributed_speaker cleaned_text context_before = "Unknown"
   \/ accepted (attributed_speaker cleaned_text context_before) = true)
  /\ accepted "Unknown" = false.
Proof. split; [apply attributed_speaker_cases|]. vm_compute. reflexivity. Qed.

(** *** [get_tags] *)

Lemma lower_app (a b : string) : lower (a +:+ b) = lower a +:+ lower b.
Proof.
  unfold lower. induction a as [|c a IH]; [reflexivity|].
  rewrite app_cons. cbn [smap]. now rewrite IH, app_cons.
Qed.

Lemma contains_app_left (w a b : string) :
  contains w a = true -> contains w (a +:+ b) = true.
Proof.
  intros H. apply contains_iff in H as (pre & post & ->).
  apply contains_iff. exists pre, (post +:+ b). now rewrite !app_assoc_s.
Qed.

Lemma contains_any_app (ws : list string) (a b : string) :
  contains_any ws a = true ->
  contains_any ws (a +:+ b) = true /\ contains_any ws (b +:+ a) = true.
Proof.
  unfold contains_any. intros H. apply existsb_exists in H as (w & Hw & Hc).
  split; apply existsb_exists; exists w; (split; [exact Hw|]).
  - now apply contains_app_left.
  - now apply contains_app_r.
Qed.

Lemma history_no_key : forall kw, kw ∈ keywords -> kw.1 <> "history".
Proof.
  intros kw H. unfold keywords in H.
  repeat (apply elem_of_cons in H as [->|H]; [discriminate|]). inversion H.
Qed.

Lemma matched_tags_spec (text tag : string) :
  tag ∈ matched_tags text
  <-> (exists ws, (tag, ws) ∈ keywords /\ contains_any ws (lower text) = true)
      \/ (tag = "history"
          /\ forall kw, kw ∈ keywords -> contains_any kw.2 (lower text) = false).
Proof.
  unfold matched_tags. cbv zeta.
  set (f := fun kw : string * list string => contains_any kw.2 (lower text)).
  assert (Hin : forall t, t ∈ map fst (List.filter f keywords)
                          <-> exists ws, (t, ws) ∈ keywords /\ f (t, ws) = true).
  { intros t. split.
    - intros H. apply list_elem_of_fmap in H as ([t' ws] & -> & H).
      apply list_elem_of_In, filter_In in H as [H1 H2].
      exists ws. split; [now apply list_elem_of_In|exact H2].
    - intros (ws & H1 & H2). apply list_elem_of_fmap. exists (t, ws).
      split; [reflexivity|]. apply list_elem_of_In, filter_In.
      split; [now apply list_elem_of_In|exact H2]. }
  destruct (map fst (List.filter f keywords)) as [|t0 l] eqn:E.
  - split.
    + intros H. apply list_elem_of_singleton in H. right. split; [exact H|].
      intros [t ws] Hkw. destruct (f (t, ws)) eqn:Hf; [|exact Hf].
      assert (Ht : t ∈ ([] : list string)) by (apply Hin; eauto). inversion Ht.
    + intros [(ws & H1 & H2)|[-> _]]; [|apply list_elem_of_here].
      assert (Ht : tag ∈ ([] : list string)) by (apply Hin; eauto). inversion Ht.
  - rewrite Hin. split; [now left|].
    intros [H|[-> Hnone]]; [exact H|].
    assert (Ht : t0 ∈ t0 :: l) by apply list_elem_of_here.
    apply Hin in Ht as (ws & H1 & H2). specialize (Hnone _ H1).
    unfold f in H2. congruence.
Qed.

Lemma get_tags_elem (text tag : string) :
  tag ∈ get_tags text <-> tag ∈ matched_tags text.
Proof. unfold get_tags. now rewrite elem_of_elements, elem_of_list_to_set. Qed.

(** [get_tags] returns a non-empty list without repetition; a theme is in
    it exactly when one of its keywords occurs in the lower-cased text, and
    [history] exactly when no keyword of any theme does. *)
Theorem get_tags_spec (text : string) :
  get_tags text <> [] /\ NoDup (get_tags text)
  /\ forall tag,
       tag ∈ get_tags text
       <-> (exists ws, (tag, ws) ∈ keywords /\ contains_any ws (lower text) = true)
           \/ (tag = "history"
               /\ forall kw, kw ∈ keywords -> contains_any kw.2 (lower text) = false).
Proof.
  split; [|split].
  - intros H.
    assert (Hm : exists t, t ∈ matched_tags text).
    { unfold matched_tags. cbv zeta.
      destruct (map fst _) as [|t l]; eexists; apply list_elem_of_here. }
    destruct Hm as [t Ht]. apply get_tags_elem in Ht. rewrite H in Ht. inversion Ht.
  - unfold get_tags. apply NoDup_elements.
  - intros tag. rewrite get_tags_elem. apply matched_tags_spec.
Qed.

(** A theme found in a text is found in every text that contains it:
    adding text before or after never removes a tag other than
    [history]. *)
Theorem get_tags_monotone (text more tag : string) :
  tag ∈ get_tags text -> tag <> "history" ->
  tag ∈ get_tags (text +:+ more) /\ tag ∈ get_tags (more +:+ text).
Proof.
  intros H Hne. apply get_tags_elem, matched_tags_spec in H.
  destruct H as [(ws & H1 & H2)|[-> _]]; [|congruence].
  rewrite !get_tags_elem, !matched_tags_spec, !lower_app.
  destruct (contains_any_app ws (lower text) (lower more) H2) as [Ha Hb].
  split; left; exists ws; auto.
Qed.

Lemma get_tags_monotone_witness :
  "hubris" ∈ get_tags ("the king" +:+ " of the Persians")
  /\ "hubris" ∈ get_tags (" of the Persians" +:+ "the king").
Proof.
  apply (get_tags_monotone "the king" " of the Persians" "hubris").
  - vm_compute. apply list_elem_of_here.
  - discriminate.
Defined.

(** *** [extract_quotes_from_file] *)

Lemma length_last_n (n : nat) (s : string) : String.length (last_n n s) <= n.
Proof. unfold last_n. rewrite length_drop. lia. Qed.

Lemma process_quote_ok (book_num text_block : string) (quotes : list Entry) (m : mobj) :
  Forall entry_ok quotes -> Forall entry_ok (process_quote book_num text_block quotes m).
Proof.
  intros H. unfold process_quote. cbv zeta.
  destruct (String.length (clean_text (group text_block m 1)) <? 30)%nat eqn:Hlen;
    [exact H|].
  destruct (first_islower (clean_text (group text_block m 1))) eqn:Hlow; [exact H|].
  destruct (contains "Editors read" (clean_text (group text_block m 1))) eqn:Hed;
    [exact H|].
  apply Forall_app. split; [exact H|]. apply Forall_singleton.
  unfold entry_ok. cbn [e_text e_context_before e_context_after e_speaker e_tags].
  apply Nat.ltb_ge in Hlen.
  split; [exact Hlen|]. split; [exact Hlow|]. split; [exact Hed|].
  split; [apply clean_text_facts|].
  split; [apply length_last_n|]. split; [apply length_str_take|].
  split; [apply attributed_speaker_cases|reflexivity].
Qed.

Section BlocksInvariant.
Variable P : list Entry -> Prop.
Hypothesis P_process_quote :
  forall book_num text_block quotes m, P quotes -> P (process_quote book_num text_block quotes m).

Lemma process_block_inv (header text_block : string) (quotes : list Entry) :
  P quotes -> P (process_block header text_block quotes).
Proof.
  intros H. unfold process_block. cbv zeta.
  apply fold_left_preserves; [exact H|].
  intros x m Hx. now apply P_process_quote.
Qed.

Lemma process_blocks_tail (text : string) (ms : list mobj) (prev : nat)
    (quotes : list Entry) :
  P quotes ->
  exists es, process_blocks (tl (pieces_with_group text prev ms)) quotes = Returns es
             /\ P es.
Proof.
  revert prev quotes. induction ms as [|m ms IH]; intros prev quotes H.
  - exists quotes. auto.
  - cbn [pieces_with_group tl process_blocks].
    destruct ms as [|m2 ms2].
    + cbn [pieces_with_group process_blocks]. eexists. split; [reflexivity|].
      now apply process_block_inv.
    + specialize (IH (m_end m)
                    (process_block (group text m 1)
                       (slice (m_end m) (m_start m2) text) quotes)).
      cbn [pieces_with_group tl] in IH. cbn [pieces_with_group].
      apply IH. now apply process_block_inv.
Qed.

(** The two cases of [extract_quotes_from_file], on the content that it
    splits into books *)
Lemma extract_quotes_from_file_cases (lines : list string) :
  P [] ->
  let content :=
    join ""
      (List.filter
         (fun line =>
            negb (contains "*** START OF" line || contains "*** END OF" line
                  || contains "Project Gutenberg" line))
         lines) in
  (finditer header_re content = []
   /\ extract_quotes_from_file lines = Raises IndexError)
  \/ (finditer header_re content <> []
      /\ exists es, extract_quotes_from_file lines = Returns es /\ P es).
Proof.
  intros Hnil content. unfold extract_quotes_from_file. cbv zeta. fold content.
  unfold re_split_group.
  destruct (finditer header_re content) as [|m ms] eqn:E.
  - left. split; reflexivity.
  - right. split; [discriminate|].
    assert (Hlen : (1 <? length (pieces_with_group content 0 (m :: ms)))%nat = true).
    { apply Nat.ltb_lt. cbn [pieces_with_group length]. lia. }
    rewrite Hlen.
    change (drop 1 (pieces_with_group content 0 (m :: ms)))
      with (tl (pieces_with_group content 0 (m :: ms))).
    now apply process_blocks_tail.
Qed.

End BlocksInvariant.

(** On a file without any header [BOOK] followed by a numeral (outside the
    lines of the Gutenberg boilerplate, which are dropped), the script
    raises [IndexError]: the only piece is taken for a header and the block
    after it is missing.  With a header it returns normally. *)
Theorem extract_quotes_from_file_index_error (lines : list string) :
  let content :=
    join ""
      (List.filter
         (fun line =>
            negb (contains "*** START OF" line || contains "*** END OF" line
                  || contains "Project Gutenberg" line))
         lines) in
  (extract_quotes_from_file lines = Raises IndexError
   <-> finditer header_re content = [])
  /\ ((exists es, extract_quotes_from_file lines = Returns es)
      <-> finditer header_re content <> []).
Proof.
  intros content.
  destruct (extract_quotes_from_file_cases (fun _ => True) (fun _ _ _ _ _ => I) lines I)
    as [[H1 H2]|(H1 & es & H2 & _)];
    fold content in H1; rewrite H2.
  - split; split; try (intros; assumption || reflexivity).
    + intros [es H]. discriminate.
    + intros H. contradiction.
  - split; split; try discriminate; eauto.
    intros H. contradiction.
Qed.

(** Every record that the script returns passed its filters: the cleaned
    text has at least 30 characters, does not begin with a lowercase letter,
    does not contain [Editors read] and has no digit; the two contexts have
    at most 200 characters; the speaker is [Unknown] or a name on neither
    stoplist; and the tags are those of the cleaned text. *)
Theorem extracted_entries_pass_filters (lines : list string) (es : list Entry) :
  extract_quotes_from_file lines = Returns es -> Forall entry_ok es.
Proof.
  intros H.
  destruct (extract_quotes_from_file_cases (Forall entry_ok) process_quote_ok lines
              (Forall_nil_2 _))
    as [[_ H2]|(_ & es' & H2 & Hok)];
    rewrite H2 in H; [discriminate|].
  now injection H as <-.
Qed.

Lemma extracted_entries_pass_filters_witness :
  Forall entry_ok Sample.script_entries.
Proof.
  apply (extracted_entries_pass_filters Sample.script_lines Sample.script_entries).
  vm_compute. reflexivity.
Defined.

(** *** The identifiers of the records *)

Lemma string_of_uint_digits (d : Decimal.uint) :
  sforall is_digit_c (NilEmpty.string_of_uint d) = true.
Proof. induction d; cbn [NilEmpty.string_of_uint sforall]; auto. Qed.

Lemma of_uint_D0 (d : Decimal.uint) : Nat.of_uint (Decimal.D0 d) = Nat.of_uint d.
Proof.
  rewrite <- (Unsigned.of_uint_norm (Decimal.D0 d)), DecimalFacts.unorm_D0.
  apply Unsigned.of_uint_norm.
Qed.

Lemma format_02d_decimal (n : nat) :
  exists d, format_02d n = NilEmpty.string_of_uint d /\ Nat.of_uint d = n.
Proof.
  unfold format_02d, str_of_nat. destruct (n <? 10)%nat.
  - exists (Decimal.D0 (Nat.to_uint n)). split; [reflexivity|].
    rewrite of_uint_D0. apply Unsigned.of_to.
  - exists (Nat.to_uint n). split; [reflexivity|apply Unsigned.of_to].
Qed.

Lemma format_02d_inj (n m : nat) : format_02d n = format_02d m -> n = m.
Proof.
  destruct (format_02d_decimal n) as (d & -> & <-).
  destruct (format_02d_decimal m) as (d' & -> & <-).
  intros H. apply (f_equal NilEmpty.uint_of_string) in H.
  rewrite !NilEmpty.usu in H. now injection H as ->.
Qed.

Lemma format_02d_digits (n : nat) : sforall is_digit_c (format_02d n) = true.
Proof.
  destruct (format_02d_decimal n) as (d & -> & _). apply string_of_uint_digits.
Qed.

Lemma numbered_suffix (a b x y : string) :
  sforall is_digit_c x = true -> sforall is_digit_c y = true ->
  a +:+ "_" +:+ x = b +:+ "_" +:+ y -> x = y.
Proof.
  intros Hx Hy.
  change ("_" +:+ x) with (String "_" x). change ("_" +:+ y) with (String "_" y).
  revert b. induction a as [|c a IH]; intros b H.
  - destruct b as [|d b].
    + rewrite !app_nil_l in H. now injection H.
    + rewrite app_nil_l, app_cons in H. injection H as _ H.
      rewrite H, sforall_app in Hx. apply andb_true_iff in Hx as [_ Hx].
      discriminate.
  - destruct b as [|d b].
    + rewrite app_nil_l, app_cons in H. injection H as _ H.
      rewrite <- H, sforall_app in Hy. apply andb_true_iff in Hy as [_ Hy].
      discriminate.
    + rewrite !app_cons in H. injection H as _ H. exact (IH b H).
Qed.

Lemma process_quote_numbered (book_num text_block : string) (quotes : list Entry)
    (m : mobj) :
  numbered quotes -> numbered (process_quote book_num text_block quotes m).
Proof.
  intros H. unfold process_quote. cbv zeta.
  destruct (_ <? 30)%nat; [exact H|].
  destruct (first_islower _); [exact H|].
  destruct (contains "Editors read" _); [exact H|].
  intros i e Hi. destruct (decide (i < length quotes)) as [Hlt|Hge].
  - rewrite lookup_app_l in Hi by exact Hlt. now apply H.
  - rewrite lookup_app_r in Hi by lia.
    destruct (i - length quotes) as [|k] eqn:Ek; [|now destruct k].
    injection Hi as <-. cbn [e_id].
    replace i with (length quotes) by lia.
    eexists. rewrite <- !app_assoc_s. reflexivity.
Qed.

(** The identifiers of the records that the script returns end with the
    position of the record in the list, written with two digits at least,
    and are pairwise distinct. *)
Theorem extracted_ids_are_distinct (lines : list string) (es : list Entry) :
  extract_quotes_from_file lines = Returns es ->
  numbered es /\ NoDup (map e_id es).
Proof.
  intros H.
  destruct (extract_quotes_from_file_cases numbered process_quote_numbered lines)
    as [[_ H2]|(_ & es' & H2 & Hnum)].
  { intros i e Hi. inversion Hi. }
  { rewrite H2 in H. discriminate. }
  rewrite H2 in H. injection H as <-. split; [exact Hnum|].
  apply NoDup_alt. intros i j x Hi Hj.
  change (map e_id es') with (e_id <$> es') in Hi, Hj.
  rewrite list_lookup_fmap in Hi, Hj.
  destruct (es' !! i) as [ei|] eqn:Ei; [|discriminate].
  destruct (es' !! j) as [ej|] eqn:Ej; [|discriminate].
  cbn in Hi, Hj. injection Hi as Hi. injection Hj as Hj.
  destruct (Hnum i ei Ei) as [pi Hpi]. destruct (Hnum j ej Ej) as [pj Hpj].
  apply format_02d_inj.
  apply (numbered_suffix pi pj); try apply format_02d_digits. congruence.
Qed.

Lemma extracted_ids_are_distinct_witness :
  numbered Sample.script_entries /\ NoDup (map e_id Sample.script_entries).
Proof.
  apply (extracted_ids_are_distinct Sample.script_lines Sample.script_entries).
  vm_compute. reflexivity.
Defined.

(** *** Emitted texts and the deduplicator *)

Lemma lstrip_by_id (p : ascii -> bool) (s : string) :
  starts_with_c p s = false -> lstrip_by p s = s.
Proof. destruct s as [|c s]; [reflexivity|]. cbn. now intros ->. Qed.

Lemma rstrip_by_id (p : ascii -> bool) (s : string) :
  ends_with_c p s = false -> rstrip_by p s = s.
Proof.
  induction s as [|c s IH]; [reflexivity|]. intros H. cbn [rstrip_by].
  destruct s as [|d s].
  - cbn [ends_with_c] in H. cbn [rstrip_by]. now rewrite H.
  - change (ends_with_c p (String c (String d s))) with (ends_with_c p (String d s)) in H.
    now rewrite (IH H).
Qed.

Lemma strip_by_id (p : ascii -> bool) (s : string) :
  trimmed p s -> strip_by p s = s.
Proof.
  intros [H1 H2]. unfold strip_by. rewrite (lstrip_by_id p s H1).
  now apply rstrip_by_id.
Qed.

(** Every text that a run emits is in cleaned form (no quote mark,
    apostrophe, space or square bracket at either end, single spaces only),
    so stripping it changes nothing and the deduplicator has an entry under
    the text itself. *)
Theorem emitted_texts_are_keys
    (fz : option string -> string -> Z) (cd : list CharData) (txt : string)
    (st' : State) :
  run fz cd txt = Ok st' ->
  Forall (fun q =>
            trimmed (in_chars (String dq "' []")) (text q)
            /\ single_spaced false (text q) = true
            /\ strip (text q) = text q
            /\ is_Some (dedup st' !! text q))
         (quotes st').
Proof.
  intros H. pose proof (run_sourced _ _ _ _ H) as Hsrc.
  apply run_inv in H as (done & _ & _ & _ & _ & Hkey).
  rewrite Forall_forall in Hsrc. apply Forall_forall. intros q Hq.
  destruct (Hsrc q Hq) as (b & p & m & _ & _ & _ & (_ & _ & _ & _ & Eq)).
  assert (Et : text q
               = clean_quote (raw_fields (load_registry cd) (content b) p.2 m).2)
    by (rewrite Eq; reflexivity).
  destruct (clean_quote_facts (raw_fields (load_registry cd) (content b) p.2 m).2)
    as (H1 & H2 & H3).
  rewrite <- Et in H1, H2, H3.
  assert (Es : strip (text q) = text q) by now apply strip_by_id.
  split; [exact H1|]. split; [exact H3|]. split; [exact Es|].
  rewrite <- Es at 1. now apply Hkey.
Qed.

Lemma emitted_texts_are_keys_witness :
  Forall (fun q =>
            trimmed (in_chars (String dq "' []")) (text q)
            /\ single_spaced false (text q) = true
            /\ strip (text q) = text q
            /\ is_Some (dedup Scenario.proverb_state !! text q))
         (quotes Scenario.proverb_state).
Proof.
  apply (emitted_texts_are_keys Scenario.indel_ratio Scenario.two_characters
           Scenario.proverb_text Scenario.proverb_state).
  vm_compute. reflexivity.
Defined.

(** *** The order of the emitted quotes *)

Lemma rank_app_here (done rest : list string) (k : string) :
  k ∉ done -> rank (done ++ k :: rest) k = length done.
Proof.
  induction done as [|d done IH]; intros H; cbn [app rank length].
  - now rewrite String.eqb_refl.
  - apply not_elem_of_cons in H as [Hne H].
    assert (E : String.eqb d k = false) by (apply String.eqb_neq; congruence).
    rewrite E. now rewrite IH.
Qed.

Lemma rank_app_before (done rest : list string) (x : string) :
  x ∈ done -> rank (done ++ rest) x < length done.
Proof.
  induction done as [|d done IH]; intros H; [inversion H|].
  cbn [app rank length]. destruct (String.eqb d x) eqn:E; [lia|].
  apply elem_of_cons in H as [->|H]; [rewrite String.eqb_refl in E; discriminate|].
  specialize (IH H). lia.
Qed.

Section Order.
Variable fz : option string -> string -> Z.
Variable reg : Registry.

Lemma process_match_appends (n txt pn : string) (m : mobj) (st : Loop) :
  exists new, l_quotes (process_match fz reg n txt pn m st) = l_quotes st ++ new
              /\ Forall (fun q => book q = n) new.
Proof.
  unfold process_match.
  destruct (raw_fields reg txt pn m) as [spk raw].
  assert (Hsame : exists new, l_quotes st = l_quotes st ++ new
                              /\ Forall (fun q => book q = n) new).
  { exists []. rewrite app_nil_r. split; [reflexivity|apply Forall_nil_2]. }
  destruct (is_valid_quote (clean_quote raw)); cbn [negb]; [|exact Hsame].
  destruct (DialogueContext.get_context txt (m_start m) (m_end m)) as [cb ca].
  destruct (Parser.resolve_speaker fz reg spk cb) as [[r|]|e]; try exact Hsame.
  destruct (String.eqb r ""); [exact Hsame|].
  destruct (bool_decide ((r, clean_quote raw) ∈ seen st)); [exact Hsame|].
  match goal with |- context [store_quote ?q st] =>
    destruct (store_quote_cases q st) as [E|E]; rewrite E; [exact Hsame|exists [q]]
  end.
  split; [reflexivity|]. now apply Forall_singleton.
Qed.

Lemma extract_quotes_appends (b : Book) (st st' : State) :
  extract_quotes fz reg b st = Ok st' ->
  exists new, quotes st' = quotes st ++ new
              /\ Forall (fun q => book q = number b) new.
Proof.
  unfold extract_quotes. destruct (String.eqb (content b) ""); [discriminate|].
  intros H. injection H as <-. cbn [quotes].
  apply (fold_left_preserves
           (fun l => exists new, l_quotes l = quotes st ++ new
                                 /\ Forall (fun q => book q = number b) new)
           (fun st0 p =>
              fold_left (fun st1 m => process_match fz reg (number b) (content b) p.2 m st1)
                        (finditer p.1 (content b)) st0)
           quote_patterns (mkLoop ∅ (dedup st) (quotes st))).
  - exists []. rewrite app_nil_r. split; [reflexivity|apply Forall_nil_2].
  - intros x p Hx. apply fold_left_preserves; [exact Hx|].
    intros y m (new & E & Hnew).
    destruct (process_match_appends (number b) (content b) p.2 m y) as (new' & E' & Hnew').
    exists (new ++ new'). rewrite E', E, app_assoc. split; [reflexivity|].
    apply Forall_app. auto.
Qed.

Lemma process_numerals_order (all done numerals : list string) (st st' : State) :
  all = done ++ numerals -> NoDup all ->
  books_keyed (books st) ->
  StronglySorted (fun a b => rank all (book a) <= rank all (book b)) (quotes st) ->
  Forall (fun q => book q ∈ done) (quotes st) ->
  process_numerals fz reg numerals st = Ok st' ->
  StronglySorted (fun a b => rank all (book a) <= rank all (book b)) (quotes st').
Proof.
  revert done st. induction numerals as [|k numerals IH];
    intros done st Hall Hnd Hkeyed Hsorted Hdone; cbn [process_numerals].
  - intros H. now injection H as <-.
  - assert (Hall' : all = (done ++ [k]) ++ numerals) by now rewrite <- app_assoc.
    assert (Hweak : forall qs, Forall (fun q => book q ∈ done) qs ->
                               Forall (fun q => book q ∈ done ++ [k]) qs).
    { intros qs Hqs. eapply Forall_impl; [exact Hqs|]. simpl. intros q Hq.
      apply elem_of_app. now left. }
    destruct (books st !! k) as [b|] eqn:Hb.
    + destruct (extract_quotes fz reg b st) as [st1|e] eqn:He; cbn [bind]; [|discriminate].
      assert (Hnum : number b = k) by now apply Hkeyed.
      destruct (extract_quotes_appends b st st1 He) as (new & Eq & Hnew).
      pose proof (extract_quotes_books fz reg _ _ _ He) as Hbooks.
      rewrite Hnum in Hnew.
      assert (Hk : k ∉ done).
      { rewrite Hall in Hnd. apply NoDup_app in Hnd as (_ & Hdisj & _).
        intros Hin. apply (Hdisj k Hin). apply list_elem_of_here. }
      apply (IH (done ++ [k]) st1); try assumption.
      * now rewrite Hbooks.
      * rewrite Eq. clear IH He Eq. induction Hsorted as [|q qs Hs IHs Hq].
        -- cbn [app]. induction new as [|q new IHn]; [apply SSorted_nil|].
           apply Forall_cons in Hnew as [Hq Hnew].
           apply SSorted_cons; [now apply IHn|].
           eapply Forall_impl; [exact Hnew|]. simpl. intros q' Hq'.
           rewrite Hq, Hq'. lia.
        -- apply Forall_cons in Hdone as [Hqd Hdone].
           cbn [app]. apply SSorted_cons; [now apply IHs|].
           apply Forall_app. split; [exact Hq|].
           eapply Forall_impl; [exact Hnew|]. simpl. intros q' Hq'.
           rewrite Hq', Hall, (rank_app_here done numerals k Hk).
           pose proof (rank_app_before done (k :: numerals) (book q) Hqd). lia.
      * rewrite Eq. apply Forall_app. split; [now apply Hweak|].
        eapply Forall_impl; [exact Hnew|]. simpl. intros q' ->.
        apply elem_of_app. right. apply list_elem_of_here.
    + apply (IH (done ++ [k]) st); try assumption. now apply Hweak.
Qed.

End Order.

(** The quotes of a run are emitted book by book in the order of
    [process_books]: in the emitted list no quote of a later book stands
    before a quote of an earlier book. *)
Theorem emitted_quotes_in_book_order
    (fz : option string -> string -> Z) (cd : list CharData) (txt : string)
    (st' : State) :
  run fz cd txt = Ok st' -> in_book_order (quotes st').
Proof.
  unfold run, in_book_order.
  destruct (split_into_books txt init_state) as [st1|e] eqn:Hs; [|discriminate].
  cbn [bind]. unfold process_books. intros H.
  apply (process_numerals_order fz (load_registry cd) roman_numerals [] roman_numerals
           st1 st'); try assumption.
  - reflexivity.
  - apply NoDup_roman_numerals.
  - now apply (books_keyed_split txt init_state).
  - unfold split_into_books in Hs. injection Hs as <-. apply SSorted_nil.
  - unfold split_into_books in Hs. injection Hs as <-. apply Forall_nil_2.
Qed.

Lemma emitted_quotes_in_book_order_witness :
  in_book_order (quotes Scenario.proverb_state).
Proof.
  apply (emitted_quotes_in_book_order Scenario.indel_ratio Scenario.two_characters
           Scenario.proverb_text Scenario.proverb_state).
  vm_compute. reflexivity.
Defined.
